(** * PerfSim: a shallow embedding of the simulator core and its properties

    The development follows the Python sources of PerfSim
    (perfsim/equipments, perfsim/observers, perfsim/placement,
    perfsim/service_chain, perfsim/traffic, perfsim/cluster.py).

    Conventions of the embedding.
    - Python numbers ([int], [float]) are exact rationals [Qc]; the rounding
      of binary floating point is not represented.  [float('inf')] is the
      extra point [PInf] of [ext].
    - A method that can raise returns a [result]; the exception aborts the
      call and no state is returned.
    - Objects referenced from several places (threads of a run queue) live
      in a store and are referred to by their index in it.
    - The iteration order of a Python [set] is taken as the order of the list
      that represents it. *)

From Stdlib Require Import ZArith QArith Qcanon Lia Lqa.
From stdpp Require Import base option list strings gmap.

Local Open Scope Qc_scope.

(** ** Part I: the program *)

(** *** Python values, exceptions and numbers *)

Module Py.

Inductive exn :=
| ZeroDivisionError
| IndexError
| KeyError
| ValueError
| TypeError
| StopIteration
| ResourceNotAvailableError (msg : string)
| Exception (msg : string).

Inductive result (A : Type) :=
| Ok (a : A)
| Err (e : exn).
Arguments Ok {A} a.
Arguments Err {A} e.

Definition bind {A B} (m : result A) (k : A → result B) : result B :=
  match m with
  | Ok a => k a
  | Err e => Err e
  end.

Definition is_ok {A} (m : result A) : bool :=
  match m with Ok _ => true | Err _ => false end.

Definition raises {A} (m : result A) : Prop := ∃ e, m = Err e.

(** [x / y] on Python numbers. *)
Definition div (x y : Qc) : result Qc :=
  if decide (y = 0) then Err ZeroDivisionError else Ok (x / y).

(** [min(x, y)] *)
Definition min (x y : Qc) : Qc := if bool_decide (y < x) then y else x.

(** [l[i]], [l[i] = v] and [l.remove(x)] on Python lists, for an index
    [i >= 0]. *)
Definition get {A} (l : list A) (i : nat) : result A :=
  match l !! i with
  | Some a => Ok a
  | None => Err IndexError
  end.

Definition set {A} (l : list A) (i : nat) (v : A) : result (list A) :=
  if decide (i < length l)%nat then Ok (<[i := v]> l) else Err IndexError.

Fixpoint remove_first `{EqDecision A} (x : A) (l : list A) : option (list A) :=
  match l with
  | [] => None
  | y :: l' =>
      if decide (x = y) then Some l'
      else match remove_first x l' with
           | Some r => Some (y :: r)
           | None => None
           end
  end.

Definition remove `{EqDecision A} (l : list A) (x : A) : result (list A) :=
  match remove_first x l with
  | Some r => Ok r
  | None => Err ValueError
  end.

(** Numbers extended with [float('inf')]. *)
Inductive ext :=
| Fin (q : Qc)
| PInf.

Definition ext_eqb (x y : ext) : bool :=
  match x, y with
  | Fin a, Fin b => bool_decide (a = b)
  | PInf, PInf => true
  | _, _ => false
  end.

Definition ext_ltb (x y : ext) : bool :=
  match x, y with
  | Fin a, Fin b => bool_decide (a < b)
  | Fin _, PInf => true
  | PInf, _ => false
  end.

(** [x - t] for a finite [t]. *)
Definition ext_sub (x : ext) (t : Qc) : ext :=
  match x with
  | Fin a => Fin (a - t)
  | PInf => PInf
  end.

(** [x + t] for a finite [t]. *)
Definition ext_add (x : ext) (t : Qc) : ext :=
  match x with
  | Fin a => Fin (a + t)
  | PInf => PInf
  end.

(** The integer nearest to [q], ties going to the even one: Python's
    [round(q)]. *)
Definition round_half_even (q : Qc) : Z :=
  let n := Qnum (this q) in
  let d := Zpos (Qden (this q)) in
  let f := (n / d)%Z in
  let r := (2 * (n - f * d))%Z in
  if (r <? d)%Z then f
  else if (d <? r)%Z then (f + 1)%Z
  else if Z.even f then f else (f + 1)%Z.

Definition Z2Qc (z : Z) : Qc := Q2Qc (inject_Z z).


End Py.

#[global] Instance result_bind : MBind Py.result := λ A B k m, Py.bind m k.
#[global] Instance result_ret : MRet Py.result := λ A a, Py.Ok a.

(** *** perfsim/equipments/resource.py *)

Module Resource.
Import Py.

Record Resource := {
  type : string;
  name : string;
  throttleable : bool;
  unit_of_measure : string;
  capacity : Qc;
  reserved : Qc;
}.

(** [Resource.__init__] *)
Definition init (type name : string) (throttleable : bool)
    (unit_of_measure : string) (capacity : Qc) : Resource :=
  {| type := type; name := name; throttleable := throttleable;
     unit_of_measure := unit_of_measure; capacity := capacity;
     reserved := 0 |}.

(** [Resource.get_utilization] *)
Definition get_utilization (r : Resource) : result Qc :=
  div (capacity r) (reserved r).

(** [Resource.get_available] *)
Definition get_available (r : Resource) : Qc := capacity r - reserved r.

(** [Resource.is_there_enough_resources_to_reserve] *)
Definition is_there_enough_resources_to_reserve (r : Resource) (amount : Qc)
    : bool :=
  bool_decide (amount ≤ get_available r).

(** [Resource.reserve] *)
Definition reserve (r : Resource) (amount : Qc) : result Resource :=
  if is_there_enough_resources_to_reserve r amount then
    if bool_decide (0 ≤ amount) then
      Ok {| type := type r; name := name r; throttleable := throttleable r;
            unit_of_measure := unit_of_measure r; capacity := capacity r;
            reserved := reserved r + amount |}
    else Err (Exception "Reserving negative resource is not possible!")
  else Err (ResourceNotAvailableError
              "You can't reserve more than available resources").

(** [Resource.release] *)
Definition release (r : Resource) (amount : Qc) : result Resource :=
  if bool_decide (reserved r < amount) && throttleable r then
    Err (Exception "The amount of resource to release is bigger than the reserved capacity")
  else if bool_decide (reserved r - amount < 0) then
    Err (Exception "How come reserved resource is less than 0!")
  else
    Ok {| type := type r; name := name r; throttleable := throttleable r;
          unit_of_measure := unit_of_measure r; capacity := capacity r;
          reserved := reserved r - amount |}.

End Resource.

(** *** perfsim/observers/observable.py *)

Module Observable.
Import Py.

(** An [EventObserver]: its identity and the keys of its [events]
    dictionary, in the order of the dictionary. *)
Record EventObserver := {
  observer_id : nat;
  events : list string;
}.

Record Observable := {
  observers : gmap string (gset nat);
  notify_observers_on_event : bool;
  registered_events : gset string;
}.

(** [Observable.register_event] *)
Definition register_event (event_name : string) (s : Observable) : Observable :=
  {| observers := observers s;
     notify_observers_on_event := notify_observers_on_event s;
     registered_events := {[event_name]} ∪ registered_events s |}.

(** [Observable.__init__]; [register_events] is the abstract method of the
    subclass, given by the names it registers. *)
Definition init (register_events : list string) : Observable :=
  foldl (λ s e, register_event e s)
        {| observers := ∅; notify_observers_on_event := true;
           registered_events := ∅ |}
        register_events.

Definition set_observers (s : Observable) (m : gmap string (gset nat))
    : Observable :=
  {| observers := m;
     notify_observers_on_event := notify_observers_on_event s;
     registered_events := registered_events s |}.

(** The body of the loop of [attach_observer] for one event name. *)
Definition attach_event (oid : nat) (event_name : string) (s : Observable)
    : result Observable :=
  s1 ← (match observers s !! event_name with
        | Some _ => Ok s
        | None =>
            if decide (event_name ∈ registered_events s) then
              Ok (set_observers s (<[event_name := ∅]> (observers s)))
            else
              Err (Exception "Event is not registered. Please first register the event using register_event method.")
        end) ;
  match observers s1 !! event_name with
  | Some os => Ok (set_observers s1 (<[event_name := {[oid]} ∪ os]> (observers s1)))
  | None => Err KeyError
  end.

Fixpoint attach_events (oid : nat) (evs : list string) (s : Observable)
    : result Observable :=
  match evs with
  | [] => Ok s
  | e :: evs' => s' ← attach_event oid e s ; attach_events oid evs' s'
  end.

(** [Observable.attach_observer] *)
Definition attach_observer (o : EventObserver) (s : Observable)
    : result Observable :=
  attach_events (observer_id o) (events o) s.

Fixpoint detach_events (oid : nat) (evs : list string) (s : Observable)
    : result Observable :=
  match evs with
  | [] => Ok s
  | e :: evs' =>
      match observers s !! e with
      | Some os =>
          detach_events oid evs'
            (set_observers s (<[e := os ∖ {[oid]}]> (observers s)))
      | None => Err KeyError
      end
  end.

(** [Observable.detach_observer] *)
Definition detach_observer (o : EventObserver) (s : Observable)
    : result Observable :=
  detach_events (observer_id o) (events o) s.

(** The states an observable goes through: constructed by [__init__], then
    changed by calls of its methods that return. *)
Inductive reachable : Observable → Prop :=
| reach_init evs : reachable (init evs)
| reach_register e s : reachable s → reachable (register_event e s)
| reach_attach o s s' :
    reachable s → attach_observer o s = Ok s' → reachable s'
| reach_detach o s s' :
    reachable s → detach_observer o s = Ok s' → reachable s'.

(** Every key of the observer map is a registered event name. *)
Definition observers_registered (s : Observable) : Prop :=
  ∀ e, is_Some (observers s !! e) → e ∈ registered_events s.

(** The observers of an event name: the set [self.observers[event_name]],
    empty when the name is no key. *)
Definition subscribers (event_name : string) (s : Observable) : gset nat :=
  default ∅ (observers s !! event_name).

(** [Observable.notify_observers]: the observers whose [observe] is
    called. *)
Definition notify_observers (event_name : string) (s : Observable)
    : gset nat :=
  if notify_observers_on_event s then
    match observers s !! event_name with
    | Some os => os
    | None => ∅
    end
  else ∅.

End Observable.

(** *** perfsim/traffic/request.py *)

Module Request.
Import Py.

Inductive subchain_status :=
| CREATED
| CONCLUDED
| IN_TRANSMISSION
| INIT_MICROSERVICE.

Inductive request_status :=
| IN_PROGRESS
| COMPLETED
| MICROSERVICE.

#[global] Instance subchain_status_eq_dec : EqDecision subchain_status.
Proof. solve_decision. Defined.

#[global] Instance request_status_eq_dec : EqDecision request_status.
Proof. solve_decision. Defined.

(** A node of the alternative graph is a pair (copy id, endpoint function);
    a replica is named by a number.  The entries of the per-subchain arrays
    are pairs (identifier in the subchain, node or replica). *)
Definition node : Type := nat * nat.
Definition replica : Type := nat.

(** A successor node as [set_next_nodes_and_replicas] resolves it: its
    subchain ([scm.node_subchain_id_map]), the node and the replica chosen
    by [microservice.next_replica()]. *)
Record next_node := {
  nn_subchain : nat;
  nn_node : node;
  nn_replica : replica;
}.

Record Request := {
  id : string;
  arrival_time : Qc;
  completion_time : option Qc;
  latency : Qc;
  status : request_status;
  (** [len(self.scm.subchains)] *)
  subchains : nat;
  current_nodes : list (option (nat * node));
  current_replicas_in_nodes : list (option (nat * replica));
  next_nodes : list (option (nat * node));
  next_replicas_in_nodes : list (option (nat * replica));
  compute_times : list (list Qc);
  trans_times : list (option Qc);
  trans_deltatimes : list (list Qc);
  trans_src_replicas : list (option replica);
  trans_init_times : list Qc;
  active_subchain_ids : list nat;
  subchains_status : list subchain_status;
  completed_subchains_count : nat;
}.

(** The row [conclude] writes into [load_generator.latencies]. *)
Record latency_row := {
  row_latency : Z;
  row_arrival_time : Z;
  row_completion_time : Z;
  row_status : request_status;
}.

(** The part of the load generator a request writes to. *)
Record LoadGenerator := {
  completed_requests : nat;
  latencies : gmap string latency_row;
}.

(** [Request.__init__] for a service chain manager with [n] subchains. *)
Definition init (request_id : string) (arrival : Qc) (n : nat) : Request :=
  {| id := request_id;
     arrival_time := arrival;
     completion_time := None;
     latency := 0;
     status := IN_PROGRESS;
     subchains := n;
     current_nodes := replicate n None;
     current_replicas_in_nodes := replicate n None;
     next_nodes := replicate n None;
     next_replicas_in_nodes := replicate n None;
     compute_times := replicate n [];
     trans_times := replicate n None;
     trans_deltatimes := replicate n [];
     trans_src_replicas := replicate n None;
     trans_init_times := replicate n 0;
     active_subchain_ids := [0%nat];
     subchains_status := replicate n CREATED;
     completed_subchains_count := 0 |}.

(** [Request.conclude] *)
Definition conclude (time : Qc) (r : Request) (lg : LoadGenerator)
    : Request * LoadGenerator :=
  let lat := time - arrival_time r in
  ({| id := id r;
      arrival_time := arrival_time r;
      completion_time := Some time;
      latency := lat;
      status := COMPLETED;
      subchains := subchains r;
      current_nodes := current_nodes r;
      current_replicas_in_nodes := current_replicas_in_nodes r;
      next_nodes := next_nodes r;
      next_replicas_in_nodes := next_replicas_in_nodes r;
      compute_times := compute_times r;
      trans_times := trans_times r;
      trans_deltatimes := trans_deltatimes r;
      trans_src_replicas := trans_src_replicas r;
      trans_init_times := trans_init_times r;
      active_subchain_ids := active_subchain_ids r;
      subchains_status := subchains_status r;
      completed_subchains_count := completed_subchains_count r |},
   {| completed_requests := S (completed_requests lg);
      latencies :=
        <[id r := {| row_latency := round_half_even lat;
                     row_arrival_time := round_half_even (arrival_time r);
                     row_completion_time := round_half_even time;
                     row_status := COMPLETED |}]> (latencies lg) |}).

(** [Request.finalize_subchain]; [now] is [load_generator.sim.time]. *)
Definition finalize_subchain (now : Qc) (subchain_id : nat) (r : Request)
    (lg : LoadGenerator) : result (Request * LoadGenerator) :=
  st ← get (subchains_status r) subchain_id;
  '(statuses, count) ←
    (if decide (st = CONCLUDED) then
       Ok (subchains_status r, completed_subchains_count r)
     else
       statuses ← set (subchains_status r) subchain_id CONCLUDED;
       Ok (statuses, S (completed_subchains_count r)));
  cn ← set (current_nodes r) subchain_id None;
  crn ← set (current_replicas_in_nodes r) subchain_id None;
  nn ← set (next_nodes r) subchain_id None;
  nrn ← set (next_replicas_in_nodes r) subchain_id None;
  active ← remove (active_subchain_ids r) subchain_id;
  times ← get (compute_times r) subchain_id;
  t0 ← get (trans_init_times r) subchain_id;
  ct ← set (compute_times r) subchain_id (times ++ [now - t0]);
  let r' :=
    {| id := id r;
       arrival_time := arrival_time r;
       completion_time := completion_time r;
       latency := latency r;
       status := status r;
       subchains := subchains r;
       current_nodes := cn;
       current_replicas_in_nodes := crn;
       next_nodes := nn;
       next_replicas_in_nodes := nrn;
       compute_times := ct;
       trans_times := trans_times r;
       trans_deltatimes := trans_deltatimes r;
       trans_src_replicas := trans_src_replicas r;
       trans_init_times := trans_init_times r;
       active_subchain_ids := active;
       subchains_status := statuses;
       completed_subchains_count := count |} in
  if decide (count = subchains r') then Ok (conclude now r' lg)
  else Ok (r', lg).

(** [Request.set_next_nodes_and_replicas] *)
Fixpoint set_next_nodes_and_replicas (nexts : list next_node)
    (nn : list (option (nat * node)))
    (nrn : list (option (nat * replica)))
    : result (list (option (nat * node)) * list (option (nat * replica))) :=
  match nexts with
  | [] => Ok (nn, nrn)
  | x :: nexts' =>
      nrn' ← set nrn (nn_subchain x) (Some (fst (nn_node x), nn_replica x));
      nn' ← set nn (nn_subchain x) (Some (fst (nn_node x), nn_node x));
      set_next_nodes_and_replicas nexts' nn' nrn'
  end.

(** The loop of [Request.init_transmission] over the successors.  The
    reservation of the transmission in the egress NIC of the source host is
    left to the network model. *)
Fixpoint init_transmission_loop (now : Qc) (subchain_id : nat)
    (nexts : list next_node) (r : Request) : result Request :=
  match nexts with
  | [] => Ok r
  | x :: nexts' =>
      let ns := nn_subchain x in
      current_node_replica ← get (current_replicas_in_nodes r) subchain_id;
      next_node_replica ← get (next_replicas_in_nodes r) ns;
      match current_node_replica with
      | None => Err (Exception "WTF!?")
      | Some (_, current_replica) =>
          statuses ← set (subchains_status r) ns IN_TRANSMISSION;
          tit ← set (trans_init_times r) ns now;
          src ← set (trans_src_replicas r) ns (Some current_replica);
          crn ← set (current_replicas_in_nodes r) ns next_node_replica;
          nxt ← get (next_nodes r) ns;
          cn ← set (current_nodes r) ns nxt;
          init_transmission_loop now subchain_id nexts'
            {| id := id r;
               arrival_time := arrival_time r;
               completion_time := completion_time r;
               latency := latency r;
               status := status r;
               subchains := subchains r;
               current_nodes := cn;
               current_replicas_in_nodes := crn;
               next_nodes := next_nodes r;
               next_replicas_in_nodes := next_replicas_in_nodes r;
               compute_times := compute_times r;
               trans_times := trans_times r;
               trans_deltatimes := trans_deltatimes r;
               trans_src_replicas := src;
               trans_init_times := tit;
               active_subchain_ids := active_subchain_ids r ++ [ns];
               subchains_status := statuses;
               completed_subchains_count := completed_subchains_count r |}
      end
  end.

(** [Request.init_transmission] for a node of subchain [subchain_id] whose
    successors in the alternative graph are [nexts]. *)
Definition init_transmission (now : Qc) (subchain_id : nat)
    (nexts : list next_node) (r : Request) (lg : LoadGenerator)
    : result (Request * LoadGenerator) :=
  _ ← get (current_replicas_in_nodes r) subchain_id;
  '(nn, nrn) ← set_next_nodes_and_replicas nexts (next_nodes r)
                 (next_replicas_in_nodes r);
  times ← get (compute_times r) subchain_id;
  t0 ← get (trans_init_times r) subchain_id;
  ct ← set (compute_times r) subchain_id (times ++ [now - t0]);
  let r1 :=
    {| id := id r;
       arrival_time := arrival_time r;
       completion_time := completion_time r;
       latency := latency r;
       status := status r;
       subchains := subchains r;
       current_nodes := current_nodes r;
       current_replicas_in_nodes := current_replicas_in_nodes r;
       next_nodes := nn;
       next_replicas_in_nodes := nrn;
       compute_times := ct;
       trans_times := trans_times r;
       trans_deltatimes := trans_deltatimes r;
       trans_src_replicas := trans_src_replicas r;
       trans_init_times := trans_init_times r;
       active_subchain_ids := active_subchain_ids r;
       subchains_status := subchains_status r;
       completed_subchains_count := completed_subchains_count r |} in
  if decide (length nexts = 0)%nat then finalize_subchain now subchain_id r1 lg
  else
    r2 ← init_transmission_loop now subchain_id nexts r1;
    if decide (1 < length nexts)%nat then finalize_subchain now subchain_id r2 lg
    else Ok (r2, lg).

(** [Request.finish_transmission_by_subchain_id]; the node stored for a
    subchain belongs to that subchain. *)
Definition finish_transmission_by_subchain_id (now : Qc) (subchain_id : nat)
    (r : Request) : result Request :=
  nd ← get (current_nodes r) subchain_id;
  match nd with
  | None => Err KeyError
  | Some _ =>
      _ ← get (current_replicas_in_nodes r) subchain_id;
      tt ← set (trans_times r) subchain_id None;
      statuses ← set (subchains_status r) subchain_id INIT_MICROSERVICE;
      deltas ← get (trans_deltatimes r) subchain_id;
      t0 ← get (trans_init_times r) subchain_id;
      td ← set (trans_deltatimes r) subchain_id (deltas ++ [now - t0]);
      Ok {| id := id r;
            arrival_time := arrival_time r;
            completion_time := completion_time r;
            latency := latency r;
            status := status r;
            subchains := subchains r;
            current_nodes := current_nodes r;
            current_replicas_in_nodes := current_replicas_in_nodes r;
            next_nodes := next_nodes r;
            next_replicas_in_nodes := next_replicas_in_nodes r;
            compute_times := compute_times r;
            trans_times := tt;
            trans_deltatimes := td;
            trans_src_replicas := trans_src_replicas r;
            trans_init_times := trans_init_times r;
            active_subchain_ids := active_subchain_ids r;
            subchains_status := statuses;
            completed_subchains_count := completed_subchains_count r |}
  end.

(** [Request.init_next_microservices]; [root] is [scm.root]. *)
Definition init_next_microservices (now : Qc) (subchain_id : nat)
    (root : next_node) (r : Request) : result Request :=
  current_node ← get (current_nodes r) subchain_id;
  current_replica ← get (current_replicas_in_nodes r) subchain_id;
  '(nn, nrn) ←
    (match current_replica, current_node with
     | Some _, _ => Ok (next_nodes r, next_replicas_in_nodes r)
     | None, None =>
         set_next_nodes_and_replicas [root] (next_nodes r)
           (next_replicas_in_nodes r)
     | None, Some _ => Err TypeError
     end);
  tit ← set (trans_init_times r) subchain_id now;
  statuses ← set (subchains_status r) subchain_id IN_TRANSMISSION;
  Ok {| id := id r;
        arrival_time := arrival_time r;
        completion_time := completion_time r;
        latency := latency r;
        status := status r;
        subchains := subchains r;
        current_nodes := nn;
        current_replicas_in_nodes := nrn;
        next_nodes := nn;
        next_replicas_in_nodes := nrn;
        compute_times := compute_times r;
        trans_times := trans_times r;
        trans_deltatimes := trans_deltatimes r;
        trans_src_replicas := trans_src_replicas r;
        trans_init_times := tit;
        active_subchain_ids := active_subchain_ids r;
        subchains_status := statuses;
        completed_subchains_count := completed_subchains_count r |}.

(** The end of a transmission in [Cluster.transmit_requests_in_network]:
    under the test [req.subchains_status[subchain_id] == "IN TRANSMISSION"],
    [req.status = "MICROSERVICE"] and
    [req.finish_transmission_by_subchain_id(subchain_id)]. *)
Definition transmission_finished (now : Qc) (subchain_id : nat) (r : Request)
    : result Request :=
  st ← get (subchains_status r) subchain_id;
  if decide (st = IN_TRANSMISSION) then
    finish_transmission_by_subchain_id now subchain_id
      {| id := id r;
         arrival_time := arrival_time r;
         completion_time := completion_time r;
         latency := latency r;
         status := MICROSERVICE;
         subchains := subchains r;
         current_nodes := current_nodes r;
         current_replicas_in_nodes := current_replicas_in_nodes r;
         next_nodes := next_nodes r;
         next_replicas_in_nodes := next_replicas_in_nodes r;
         compute_times := compute_times r;
         trans_times := trans_times r;
         trans_deltatimes := trans_deltatimes r;
         trans_src_replicas := trans_src_replicas r;
         trans_init_times := trans_init_times r;
         active_subchain_ids := active_subchain_ids r;
         subchains_status := subchains_status r;
         completed_subchains_count := completed_subchains_count r |}
  else Ok r.

(** What the driver does to a request, with the clock at that moment:
    - [generate_threads]: [LoadGenerator._generate_threads], for a pair of
      the ready list;
    - [threads_done]: [CPU.kill_zombie_threads] when the last thread of the
      subchain dies, for the finished node and its successors;
    - [transmission_done]: the end of a transmission. *)
Inductive event :=
| generate_threads (now : Qc) (subchain_id : nat) (root : next_node)
| threads_done (now : Qc) (subchain_id : nat) (nexts : list next_node)
| transmission_done (now : Qc) (subchain_id : nat).

Definition event_time (ev : event) : Qc :=
  match ev with
  | generate_threads now _ _ => now
  | threads_done now _ _ => now
  | transmission_done now _ => now
  end.

Definition exec (ev : event) (r : Request) (lg : LoadGenerator)
    : result (Request * LoadGenerator) :=
  match ev with
  | generate_threads now s root =>
      r' ← init_next_microservices now s root r; Ok (r', lg)
  | threads_done now s nexts => init_transmission now s nexts r lg
  | transmission_done now s =>
      r' ← transmission_finished now s r; Ok (r', lg)
  end.

(** The subchains an event moves into a running state. *)
Definition started (ev : event) : list nat :=
  match ev with
  | generate_threads _ s _ => [s]
  | threads_done _ _ nexts => nn_subchain <$> nexts
  | transmission_done _ _ => []
  end.

(** The driver's use of a request: the clock does not precede the arrival
    of the request, and a concluded subchain is not started again (subchains
    are the paths of the alternative graph, each walked once). *)
Definition admissible (ev : event) (r : Request) : Prop :=
  arrival_time r ≤ event_time ev ∧
  ∀ s, s ∈ started ev → subchains_status r !! s ≠ Some CONCLUDED.

Inductive reachable (r0 : Request) (lg0 : LoadGenerator)
    : Request → LoadGenerator → Prop :=
| reach_init : reachable r0 lg0 r0 lg0
| reach_step ev r lg r' lg' :
    reachable r0 lg0 r lg →
    admissible ev r →
    exec ev r lg = Ok (r', lg') →
    reachable r0 lg0 r' lg'.

(** The number of concluded subchains. *)
Definition concluded_count (l : list subchain_status) : nat :=
  length (filter (λ s, s = CONCLUDED) l).


End Request.

(** *** perfsim/traffic/transmission.py and the transmission loop of
    perfsim/cluster.py *)

Module Transmission.
Import Py.

Record Transmission := {
  (** residual latency of the path, in nanoseconds *)
  total_latency : Qc;
  (** in bytes *)
  remaining_payload_size : Qc;
  (** [_current_bw], in bytes per second *)
  current_bw : ext;
  (** [self._source_nic.equipment is self._dest_nic.equipment] *)
  same_equipment : bool;
  transmission_time : option Qc;
  transmission_exact_time : option Qc;
}.

Definition ns_per_s : Qc := Z2Qc 1000000000.

(** [Transmission.calculate_transmission_time]; [now] is the clock of the
    simulation. *)
Definition calculate_transmission_time (now : Qc) (t : Transmission)
    : result (Transmission * Qc) :=
  time ←
    (if same_equipment t then Ok 0
     else match current_bw t with
          | Fin bw =>
              q ← div (remaining_payload_size t) bw;
              Ok (q * ns_per_s + total_latency t)
          | PInf => Ok (0 * ns_per_s + total_latency t)
          end);
  Ok ({| total_latency := total_latency t;
         remaining_payload_size := remaining_payload_size t;
         current_bw := current_bw t;
         same_equipment := same_equipment t;
         transmission_time := Some time;
         transmission_exact_time := Some (time + now) |}, time).

Definition set_total_latency (v : Qc) (t : Transmission) : Transmission :=
  {| total_latency := v;
     remaining_payload_size := remaining_payload_size t;
     current_bw := current_bw t;
     same_equipment := same_equipment t;
     transmission_time := transmission_time t;
     transmission_exact_time := transmission_exact_time t |}.

Definition set_remaining_payload_size (v : Qc) (t : Transmission)
    : Transmission :=
  {| total_latency := total_latency t;
     remaining_payload_size := v;
     current_bw := current_bw t;
     same_equipment := same_equipment t;
     transmission_time := transmission_time t;
     transmission_exact_time := transmission_exact_time t |}.

(** The second half of [Transmission.transmit]: the payload moved in
    [duration] nanoseconds, the snap to 0 and the check of the sign. *)
Definition transmit_payload (duration now : Qc) (t : Transmission)
    : result (Transmission * Qc) :=
  let payload :=
    match current_bw t with
    | Fin bw => remaining_payload_size t - bw * (duration / ns_per_s)
    | PInf => 0
    end in
  if bool_decide (-(1) < payload) && bool_decide (payload < 1) then
    calculate_transmission_time now (set_remaining_payload_size 0 t)
  else if bool_decide (payload < 0) then
    Err (Exception "remaining_payload_size is less than zero! Something is wrong! Probably a bug.")
  else
    calculate_transmission_time now (set_remaining_payload_size payload t).

(** [Transmission.transmit] *)
Definition transmit (duration now : Qc) (t : Transmission)
    : result (Transmission * Qc) :=
  if bool_decide (0 < total_latency t) then
    if bool_decide (total_latency t < duration) then
      transmit_payload (duration - total_latency t) now
        (set_total_latency 0 t)
    else
      calculate_transmission_time now
        (set_total_latency (total_latency t - duration) t)
  else transmit_payload duration now t.

Definition one_thousandth : Qc := Q2Qc (1 # 1000).

(** The body of the loop of [Cluster.transmit_requests_in_network] for a
    transmission whose subchain is in transmission: the transmission after
    the step, the duration handed to the next transmission of the loop, and
    whether this one has finished ([req.trans_times[subchain_id] <= 0]). *)
Definition transmit_active_transmission (duration now : Qc)
    (t : Transmission) : result (Transmission * Qc * bool) :=
  '(t', remaining_transmission_time) ← transmit duration now t;
  let duration' :=
    if bool_decide (- one_thousandth < remaining_transmission_time)
       && bool_decide (remaining_transmission_time < one_thousandth)
    then duration + remaining_transmission_time else duration in
  if bool_decide (remaining_transmission_time < 0) then
    Err (Exception "Remaining transmission time is less than zero! Something went really wrong here!")
  else
    Ok (t', duration', bool_decide (remaining_transmission_time ≤ 0)).

Fixpoint transmit_loop (duration now : Qc) (ts : list Transmission)
    : result (list (Transmission * bool)) :=
  match ts with
  | [] => Ok []
  | t :: ts' =>
      '(t', duration', finished) ← transmit_active_transmission duration now t;
      rest ← transmit_loop duration' now ts';
      Ok ((t', finished) :: rest)
  end.

(** [Cluster.transmit_requests_in_network] on the active transmissions whose
    subchains are in transmission. *)
Definition transmit_requests_in_network (duration : ext) (now : Qc)
    (ts : list Transmission) : result (list (Transmission * bool)) :=
  match duration with
  | PInf => Ok ((λ t, (t, false)) <$> ts)
  | Fin d => transmit_loop d now ts
  end.

(** The payload left after [duration] nanoseconds at the current
    bandwidth, before the snap. *)
Definition moved_payload (duration : Qc) (t : Transmission) : Qc :=
  match current_bw t with
  | Fin bw => remaining_payload_size t - bw * (duration / ns_per_s)
  | PInf => 0
  end.

(** The time [calculate_transmission_time] returns for [t], read on the
    transmission [t'] it leaves. *)
Definition time_of (t' : Transmission) (time : Qc) (t : Transmission) : Prop :=
  (same_equipment t = true → time = 0) ∧
  (same_equipment t = false → ∀ bw, current_bw t = Fin bw →
     time = remaining_payload_size t' / bw * ns_per_s + total_latency t').

End Transmission.

(** *** perfsim/traffic/load_generator.py and
    [Cluster.is_there_a_thread_that_ends_sooner] of perfsim/cluster.py *)

Module LoadGenerator.
Import Py.

(** The names of the events of the driver (strings in the source). *)
Inductive event :=
| REQUEST
| THREAD_GEN
| EXEC_TIME_EST
| RUN_THREADS
| DONE.

#[global] Instance event_eq_dec : EqDecision event.
Proof. solve_decision. Defined.

(** An active thread as the estimation reads it. *)
Record ActiveThread := {
  (** [thread.core.runqueue is not None and thread.on_rq] *)
  on_runqueue : bool;
  (** the value of [thread.get_exec_time_on_rq()] *)
  exec_time_on_rq : Qc;
}.

Record LoadGenerator := {
  (** [None] until the first event has run *)
  previous_event : option event;
  next_event : event;
  (** the keys of the sorted dictionary, in increasing order *)
  next_trans_completion_times : list ext;
  next_batch_arrival_time : ext;
  prediction_for_the_next_event_after_running_threads : option event;
  time_of_next_event : option ext;
  duration_of_next_event : option ext;
  (** [self.sim.time] *)
  sim_time : Qc;
}.

(** The loop of [Cluster.is_there_a_thread_that_ends_sooner] over the
    active threads; the state is (time of next event, duration of next
    event, flag). *)
Fixpoint ends_sooner_loop (now : Qc) (threads : list ActiveThread)
    (st : ext * ext * bool) : result (ext * ext * bool) :=
  match threads with
  | [] => Ok st
  | thread :: threads' =>
      let '(time_of_next_event, duration, flag) := st in
      if on_runqueue thread then
        if ext_ltb time_of_next_event (Fin now) then
          Err (Exception "What the hell!? Did we miss a request somewhere in the chain...!?")
        else
          let duration_to_finish := exec_time_on_rq thread in
          let time_to_finish := duration_to_finish + now in
          if ext_ltb (Fin time_to_finish) time_of_next_event then
            ends_sooner_loop now threads'
              (Fin time_to_finish, Fin duration_to_finish, false)
          else ends_sooner_loop now threads' st
      else ends_sooner_loop now threads' st
  end.

(** [Cluster.is_there_a_thread_that_ends_sooner] *)
Definition is_there_a_thread_that_ends_sooner (now : Qc)
    (threads : list ActiveThread) (time_of_next_event : ext)
    : result (ext * ext * bool) :=
  let flag := negb (bool_decide (length threads = 0%nat)) in
  '(time_of_next_event', duration, flag') ←
    ends_sooner_loop now threads
      (time_of_next_event, ext_sub time_of_next_event now, flag);
  Ok (time_of_next_event',
      (if (flag' : bool) then ext_sub time_of_next_event' now else duration),
      flag').

(** The first half of [LoadGenerator._exec_time_estimation]: the time of
    the next event, its predicted kind, and the answer of the cluster. *)
Definition estimate (lg : LoadGenerator) (threads : list ActiveThread)
    : result (event * (ext * ext * bool)) :=
  next_trans_completion_time ←
    (match next_trans_completion_times lg with
     | t :: _ => Ok t
     | [] => Err IndexError
     end);
  let '(time_of_next_event, prediction) :=
    if ext_eqb next_trans_completion_time PInf
       || ext_ltb (next_batch_arrival_time lg) next_trans_completion_time
    then (next_batch_arrival_time lg, REQUEST)
    else (next_trans_completion_time, THREAD_GEN) in
  answer ← is_there_a_thread_that_ends_sooner (sim_time lg) threads
             time_of_next_event;
  Ok (prediction, answer).

(** [LoadGenerator._exec_time_estimation] *)
Definition _exec_time_estimation (lg : LoadGenerator)
    (threads : list ActiveThread) : result LoadGenerator :=
  '(prediction, (time, duration, _)) ← estimate lg threads;
  next ←
    (if ext_eqb duration PInf then
       if decide (previous_event lg ≠ Some THREAD_GEN) then Ok THREAD_GEN
       else Err (Exception "Next event can't be inf! Probably a bug!")
     else Ok RUN_THREADS);
  Ok {| previous_event := Some EXEC_TIME_EST;
        next_event := next;
        next_trans_completion_times := next_trans_completion_times lg;
        next_batch_arrival_time := next_batch_arrival_time lg;
        prediction_for_the_next_event_after_running_threads :=
          Some prediction;
        time_of_next_event := Some time;
        duration_of_next_event := Some duration;
        sim_time := sim_time lg |}.

(** A driver with nothing left to come (no batch, no transmission), after
    the event [previous]. *)
Definition idle_after (previous : event) : LoadGenerator :=
  {| previous_event := Some previous;
     next_event := EXEC_TIME_EST;
     next_trans_completion_times := [PInf];
     next_batch_arrival_time := PInf;
     prediction_for_the_next_event_after_running_threads := None;
     time_of_next_event := None;
     duration_of_next_event := None;
     sim_time := Z2Qc 100 |}.

End LoadGenerator.

(** *** perfsim/service_chain/microservice.py, process.py,
    replica_thread.py, thread_set.py and perfsim/equipments/run_queue.py *)

Module Microservice.

(** The requests and limits of a microservice; [-1] stands for "not set". *)
Record Microservice := {
  cpu_requests : Qc;
  cpu_limits : Qc;
}.

Definition is_best_effort (ms : Microservice) : bool :=
  bool_decide (cpu_limits ms = cpu_requests ms)
  && bool_decide (cpu_requests ms = -(1)).

Definition is_guaranteed (ms : Microservice) : bool :=
  bool_decide (cpu_limits ms = cpu_requests ms)
  && bool_decide (cpu_requests ms ≠ -(1)).

Definition is_burstable (ms : Microservice) : bool :=
  bool_decide (cpu_limits ms ≠ cpu_requests ms)
  && bool_decide (cpu_requests ms ≠ -(1)).

Definition is_unlimited_burstable (ms : Microservice) : bool :=
  bool_decide (cpu_limits ms ≠ cpu_requests ms)
  && bool_decide (cpu_requests ms ≠ -(1))
  && bool_decide (cpu_limits ms = -(1)).

Definition is_limited_burstable (ms : Microservice) : bool :=
  bool_decide (cpu_limits ms ≠ cpu_requests ms)
  && bool_decide (cpu_limits ms ≠ -(1)).

End Microservice.

Module Process.
Import Py.

Record Process := {
  cpu_requests_share : Qc;
  cpu_limits : Qc;
  active_threads_count : nat;
  (** [ms_replica.microservice] *)
  microservice : Microservice.Microservice;
}.

(** [Process.get_cpu_request_per_thread]; [max_cpu_requests] is
    [ms_replica.host.cpu.max_cpu_requests].  The Python [None] is [None]. *)
Definition get_cpu_request_per_thread (max_cpu_requests : Qc) (p : Process)
    : result (option Qc) :=
  if decide (active_threads_count p = 0%nat) then Ok None
  else
    let count := Z2Qc (Z.of_nat (active_threads_count p)) in
    share_per_thread ←
      (if Microservice.is_unlimited_burstable (microservice p)
          || Microservice.is_guaranteed (microservice p)
       then div (cpu_requests_share p) count
       else if Microservice.is_limited_burstable (microservice p)
       then div (cpu_limits p) count
       else if Microservice.is_best_effort (microservice p)
       then div max_cpu_requests count
       else Err (Exception "Unknown microservice type!"));
    Ok (Some (min share_per_thread max_cpu_requests)).

End Process.

Module ReplicaThread.

(** A thread that sits on a run queue ([core] is that of the queue). *)
Record ReplicaThread := {
  process : Process.Process;
  on_rq : bool;
  cpu_requests_share : Qc;
  load : Qc;
  average_load : Qc;
}.

End ReplicaThread.

Module ThreadSet.

(** A [ThreadSet]: its threads in the order of iteration, and the cached
    sum.  Its [type_of_set] (0 best effort, 1 guaranteed, 2 burstable,
    3 burstable unlimited, 4 burstable limited) is its place in the run
    queue. *)
Record ThreadSet := {
  members : list nat;
  sum_cpu_requests : Qc;
}.

Definition add_to_sum (d : Qc) (s : ThreadSet) : ThreadSet :=
  {| members := members s; sum_cpu_requests := sum_cpu_requests s + d |}.

End ThreadSet.

Module RunQueue.
Import Py.

Record RunQueue := {
  (** the thread objects; a thread is named by its index here *)
  threads : list ReplicaThread.ReplicaThread;
  active_threads : list nat;
  best_effort_active_threads : ThreadSet.ThreadSet;
  guaranteed_active_threads : ThreadSet.ThreadSet;
  burstable_active_threads : ThreadSet.ThreadSet;
  burstable_unlimited_active_threads : ThreadSet.ThreadSet;
  burstable_limited_active_threads : ThreadSet.ThreadSet;
  (** for a thread, the [type_of_set] of the sets that hold it *)
  thread_set_dict : gmap nat (gset nat);
  remaining_millicores : Qc;
  (** [core.cpu.max_cpu_requests] *)
  max_cpu_requests : Qc;
  load : Qc;
}.

(** The thread set of a [type_of_set]. *)
Definition thread_set (k : nat) (rq : RunQueue) : ThreadSet.ThreadSet :=
  match k with
  | 0%nat => best_effort_active_threads rq
  | 1%nat => guaranteed_active_threads rq
  | 2%nat => burstable_active_threads rq
  | 3%nat => burstable_unlimited_active_threads rq
  | _ => burstable_limited_active_threads rq
  end.

Definition set_remaining_millicores (v : Qc) (rq : RunQueue) : RunQueue :=
  {| threads := threads rq;
     active_threads := active_threads rq;
     best_effort_active_threads := best_effort_active_threads rq;
     guaranteed_active_threads := guaranteed_active_threads rq;
     burstable_active_threads := burstable_active_threads rq;
     burstable_unlimited_active_threads :=
       burstable_unlimited_active_threads rq;
     burstable_limited_active_threads := burstable_limited_active_threads rq;
     thread_set_dict := thread_set_dict rq;
     remaining_millicores := v;
     max_cpu_requests := max_cpu_requests rq;
     load := load rq |}.

(** The loop [for thread_set in thread_set_dict[self.id]:
    thread_set.sum_cpu_requests -= difference], seen from the set of type
    [k]. *)
Definition update_sum (holders : gset nat) (difference : Qc) (k : nat)
    (s : ThreadSet.ThreadSet) : ThreadSet.ThreadSet :=
  if decide (k ∈ holders) then ThreadSet.add_to_sum (- difference) s else s.

(** The setter of [ReplicaThread.cpu_requests_share] for a thread of the
    run queue, with the setter of [ReplicaThread.load] it calls.  The
    CPU-wide sorted indices the load setter keeps up to date are not
    represented. *)
Definition set_cpu_requests_share (tid : nat) (v : Qc) (rq : RunQueue)
    : result RunQueue :=
  th ← get (threads rq) tid;
  if bool_decide (Z2Qc 1000 < v) then
    Err (Exception "CPU requests share cannot be greater than max_cpu_requests in a single thread placed in a core.")
  else
    let difference := ReplicaThread.cpu_requests_share th - v in
    millicores_to_share ← div (v * Z2Qc 1024) (max_cpu_requests rq);
    let new_load := ReplicaThread.average_load th * millicores_to_share in
    let th' :=
      {| ReplicaThread.process := ReplicaThread.process th;
         ReplicaThread.on_rq := ReplicaThread.on_rq th;
         ReplicaThread.cpu_requests_share := v;
         ReplicaThread.load := new_load;
         ReplicaThread.average_load := ReplicaThread.average_load th |} in
    holders ←
      (if decide (difference = 0) then Ok ∅
       else match thread_set_dict rq !! tid with
            | Some sets => Ok sets
            | None => Err KeyError
            end);
    let upd := update_sum holders difference in
    Ok {| threads := <[tid := th']> (threads rq);
          active_threads := active_threads rq;
          best_effort_active_threads :=
            upd 0%nat (best_effort_active_threads rq);
          guaranteed_active_threads :=
            upd 1%nat (guaranteed_active_threads rq);
          burstable_active_threads :=
            upd 2%nat (burstable_active_threads rq);
          burstable_unlimited_active_threads :=
            upd 3%nat (burstable_unlimited_active_threads rq);
          burstable_limited_active_threads :=
            upd 4%nat (burstable_limited_active_threads rq);
          thread_set_dict := thread_set_dict rq;
          remaining_millicores := remaining_millicores rq;
          max_cpu_requests := max_cpu_requests rq;
          load :=
            (if decide (ReplicaThread.load th = new_load) then load rq
             else load rq - ReplicaThread.load th + new_load) |}.

(** [RunQueue.assign_cpu_requests_share]; [cpu_requests] may be the Python
    [None]. *)
Definition assign_cpu_requests_share (tid : nat) (cpu_requests : option Qc)
    (rq : RunQueue) : result RunQueue :=
  match cpu_requests with
  | None => Err (Exception "CPU requests cannot be None")
  | Some c =>
      th ← get (threads rq) tid;
      if ReplicaThread.on_rq th then
        if bool_decide (c ≤ max_cpu_requests rq)
        then set_cpu_requests_share tid c rq
        else set_cpu_requests_share tid (max_cpu_requests rq) rq
      else Err (Exception "How come thread is not in the rq?!")
  end.

(** [thread.process.get_cpu_request_per_thread()] for a thread of the run
    queue. *)
Definition cpu_request_per_thread (tid : nat) (rq : RunQueue)
    : result (option Qc) :=
  th ← get (threads rq) tid;
  Process.get_cpu_request_per_thread (max_cpu_requests rq)
    (ReplicaThread.process th).

(** The loops of [recalculate_cpu_requests_shares] over the guaranteed and
    over the burstable threads. *)
Fixpoint assign_requests (tids : list nat) (rq : RunQueue)
    : result RunQueue :=
  match tids with
  | [] => Ok rq
  | tid :: tids' =>
      request ← cpu_request_per_thread tid rq;
      rq' ← assign_cpu_requests_share tid request rq;
      assign_requests tids' rq'
  end.

(** The loop over the burstable unlimited threads. *)
Fixpoint share_remaining (tids : list nat) (rq : RunQueue)
    : result RunQueue :=
  match tids with
  | [] => Ok rq
  | tid :: tids' =>
      request ← cpu_request_per_thread tid rq;
      match request with
      | None => Err TypeError
      | Some req =>
          cpu_req_ratio ←
            div req (ThreadSet.sum_cpu_requests (burstable_active_threads rq));
          let share := remaining_millicores rq * cpu_req_ratio in
          th ← get (threads rq) tid;
          rq' ← assign_cpu_requests_share tid
                  (Some (ReplicaThread.cpu_requests_share th + share)) rq;
          share_remaining tids' rq'
      end
  end.

(** The loop over the best effort threads. *)
Fixpoint assign_fair_share (fair_share : Qc) (tids : list nat)
    (rq : RunQueue) : result RunQueue :=
  match tids with
  | [] => Ok rq
  | tid :: tids' =>
      rq' ← assign_cpu_requests_share tid (Some fair_share) rq;
      assign_fair_share fair_share tids' rq'
  end.

(** [RunQueue.recalculate_cpu_requests_shares] *)
Definition recalculate_cpu_requests_shares (rq : RunQueue)
    : result RunQueue :=
  if decide (length (active_threads rq) = 0%nat) then Ok rq
  else
    let rq := set_remaining_millicores (max_cpu_requests rq) rq in
    rq ← assign_requests
           (ThreadSet.members (guaranteed_active_threads rq)) rq;
    rq ← assign_requests
           (ThreadSet.members (burstable_active_threads rq)) rq;
    let rq :=
      set_remaining_millicores
        (remaining_millicores rq
         - (ThreadSet.sum_cpu_requests (guaranteed_active_threads rq)
            + ThreadSet.sum_cpu_requests (burstable_active_threads rq)))
        rq in
    rq ← share_remaining
           (ThreadSet.members (burstable_unlimited_active_threads rq)) rq;
    let rq :=
      set_remaining_millicores
        (remaining_millicores rq
         - ThreadSet.sum_cpu_requests (burstable_unlimited_active_threads rq))
        rq in
    let best_effort := ThreadSet.members (best_effort_active_threads rq) in
    if bool_decide (0 < remaining_millicores rq)
       && negb (bool_decide (length best_effort = 0%nat))
    then
      let count := Z2Qc (Z.of_nat (length best_effort)) in
      _fair_share_be ← div (remaining_millicores rq) count;
      rq ← assign_fair_share _fair_share_be best_effort rq;
      Ok (set_remaining_millicores
            (remaining_millicores rq - _fair_share_be * count) rq)
    else Ok rq.

(** The share of a thread. *)
Definition share_of (rq : RunQueue) (tid : nat) : option Qc :=
  ReplicaThread.cpu_requests_share <$> threads rq !! tid.


(** What [recalculate_cpu_requests_shares] leaves as it is in a thread. *)
Definition static_of (th : ReplicaThread.ReplicaThread)
    : Process.Process * bool * Qc :=
  (ReplicaThread.process th, ReplicaThread.on_rq th,
   ReplicaThread.average_load th).

(** Two states of one run queue that differ only in shares, loads, cached
    sums and remaining millicores. *)
Record same_queue (s s' : RunQueue) : Prop := {
  same_max : max_cpu_requests s = max_cpu_requests s';
  same_dict : thread_set_dict s = thread_set_dict s';
  same_active : active_threads s = active_threads s';
  same_members :
    ∀ k, ThreadSet.members (thread_set k s)
         = ThreadSet.members (thread_set k s');
  same_threads : static_of <$> threads s = static_of <$> threads s';
}.

(** The sets as [categorize_thread_into_sets] and [ThreadSet.add] build
    them: [thread_set_dict] lists the sets that hold a thread, a set holds a
    thread once, and a burstable unlimited thread is a burstable thread. *)
Record well_formed (rq : RunQueue) : Prop := {
  wf_dict :
    ∀ tid k, (k < 5)%nat →
      tid ∈ ThreadSet.members (thread_set k rq)
      ↔ ∃ sets, thread_set_dict rq !! tid = Some sets ∧ k ∈ sets;
  wf_nodup : ∀ k, NoDup (ThreadSet.members (thread_set k rq));
  wf_unlimited :
    ThreadSet.members (burstable_unlimited_active_threads rq)
    ⊆ ThreadSet.members (burstable_active_threads rq);
}.

(** The sum of the shares of the threads of a list. *)
Definition sum_shares (rq : RunQueue) (tids : list nat) : Qc :=
  foldr (λ tid acc, default 0 (share_of rq tid) + acc) 0 tids.

(** By how much the cached sum of a set is off the sum of the shares of its
    threads. *)
Definition offset (k : nat) (rq : RunQueue) : Qc :=
  ThreadSet.sum_cpu_requests (thread_set k rq)
  - sum_shares rq (ThreadSet.members (thread_set k rq)).

(** The share [assign_cpu_requests_share] hands to the setter. *)
Definition clamp (max c : Qc) : Qc :=
  if bool_decide (c ≤ max) then c else max.

(** [t] comes from [s] by calls of the setter of the share for threads of
    [tids]. *)
Inductive shares_set (tids : list nat) : RunQueue → RunQueue → Prop :=
| shares_set_refl s : shares_set tids s s
| shares_set_remaining v s t :
    shares_set tids (set_remaining_millicores v s) t → shares_set tids s t
| shares_set_step tid v s s1 t :
    tid ∈ tids → set_cpu_requests_share tid v s = Ok s1 →
    shares_set tids s1 t → shares_set tids s t.



(** The threads of the sets read by the recalculation. *)
Definition requested (s : RunQueue) (tid : nat) : Prop :=
  ∃ k, (1 ≤ k ≤ 3)%nat ∧ tid ∈ ThreadSet.members (thread_set k s).


(** The request [recalculate_cpu_requests_shares] reads for a thread. *)
Definition request_of (rq : RunQueue) (tid : nat) : Qc :=
  match cpu_request_per_thread tid rq with
  | Ok (Some r) => r
  | _ => 0
  end.


(** The run queue with another set of type [k], and with another
    [thread_set_dict]. *)
Definition set_thread_set (k : nat) (s : ThreadSet.ThreadSet) (rq : RunQueue)
    : RunQueue :=
  {| threads := threads rq;
     active_threads := active_threads rq;
     best_effort_active_threads :=
       if decide (k = 0%nat) then s else best_effort_active_threads rq;
     guaranteed_active_threads :=
       if decide (k = 1%nat) then s else guaranteed_active_threads rq;
     burstable_active_threads :=
       if decide (k = 2%nat) then s else burstable_active_threads rq;
     burstable_unlimited_active_threads :=
       if decide (k = 3%nat) then s
       else burstable_unlimited_active_threads rq;
     burstable_limited_active_threads :=
       if decide (4 ≤ k)%nat then s else burstable_limited_active_threads rq;
     thread_set_dict := thread_set_dict rq;
     remaining_millicores := remaining_millicores rq;
     max_cpu_requests := max_cpu_requests rq;
     load := load rq |}.

Definition set_thread_set_dict (d : gmap nat (gset nat)) (rq : RunQueue)
    : RunQueue :=
  {| threads := threads rq;
     active_threads := active_threads rq;
     best_effort_active_threads := best_effort_active_threads rq;
     guaranteed_active_threads := guaranteed_active_threads rq;
     burstable_active_threads := burstable_active_threads rq;
     burstable_unlimited_active_threads :=
       burstable_unlimited_active_threads rq;
     burstable_limited_active_threads := burstable_limited_active_threads rq;
     thread_set_dict := d;
     remaining_millicores := remaining_millicores rq;
     max_cpu_requests := max_cpu_requests rq;
     load := load rq |}.

(** [set.add] and [set.remove] on the list of the elements of a set; a new
    element comes last. *)
Definition set_add (tid : nat) (l : list nat) : list nat :=
  if decide (tid ∈ l) then l else l ++ [tid].

Definition set_remove (tid : nat) (l : list nat) : result (list nat) :=
  match remove_first tid l with
  | Some l' => Ok l'
  | None => Err KeyError
  end.

(** [ThreadSet.add] of a thread to the set of type [k] of its run queue.
    The requests of a microservice are numbers, so
    [microservice.cpu_requests is not None] holds. *)
Definition thread_set_add (k tid : nat) (rq : RunQueue) : result RunQueue :=
  th ← get (threads rq) tid;
  let s := thread_set k rq in
  let s' :=
    {| ThreadSet.members := set_add tid (ThreadSet.members s);
       ThreadSet.sum_cpu_requests :=
         ThreadSet.sum_cpu_requests s + ReplicaThread.cpu_requests_share th |}
  in
  let sets : gset nat := default ∅ (thread_set_dict rq !! tid) in
  Ok (set_thread_set_dict (<[tid := {[k]} ∪ sets]> (thread_set_dict rq))
        (set_thread_set k s' rq)).



(** [RunQueue.categorize_thread_into_sets] *)
Definition categorize_thread_into_sets (tid : nat) (rq : RunQueue)
    : result RunQueue :=
  th ← get (threads rq) tid;
  let ms := Process.microservice (ReplicaThread.process th) in
  if Microservice.is_best_effort ms then thread_set_add 0 tid rq
  else if Microservice.is_guaranteed ms then thread_set_add 1 tid rq
  else if Microservice.is_burstable ms then
    rq ← thread_set_add 2 tid rq;
    if Microservice.is_unlimited_burstable ms then thread_set_add 3 tid rq
    else thread_set_add 4 tid rq
  else Err (Exception "Unknown thread type").


(** Every cached sum is the sum of the shares of the threads of its
    set. *)
Definition sums_exact (rq : RunQueue) : Prop :=
  ∀ k, (k < 5)%nat → offset k rq = 0.

(** The thread is in none of the sets of the run queue. *)
Definition uncategorized (tid : nat) (rq : RunQueue) : Prop :=
  ∀ k, (k < 5)%nat → tid ∉ ThreadSet.members (thread_set k rq).

End RunQueue.

Module RunQueueExamples.
Import Py RunQueue.

(** A thread of a process with one active thread, with its requests, limits
    ([-1] for "not set") and current share. *)
Definition thread_of (req lim share : Z) : ReplicaThread.ReplicaThread :=
  {| ReplicaThread.process :=
       {| Process.cpu_requests_share := Z2Qc req;
          Process.cpu_limits := Z2Qc lim;
          Process.active_threads_count := 1;
          Process.microservice :=
            {| Microservice.cpu_requests := Z2Qc req;
               Microservice.cpu_limits := Z2Qc lim |} |};
     ReplicaThread.on_rq := true;
     ReplicaThread.cpu_requests_share := Z2Qc share;
     ReplicaThread.load := Z2Qc share * Z2Qc 1024 / Z2Qc 1000;
     ReplicaThread.average_load := 1 |}.

(** A thread set with its cached sum. *)
Definition set_of (l : list nat) (s : Z) : ThreadSet.ThreadSet :=
  {| ThreadSet.members := l; ThreadSet.sum_cpu_requests := Z2Qc s |}.

(** A run queue of a core of 1000 millicores with a burstable unlimited
    thread (request 100) and a burstable limited thread (request 50, limit
    100), both with a share of 100. *)
Definition burstable_pair : RunQueue :=
  {| threads := [thread_of 100 (-1) 100; thread_of 50 100 100];
     active_threads := [0; 1]%nat;
     best_effort_active_threads := set_of [] 0;
     guaranteed_active_threads := set_of [] 0;
     burstable_active_threads := set_of [0; 1]%nat 200;
     burstable_unlimited_active_threads := set_of [0%nat] 100;
     burstable_limited_active_threads := set_of [1%nat] 100;
     thread_set_dict :=
       {[ 0%nat := {[2%nat; 3%nat]}; 1%nat := {[2%nat; 4%nat]} ]};
     remaining_millicores := Z2Qc 1000;
     max_cpu_requests := Z2Qc 1000;
     load := 0 |}.

(** The queue after [recalculate_cpu_requests_shares]. *)
Definition burstable_pair_shared : RunQueue :=
  match recalculate_cpu_requests_shares burstable_pair with
  | Ok rq => rq
  | Err _ => burstable_pair
  end.


End RunQueueExamples.
Module CPU.
Import Py.

(** What load balancing reads of a core: the load of its run queue, the
    active threads, and [lightest_threads_in_rq], a [SortedDict] from the
    load of a thread to a [SortedDict] from its vruntime to the set of the
    threads that have both.  A [SortedDict] is the list of its items in the
    order of the keys; a set is the list of its elements in the order of
    iteration. *)
Record Core := {
  load : Qc;
  active_threads : list nat;
  lightest_threads_in_rq : list (Qc * list (Qc * list nat));
}.

Record CPU := {
  cores : list Core;
  idle_core_pair_ids : gmap nat (gset nat);
  idle_core_ids : gset nat;
}.


(** [Core.pair_id] *)
Definition pair_id (core_id : nat) : nat := core_id / 2.

(** [CPU.get_core_pairs] *)
Definition get_core_pairs (cpu : CPU) : list (list nat) :=
  foldl (λ pairs core_id,
           if Nat.even core_id then pairs ++ [[core_id]]
           else alter (λ pair, pair ++ [core_id]) (pair_id core_id) pairs)
        [] (seq 0 (length (cores cpu))).

(** [next(iter(d))] for a dictionary or a set. *)
Definition first {A} (l : list A) : result A :=
  match l with
  | [] => Err StopIteration
  | a :: _ => Ok a
  end.


(** [CPU.get_the_other_core_in_pair]; the Python [None] is [None]. *)
Definition get_the_other_core_in_pair (core_id : nat)
    (return_same_if_not_exists : bool) (cpu : CPU) : result (option nat) :=
  if Nat.even core_id then
    pair ← get (get_core_pairs cpu) (core_id / 2);
    if decide (length pair = 1%nat)
    then Ok (if return_same_if_not_exists then Some core_id else None)
    else Ok (Some (core_id + 1)%nat)
  else Ok (Some (core_id - 1)%nat).


(** [CPU.get_busiest_core_in_pair_by_core_id], as the index of the core. *)
Definition get_busiest_core_in_pair_by_core_id (core_id : nat) (cpu : CPU)
    : result nat :=
  the_other ← get_the_other_core_in_pair core_id false cpu;
  match the_other with
  | None => _ ← get (cores cpu) core_id; Ok core_id
  | Some other_id =>
      core ← get (cores cpu) core_id;
      other ← get (cores cpu) other_id;
      if bool_decide (load other < load core) then Ok core_id
      else if bool_decide (load core < load other) then Ok other_id
      else if bool_decide
                (length (active_threads other) ≤ length (active_threads core))%nat
      then Ok core_id
      else Ok other_id
  end.

Section load_balance.

(** [RunQueue.dequeue_task_by_thread] and [RunQueue.enqueue_task] of the run
    queue of a core, for a thread: load balancing is followed up to these
    two calls. *)
Variable dequeue_task_by_thread : nat → nat → CPU → result CPU.
Variable enqueue_task : nat → nat → CPU → result CPU.




End load_balance.

End CPU.

Module CPUExamples.
Import Py CPU.

(** Two cores in one pair: core 0 runs the threads 0 and 1, each of load
    1024; core 1 is idle. *)
Definition one_busy_pair : CPU :=
  {| cores :=
       [ {| load := Z2Qc 2048; active_threads := [0; 1]%nat;
            lightest_threads_in_rq :=
              [(Z2Qc 1024, [(Z2Qc 0, [0; 1]%nat)])] |};
         {| load := 0; active_threads := [];
            lightest_threads_in_rq := [] |} ];
     idle_core_pair_ids := {[ 0%nat := {[ 1%nat ]} ]};
     idle_core_ids := {[ 1%nat ]} |}.



End CPUExamples.
(** *** perfsim/equipments/nic.py, perfsim/equipments/host.py *)

Module Nic.

Record Nic := {
  bandwidth : Qc;
  bandwidth_requests_total : Qc;
}.

(** [Nic.get_available] *)
Definition get_available (n : Nic) : Qc :=
  if bool_decide (bandwidth n < bandwidth_requests_total n) then bandwidth n
  else bandwidth n - bandwidth_requests_total n.

(** [Nic.request_bw] *)
Definition request_bw (bandwidth_request : Qc) (n : Nic) : Nic :=
  {| bandwidth := bandwidth n;
     bandwidth_requests_total := bandwidth_requests_total n + bandwidth_request |}.

(** [Nic.dismiss_bw] *)
Definition dismiss_bw (bandwidth_request : Qc) (n : Nic) : Py.result Nic :=
  let total := bandwidth_requests_total n - bandwidth_request in
  if bool_decide (total < 0) then
    Py.Err (Py.Exception "The NIC is trying to release more bandwidth requestes than overally requested from this NIC")
  else Py.Ok {| bandwidth := bandwidth n; bandwidth_requests_total := total |}.

End Nic.

Module Host.
Import Py.

(** A replica, with the requests of its microservice
    ([replica.microservice.cpu_requests] and so on). *)
Record MicroserviceReplica := {
  cpu_requests : Qc;
  cpu_limits : Qc;
  memory_requests : Qc;
  ingress_bw : Qc;
  egress_bw : Qc;
  blkio_capacity : Qc;
}.

(** A host: the cores of its CPU, its memory, block I/O and NICs, and the
    replicas placed on it. *)
Record Host := {
  name : string;
  cpu : list Resource.Resource;
  ram : Resource.Resource;
  blkio : Resource.Resource;
  nic_ingress : Nic.Nic;
  nic_egress : Nic.Nic;
  replicas : list nat;
}.

(** [CPU.get_available] and [CPU.capacity]: the sums over the cores. *)
Definition cpu_get_available (h : Host) : Qc :=
  foldl (λ available core, available + Resource.get_available core) 0 (cpu h).

Definition cpu_capacity (h : Host) : Qc :=
  foldl (λ capacity core, capacity + Resource.capacity core) 0 (cpu h).

(** [Host.is_replica_placeable_on_host_from_resource_perspective] *)
Definition is_replica_placeable_on_host_from_resource_perspective
    (h : Host) (replica : MicroserviceReplica) : bool :=
  let c_a :=
    bool_decide (cpu_requests replica ≤ cpu_get_available h)
    || (bool_decide (cpu_requests replica = cpu_limits replica)
        && bool_decide (cpu_limits replica = -(1))) in
  let r_a :=
    Resource.is_there_enough_resources_to_reserve (ram h)
      (memory_requests replica) in
  let b_a :=
    Resource.is_there_enough_resources_to_reserve (blkio h)
      (blkio_capacity replica) in
  c_a && r_a && b_a.

(** [round(amount / len(self.cores))] of [CPU.reserve] and [CPU.release]. *)
Definition cpu_requests_per_core (amount : Qc) (cores : list Resource.Resource)
    : result Qc :=
  share ← div amount (Z2Qc (Z.of_nat (length cores)));
  Ok (Z2Qc (round_half_even share)).

(** The loops [for core in self.cores: core.reserve(...)] and
    [for core in self.cores: core.release(...)]. *)
Fixpoint reserve_all (amount : Qc) (cores : list Resource.Resource)
    : result (list Resource.Resource) :=
  match cores with
  | [] => Ok []
  | core :: cores' =>
      core' ← Resource.reserve core amount;
      cores'' ← reserve_all amount cores';
      Ok (core' :: cores'')
  end.

Fixpoint release_all (amount : Qc) (cores : list Resource.Resource)
    : result (list Resource.Resource) :=
  match cores with
  | [] => Ok []
  | core :: cores' =>
      core' ← Resource.release core amount;
      cores'' ← release_all amount cores';
      Ok (core' :: cores'')
  end.

(** [CPU.reserve] and [CPU.release], on the cores of the CPU. *)
Definition cpu_reserve (amount : Qc) (cores : list Resource.Resource)
    : result (list Resource.Resource) :=
  per_core ← cpu_requests_per_core amount cores;
  reserve_all per_core cores.

Definition cpu_release (amount : Qc) (cores : list Resource.Resource)
    : result (list Resource.Resource) :=
  per_core ← cpu_requests_per_core amount cores;
  release_all per_core cores.

(** The host with other cores. *)
Definition set_cpu (cores : list Resource.Resource) (h : Host) : Host :=
  {| name := name h; cpu := cores; ram := ram h; blkio := blkio h;
     nic_ingress := nic_ingress h; nic_egress := nic_egress h;
     replicas := replicas h |}.

End Host.

(** *** perfsim/placement/least_fit.py *)

Module LeastFit.
Import Py Host.

Record LeastFitOptions := {
  w_cpu : Qc;
  w_mem : Qc;
  w_ingress : Qc;
  w_egress : Qc;
  w_blkio : Qc;
}.

(** [LeastFit.least_fit_score] *)
Definition least_fit_score (available capacity requested weight : Qc)
    : result Qc :=
  let requested :=
    if bool_decide (capacity < requested) then capacity else requested in
  per_unit ← div (Z2Qc 100) capacity;
  Ok ((Z2Qc 100 - (available - requested) * per_unit) * weight).

(** [LeastFit._calculate_host_score_for_placing_replica] *)
Definition _calculate_host_score_for_placing_replica
    (options : LeastFitOptions) (host : Host) (replica : MicroserviceReplica)
    : result Qc :=
  cpu_score ← least_fit_score (cpu_get_available host) (cpu_capacity host)
                 (cpu_requests replica) (w_cpu options);
  mem_score ← least_fit_score (Resource.get_available (ram host))
                 (Resource.capacity (ram host))
                 (memory_requests replica) (w_mem options);
  ingress_score ← least_fit_score (Nic.get_available (nic_ingress host))
                     (Nic.bandwidth (nic_ingress host))
                     (ingress_bw replica) (w_ingress options);
  egress_score ← least_fit_score (Nic.get_available (nic_egress host))
                    (Nic.bandwidth (nic_egress host))
                    (egress_bw replica) (w_egress options);
  blkio_score ← least_fit_score (Resource.get_available (blkio host))
                   (Resource.capacity (blkio host))
                   (blkio_capacity replica) (w_blkio options);
  div (0 + cpu_score + mem_score + ingress_score + egress_score + blkio_score)
      (0 + w_cpu options + w_mem options + w_ingress options
       + w_egress options + w_blkio options).

(** The body of the loop [for host in affinity_hosts] of
    [LeastFit.reschedule], on [(lowest_score, least_used_host)]. *)
Definition consider (options : LeastFitOptions) (r : MicroserviceReplica)
    (antiaffinity_hosts_names : gset string)
    (state : ext * option Host) (host : Host) : result (ext * option Host) :=
  let '(lowest_score, least_used_host) := state in
  if decide (name host ∈ antiaffinity_hosts_names) then Ok state
  else if is_replica_placeable_on_host_from_resource_perspective host r then
    _host_score ← _calculate_host_score_for_placing_replica options host r;
    if ext_ltb (Fin _host_score) lowest_score
    then Ok (Fin _host_score, Some host)
    else if ext_eqb (Fin _host_score) lowest_score then
      match least_used_host with
      | None => Err TypeError
      | Some least =>
          if bool_decide (length (replicas host) < length (replicas least))%nat
          then Ok (lowest_score, Some host)
          else Ok state
      end
    else Ok state
  else Ok state.

Fixpoint consider_all (options : LeastFitOptions) (r : MicroserviceReplica)
    (antiaffinity_hosts_names : gset string)
    (state : ext * option Host) (hosts : list Host)
    : result (ext * option Host) :=
  match hosts with
  | [] => Ok state
  | host :: hosts' =>
      state' ← consider options r antiaffinity_hosts_names state host;
      consider_all options r antiaffinity_hosts_names state' hosts'
  end.

(** The body of the loop [for r in replicas] of [LeastFit.reschedule], up
    to the choice of [r.host]: [affinity_hosts] in the order of iteration
    and [antiaffinity_hosts_names] are what the affinity rules of the
    microservice give. *)
Definition reschedule (options : LeastFitOptions) (r : MicroserviceReplica)
    (affinity_hosts : list Host) (antiaffinity_hosts_names : gset string)
    : result Host :=
  '(_, least_used_host) ←
    consider_all options r antiaffinity_hosts_names (PInf, None)
      affinity_hosts;
  match least_used_host with
  | None =>
      Err (ResourceNotAvailableError
             "Available hosts are not enough to place replica")
  | Some host => Ok host
  end.

(** The hosts [reschedule] scores for a replica. *)
Definition qualifies (r : MicroserviceReplica)
    (antiaffinity_hosts_names : gset string) (host : Host) : Prop :=
  (name host ∉ antiaffinity_hosts_names)
  ∧ is_replica_placeable_on_host_from_resource_perspective host r = true.

(** The weighted score of a resource, with the request cut at the
    capacity, and the one of a host. *)
Definition weighted (weight requested capacity available : Qc) : Qc :=
  weight * Z2Qc 100
  * (Py.min requested capacity / capacity - available / capacity).

Definition weighted_score (options : LeastFitOptions) (host : Host)
    (r : MicroserviceReplica) : Qc :=
  weighted (w_cpu options) (cpu_requests r) (cpu_capacity host)
    (cpu_get_available host)
  + weighted (w_mem options) (memory_requests r)
      (Resource.capacity (ram host)) (Resource.get_available (ram host))
  + weighted (w_ingress options) (ingress_bw r)
      (Nic.bandwidth (nic_ingress host))
      (Nic.get_available (nic_ingress host))
  + weighted (w_egress options) (egress_bw r)
      (Nic.bandwidth (nic_egress host))
      (Nic.get_available (nic_egress host))
  + weighted (w_blkio options) (blkio_capacity r)
      (Resource.capacity (blkio host)) (Resource.get_available (blkio host)).

(** The score as C7 words it, with the request as it is. *)
Definition stated (weight requested capacity available : Qc) : Qc :=
  weight * Z2Qc 100 * (requested / capacity - available / capacity).

Definition stated_score (options : LeastFitOptions) (host : Host)
    (r : MicroserviceReplica) : Qc :=
  stated (w_cpu options) (cpu_requests r) (cpu_capacity host)
    (cpu_get_available host)
  + stated (w_mem options) (memory_requests r)
      (Resource.capacity (ram host)) (Resource.get_available (ram host))
  + stated (w_ingress options) (ingress_bw r)
      (Nic.bandwidth (nic_ingress host))
      (Nic.get_available (nic_ingress host))
  + stated (w_egress options) (egress_bw r)
      (Nic.bandwidth (nic_egress host))
      (Nic.get_available (nic_egress host))
  + stated (w_blkio options) (blkio_capacity r)
      (Resource.capacity (blkio host)) (Resource.get_available (blkio host)).

(** The capacities a score divides by are not 0. *)
Definition scorable (host : Host) : Prop :=
  cpu_capacity host ≠ 0 ∧ Resource.capacity (ram host) ≠ 0
  ∧ Nic.bandwidth (nic_ingress host) ≠ 0
  ∧ Nic.bandwidth (nic_egress host) ≠ 0
  ∧ Resource.capacity (blkio host) ≠ 0.

(** The sum of the weights. *)
Definition sum_of_weights (options : LeastFitOptions) : Qc :=
  w_cpu options + w_mem options + w_ingress options + w_egress options
  + w_blkio options.

(** What [(lowest_score, least_used_host)] is after the hosts of [seen]:
    no host yet when none of them qualifies, and otherwise one of them that
    qualifies, with its score, at most the score of every other one of them
    that qualifies and, at equal scores, with no more replicas. *)
Definition best_of (options : LeastFitOptions) (r : MicroserviceReplica)
    (antiaffinity_hosts_names : gset string) (seen : list Host)
    (state : ext * option Host) : Prop :=
  match state.2 with
  | None =>
      state.1 = PInf
      ∧ ∀ host, host ∈ seen → ¬ qualifies r antiaffinity_hosts_names host
  | Some best =>
      ∃ s,
        state.1 = Fin s
        ∧ _calculate_host_score_for_placing_replica options best r = Ok s
        ∧ best ∈ seen ∧ qualifies r antiaffinity_hosts_names best
        ∧ ∀ host, host ∈ seen → qualifies r antiaffinity_hosts_names host →
            ∃ s',
              _calculate_host_score_for_placing_replica options host r
              = Ok s'
              ∧ s ≤ s'
              ∧ (s = s' →
                 (length (replicas best) ≤ length (replicas host))%nat)
  end.

End LeastFit.
Module LeastFitExamples.
Import Py Host LeastFit.

(** A host with one core of 1000 millicores, nothing reserved, and the
    given ingress bandwidth and replicas. *)
Definition host_of (name : string) (ingress : Z) (replicas : list nat)
    : Host :=
  {| name := name;
     cpu := [Resource.init "cpu" "core0" true "millicores" (Z2Qc 1000)];
     ram := Resource.init "ram" "ram" false "bytes" (Z2Qc 1000);
     blkio := Resource.init "blkio" "disk" false "bytes" (Z2Qc 1000);
     nic_ingress :=
       {| Nic.bandwidth := Z2Qc ingress;
          Nic.bandwidth_requests_total := 0 |};
     nic_egress :=
       {| Nic.bandwidth := Z2Qc 1000; Nic.bandwidth_requests_total := 0 |};
     replicas := replicas |}.

(** A host with an ingress bandwidth of 10 and no replica, and one with an
    ingress bandwidth of 20 and one replica. *)
Definition narrow_host : Host := host_of "a" 10 [].
Definition wide_host : Host := host_of "b" 20 [7%nat].

(** A replica that asks for an ingress bandwidth of 30. *)
Definition wide_replica : MicroserviceReplica :=
  {| cpu_requests := Z2Qc 100; cpu_limits := Z2Qc 100;
     memory_requests := Z2Qc 100; ingress_bw := Z2Qc 30;
     egress_bw := 0; blkio_capacity := 0 |}.

(** Only the ingress bandwidth counts. *)
Definition ingress_only : LeastFitOptions :=
  {| w_cpu := 0; w_mem := 0; w_ingress := 1; w_egress := 0; w_blkio := 0 |}.

End LeastFitExamples.

(** *** [Microservice.next_replica] of perfsim/service_chain/microservice.py
    and perfsim/service_chain/load_balancer.py *)

Module Calls.
Import Py.

(** [n] calls in a row of a method that returns a value and changes the
    state: the values returned, in the order of the calls, and the last
    state. *)
Fixpoint calls {S A : Type} (method : S → result (A * S)) (n : nat) (s : S)
    : result (list A * S) :=
  match n with
  | O => Ok ([], s)
  | S n' =>
      '(a, s1) ← method s;
      '(l, s2) ← calls method n' s1;
      Ok (a :: l, s2)
  end.

End Calls.

Module NextReplica.
Import Py.

(** The replicas of a microservice, by their identity, and the counter
    [current_replica_id]. *)
Record Microservice := {
  replicas : list nat;
  current_replica_id : Z;
}.

(** [Microservice.next_replica] *)
Definition next_replica (increase_replica_id : bool) (ms : Microservice)
    : result (nat * Microservice) :=
  if decide (length (replicas ms) = 0%nat) then Err ZeroDivisionError
  else
    let replica_id :=
      (current_replica_id ms `mod` Z.of_nat (length (replicas ms)))%Z in
    let ms' :=
      if increase_replica_id then
        {| replicas := replicas ms;
           current_replica_id := (current_replica_id ms + 1)%Z |}
      else ms in
    replica ← get (replicas ms) (Z.to_nat replica_id);
    Ok (replica, ms').

End NextReplica.

Module LoadBalancer.
Import Py.

Record LoadBalancer := {
  items : list nat;
  algorithm : string;
  current_item : nat;
}.

(** [LoadBalancer.__init__] *)
Definition init (items : list nat) (algorithm : string) : LoadBalancer :=
  {| items := items; algorithm := algorithm; current_item := 0 |}.

(** [LoadBalancer.next] *)
Definition next (lb : LoadBalancer) : result (nat * LoadBalancer) :=
  if decide (algorithm lb = "round_robin") then
    let current := current_item lb in
    let lb' :=
      {| items := items lb; algorithm := algorithm lb;
         current_item :=
           if decide (current_item lb + 1 < length (items lb))%nat
           then (current_item lb + 1)%nat else 0%nat |} in
    item ← get (items lb) current;
    Ok (item, lb')
  else
    Err (Exception "Only round-robin based load balancing is available at this moment.").

End LoadBalancer.

(** *** [Host.place_replica] and [Host.evict_replica] of
    perfsim/equipments/host.py *)

Module HostPlacement.
Import Py Host.

(** A host together with [cost_events["power_on_periods"]]. *)
Record HostState := {
  host : Host;
  power_on_periods : list (Qc * ext);
}.

(** [replica.microservice], as far as its kind goes. *)
Definition microservice_of (replica : MicroserviceReplica)
    : Microservice.Microservice :=
  {| Microservice.cpu_requests := cpu_requests replica;
     Microservice.cpu_limits := cpu_limits replica |}.

(** [Host.place_replica] at the time [time] of the simulation, for a replica
    with finite bandwidths; [cpu_requests_share] is
    [replica.process.cpu_requests_share], returned as the call leaves it,
    and [max_cpu_requests] is [self.cpu.max_cpu_requests]. *)
Definition place_replica (time max_cpu_requests : Qc) (replica_id : nat)
    (replica : MicroserviceReplica) (cpu_requests_share : Qc)
    (s : HostState) : result (HostState * Qc) :=
  let h := host s in
  let ms := microservice_of replica in
  '(cores, share) ←
    (if Microservice.is_guaranteed ms || Microservice.is_unlimited_burstable ms
     then
       cores ← cpu_reserve (cpu_requests replica) (cpu h);
       Ok (cores, cpu_requests_share)
     else if Microservice.is_limited_burstable ms then
       cores ← cpu_reserve (cpu_limits replica) (cpu h);
       Ok (cores, cpu_requests_share)
     else if Microservice.is_burstable ms then
       cores ← cpu_reserve (cpu_limits replica) (cpu h);
       Ok (cores, cpu_requests_share)
     else
       Ok (cpu h, Z2Qc (Z.of_nat (length (cpu h))) * max_cpu_requests));
  ram' ← Resource.reserve (ram h) (memory_requests replica);
  blkio' ← Resource.reserve (blkio h) (blkio_capacity replica);
  let replicas' := RunQueue.set_add replica_id (replicas h) in
  Ok ({| host :=
           {| name := name h; cpu := cores; ram := ram'; blkio := blkio';
              nic_ingress := Nic.request_bw (ingress_bw replica) (nic_ingress h);
              nic_egress := Nic.request_bw (egress_bw replica) (nic_egress h);
              replicas := replicas' |};
         power_on_periods :=
           if decide (length replicas' = 1%nat)
           then power_on_periods s ++ [(time, PInf)]
           else power_on_periods s |},
      share).

(** [Host.evict_replica] *)
Definition evict_replica (replica_id : nat) (replica : MicroserviceReplica)
    (s : HostState) : result HostState :=
  let h := host s in
  replicas' ← RunQueue.set_remove replica_id (replicas h);
  cores ←
    (if bool_decide (cpu_requests replica ≠ -(1))
        && bool_decide (cpu_limits replica ≠ -(1))
     then cpu_release (cpu_requests replica) (cpu h)
     else Ok (cpu h));
  ram' ← Resource.release (ram h) (memory_requests replica);
  blkio' ← Resource.release (blkio h) (blkio_capacity replica);
  egress ← Nic.dismiss_bw (egress_bw replica) (nic_egress h);
  ingress ← Nic.dismiss_bw (ingress_bw replica) (nic_ingress h);
  _ ← (if decide (length replicas' = 0%nat) then
         match last (power_on_periods s) with
         | None => Err IndexError
         | Some last_power_on_period =>
             if ext_eqb (last_power_on_period.2) PInf then Ok tt
             else Err (Exception "Last power on period is not infinite! Probably something went wrong (i.e., a bug).")
         end
       else Ok tt);
  Ok {| host :=
          {| name := name h; cpu := cores; ram := ram'; blkio := blkio';
             nic_ingress := ingress; nic_egress := egress;
             replicas := replicas' |};
        power_on_periods := power_on_periods s |}.

(** The cores as [place_replica] leaves them. *)
Definition placed_cores (replica : MicroserviceReplica) (h : Host)
    : result (list Resource.Resource) :=
  let ms := microservice_of replica in
  if Microservice.is_guaranteed ms || Microservice.is_unlimited_burstable ms
  then cpu_reserve (cpu_requests replica) (cpu h)
  else if Microservice.is_limited_burstable ms
  then cpu_reserve (cpu_limits replica) (cpu h)
  else if Microservice.is_burstable ms
  then cpu_reserve (cpu_limits replica) (cpu h)
  else Ok (cpu h).

(** Nothing reserved or requested on the host is negative. *)
Definition nothing_negative (h : Host) : Prop :=
  Forall (λ c, 0 ≤ Resource.reserved c) (cpu h) ∧
  0 ≤ Resource.reserved (ram h) ∧ 0 ≤ Resource.reserved (blkio h) ∧
  0 ≤ Nic.bandwidth_requests_total (nic_ingress h) ∧
  0 ≤ Nic.bandwidth_requests_total (nic_egress h).

End HostPlacement.

(** *** Sample objects *)

#[global] Instance exn_eq_dec : EqDecision Py.exn.
Proof. solve_decision. Defined.

#[global] Instance result_eq_dec `{EqDecision A} : EqDecision (Py.result A).
Proof. solve_decision. Defined.

#[global] Instance ext_eq_dec : EqDecision Py.ext.
Proof. solve_decision. Defined.

#[global] Instance Resource_eq_dec : EqDecision Resource.Resource.
Proof. solve_decision. Defined.

#[global] Instance Nic_eq_dec : EqDecision Nic.Nic.
Proof. solve_decision. Defined.

Module ResourceExamples.
Import Py Resource.

(** A core of 1000 shares, free and with 250 shares taken. *)
Definition core_free : Resource :=
  init "core" "core_0" true "shares" (Z2Qc 1000).

Definition core_taken : Resource :=
  {| type := "core"; name := "core_0"; throttleable := true;
     unit_of_measure := "shares"; capacity := Z2Qc 1000;
     reserved := Z2Qc 250 |}.

End ResourceExamples.

Module HostExamples.
Import Py Host.

(** A NIC of 1000 bytes per second of which 250 are requested. *)
Definition nic_quarter : Nic.Nic :=
  {| Nic.bandwidth := Z2Qc 1000; Nic.bandwidth_requests_total := Z2Qc 250 |}.

(** Two free cores, and the same cores with 250 shares taken on each. *)
Definition cores_free : list Resource.Resource :=
  [ResourceExamples.core_free; ResourceExamples.core_free].

Definition cores_taken : list Resource.Resource :=
  [ResourceExamples.core_taken; ResourceExamples.core_taken].

(** A host with these two cores, and one whose CPU has no core. *)
Definition two_cores : Host := set_cpu cores_free LeastFitExamples.narrow_host.

Definition no_core : Host := set_cpu [] LeastFitExamples.narrow_host.

End HostExamples.

Module ObservableExamples.
Import Py Observable.

(** An observable with two registered events and no observer, an observer
    of one of these events, and the observable once the observer is
    attached. *)
Definition traffic : Observable :=
  init ["before_traffic_start"; "before_requests_start"].

Definition logger : EventObserver :=
  {| observer_id := 7; events := ["before_traffic_start"] |}.

Definition traffic_logged : Observable :=
  set_observers traffic {[ "before_traffic_start" := {[ 7%nat ]} ]}.

End ObservableExamples.

Module ProcessExamples.
Import Py Process.

(** The process of a replica of a guaranteed microservice (requests and
    limits of 500 millicores) with two active threads. *)
Definition guaranteed_two_threads : Process :=
  {| cpu_requests_share := Z2Qc 500; cpu_limits := Z2Qc 500;
     active_threads_count := 2;
     microservice :=
       {| Microservice.cpu_requests := Z2Qc 500;
          Microservice.cpu_limits := Z2Qc 500 |} |}.

End ProcessExamples.

Module ThreadSetExamples.
Import Py RunQueue RunQueueExamples.

(** The two threads of [burstable_pair] on a run queue whose sets are still
    empty, and that queue once the first thread is categorized. *)
Definition uncategorized_pair : RunQueue :=
  {| threads := threads burstable_pair;
     active_threads := [];
     best_effort_active_threads := set_of [] 0;
     guaranteed_active_threads := set_of [] 0;
     burstable_active_threads := set_of [] 0;
     burstable_unlimited_active_threads := set_of [] 0;
     burstable_limited_active_threads := set_of [] 0;
     thread_set_dict := ∅;
     remaining_millicores := Z2Qc 1000;
     max_cpu_requests := Z2Qc 1000;
     load := 0 |}.

Definition first_categorized : RunQueue :=
  match categorize_thread_into_sets 0 uncategorized_pair with
  | Ok rq => rq
  | Err _ => uncategorized_pair
  end.

End ThreadSetExamples.

Module RunQueueMoreExamples.
Import Py RunQueue RunQueueExamples.


(** A run queue of a core of 1000 millicores with a guaranteed thread
    (request and limit 400) and two best effort threads. *)
Definition guaranteed_and_best_effort : RunQueue :=
  {| threads :=
       [thread_of 400 400 400; thread_of (-1) (-1) 0; thread_of (-1) (-1) 0];
     active_threads := [0; 1; 2]%nat;
     best_effort_active_threads := set_of [1; 2]%nat 0;
     guaranteed_active_threads := set_of [0%nat] 400;
     burstable_active_threads := set_of [] 0;
     burstable_unlimited_active_threads := set_of [] 0;
     burstable_limited_active_threads := set_of [] 0;
     thread_set_dict :=
       {[ 0%nat := {[1%nat]}; 1%nat := {[0%nat]}; 2%nat := {[0%nat]} ]};
     remaining_millicores := Z2Qc 1000;
     max_cpu_requests := Z2Qc 1000;
     load := 0 |}.

(** The queue after [recalculate_cpu_requests_shares]. *)
Definition guaranteed_and_best_effort_shared : RunQueue :=
  match recalculate_cpu_requests_shares guaranteed_and_best_effort with
  | Ok rq => rq
  | Err _ => guaranteed_and_best_effort
  end.

End RunQueueMoreExamples.

Module ClusterExamples.
Import Py LoadGenerator.

(** Two threads on their run queues that need 5 and 3 more nanoseconds. *)
Definition two_running : list ActiveThread :=
  [ {| on_runqueue := true; exec_time_on_rq := Z2Qc 5 |};
    {| on_runqueue := true; exec_time_on_rq := Z2Qc 3 |} ].

End ClusterExamples.

Module TransmissionExamples.
Import Py Transmission.

(** A transmission between two hosts with 10 ns of latency left and 100
    bytes to send at 1000 bytes per second, and what a step of 20 ns at
    time 0 makes of it. *)
Definition sending : Transmission :=
  {| total_latency := Z2Qc 10; remaining_payload_size := Z2Qc 100;
     current_bw := Fin (Z2Qc 1000); same_equipment := false;
     transmission_time := None; transmission_exact_time := None |}.

Definition sending_step : Transmission * Qc :=
  match transmit (Z2Qc 20) 0 sending with
  | Ok r => r
  | Err _ => (sending, 0)
  end.

End TransmissionExamples.

Module ReplicaExamples.
Import Py.

(** A microservice with the replicas 10, 11 and 12 of which four have been
    handed out, and a load balancer over the same three items that has
    handed out one. *)
Definition three_replicas : NextReplica.Microservice :=
  {| NextReplica.replicas := [10; 11; 12]%nat;
     NextReplica.current_replica_id := 4 |}.

Definition three_items : LoadBalancer.LoadBalancer :=
  {| LoadBalancer.items := [10; 11; 12]%nat;
     LoadBalancer.algorithm := "round_robin";
     LoadBalancer.current_item := 1 |}.

End ReplicaExamples.

Module HostPlacementExamples.
Import Py Host HostPlacement.

(** An empty host with one core that was never switched on, a guaranteed
    replica (requests and limits of 100 millicores) and a burstable replica
    without limit (requests of 100 millicores), and the host once each of
    them is placed at time 5. *)
Definition empty_host : HostState :=
  {| host := LeastFitExamples.narrow_host; power_on_periods := [] |}.


Definition unlimited_replica : MicroserviceReplica :=
  {| cpu_requests := Z2Qc 100; cpu_limits := -(1);
     memory_requests := Z2Qc 100; ingress_bw := Z2Qc 30;
     egress_bw := 0; blkio_capacity := 0 |}.

Definition placed (replica : MicroserviceReplica) : HostState * Qc :=
  match place_replica (Z2Qc 5) (Z2Qc 1000) 7 replica 0 empty_host with
  | Ok r => r
  | Err _ => (empty_host, 0)
  end.

End HostPlacementExamples.
(** ** Part II: properties *)

(** ** Reasoning about calls that may raise *)

Section result_facts.
Import Py.

Lemma bind_ok {A B} (m : result A) (k : A → result B) (b : B) :
  m ≫= k = Ok b ↔ ∃ a, m = Ok a ∧ k a = Ok b.
Proof.
  unfold mbind, result_bind, bind. destruct m as [a|e].
  - split; [eauto|]. by intros (a' & [= <-] & ?).
  - split; [done|]. by intros (? & ? & ?).
Qed.

Lemma get_ok {A} (l : list A) i a : get l i = Ok a ↔ l !! i = Some a.
Proof.
  unfold get. destruct (l !! i); split; intros H; by inversion H.
Qed.


End result_facts.


(** ** Rational arithmetic: from [Qc] to [Q] *)

Section qc_facts.

Lemma Qc_this_plus (x y : Qc) : (this (x + y) == this x + this y)%Q.
Proof. unfold Qcplus. cbn. apply Qred_correct. Qed.

Lemma Qc_this_minus (x y : Qc) : (this (x - y) == this x - this y)%Q.
Proof.
  unfold Qcminus, Qcplus, Qcopp. cbn. rewrite !Qred_correct. reflexivity.
Qed.

Lemma Qc_this_mult (x y : Qc) : (this (x * y) == this x * this y)%Q.
Proof. unfold Qcmult. cbn. apply Qred_correct. Qed.

Lemma Qc_this_opp (x : Qc) : (this (- x) == - this x)%Q.
Proof. unfold Qcopp. cbn. apply Qred_correct. Qed.

Lemma Qc_this_inv (x : Qc) : (this (/ x) == / this x)%Q.
Proof. unfold Qcinv. cbn. apply Qred_correct. Qed.

Lemma Qc_this_div (x y : Qc) : (this (x / y) == this x / this y)%Q.
Proof. unfold Qcdiv. rewrite Qc_this_mult, Qc_this_inv. reflexivity. Qed.

Lemma Qc_eq_this (x y : Qc) : x = y ↔ (this x == this y)%Q.
Proof. split; [by intros ->|apply Qc_is_canon]. Qed.

End qc_facts.

(** Turns the goal and the hypotheses on [Qc] into statements on [Q] over
    the atoms [this x], ready for [lra] and [nra]. *)
Ltac qc_to_q :=
  unfold Qcle, Qclt in *;
  repeat match goal with
  | H : @eq Qc _ _ |- _ => apply Qc_eq_this in H
  | |- @eq Qc _ _ => apply Qc_eq_this
  | |- ¬ (@eq Qc _ _) => rewrite Qc_eq_this
  | H : ¬ (@eq Qc _ _) |- _ => rewrite Qc_eq_this in H
  end;
  repeat (rewrite ?Qc_this_plus, ?Qc_this_minus, ?Qc_this_mult, ?Qc_this_opp,
            ?Qc_this_div, ?Qc_this_inv in * );
  unfold Py.Z2Qc in *; cbn [this Q2Qc] in *;
  rewrite ?Qred_correct in *;
  unfold inject_Z in *.

Ltac qc_lra := qc_to_q; lra.
Section resource_facts.
Import Py Resource.

(** C10: [Resource.get_utilization] returns capacity divided by reserved;
    when the reserved amount is 0 -- as for every freshly constructed
    resource -- the call fails with a division by zero. *)
Theorem get_utilization_inverse_ratio (r : Resource) :
  (reserved r ≠ 0 → get_utilization r = Ok (capacity r / reserved r)) ∧
  (reserved r = 0 → get_utilization r = Err ZeroDivisionError) ∧
  (∀ ty nm th um cap,
     get_utilization (init ty nm th um cap) = Err ZeroDivisionError).
Proof.
  unfold get_utilization, div. split; [|split; [|reflexivity]].
  - intros Hne. destruct (decide (reserved r = 0)); [contradiction | reflexivity].
  - intros Hz. destruct (decide (reserved r = 0)); [reflexivity | contradiction].
Qed.

Lemma get_utilization_inverse_ratio_witness :
  get_utilization (init "core" "core_0" true "shares" (Z2Qc 1000))
    = Err ZeroDivisionError ∧
  is_ok (get_utilization
    {| type := "core"; name := "core_0"; throttleable := true;
       unit_of_measure := "shares"; capacity := Z2Qc 1000;
       reserved := Z2Qc 250 |}) = true.
Proof.
  split.
  - apply (proj1 (proj2 (get_utilization_inverse_ratio
             (init "core" "core_0" true "shares" (Z2Qc 1000))))).
    reflexivity.
  - pose proof (get_utilization_inverse_ratio
      {| type := "core"; name := "core_0"; throttleable := true;
         unit_of_measure := "shares"; capacity := Z2Qc 1000;
         reserved := Z2Qc 250 |}) as [H _].
    cbn [reserved capacity] in H. rewrite H; [reflexivity|].
    apply (bool_decide_unpack _). vm_compute. exact I.
Defined.

End resource_facts.

Section observable_facts.
Import Py Observable.

Lemma attach_event_cases oid e s :
  (observers s !! e = None ∧ (e ∉ registered_events s) ∧
   raises (attach_event oid e s)) ∨
  ((is_Some (observers s !! e) ∨ e ∈ registered_events s) ∧
   ∃ os, attach_event oid e s
         = Ok (set_observers s (<[e := os]> (observers s)))).
Proof.
  unfold attach_event.
  destruct (observers s !! e) as [os|] eqn:Hlook; cbn.
  - right. split; [left; eauto|]. rewrite Hlook. eauto.
  - destruct (decide (e ∈ registered_events s)) as [Hreg|Hreg]; cbn.
    + right. split; [by right|]. rewrite lookup_insert_eq.
      exists ({[oid]} ∪ ∅). unfold set_observers; cbn.
      by rewrite insert_insert_eq.
    + left. repeat split; [done|]. by eexists.
Qed.

Lemma set_observers_insert_registered s e os :
  (is_Some (observers s !! e) ∨ e ∈ registered_events s) →
  observers_registered s →
  observers_registered (set_observers s (<[e := os]> (observers s))).
Proof.
  intros He Hinv e'. unfold set_observers; cbn.
  destruct (decide (e = e')) as [<-|Hne].
  - intros _. destruct He as [He|He]; [by apply Hinv|done].
  - rewrite lookup_insert_ne by done. apply Hinv.
Qed.

Lemma attach_events_ok_iff oid evs : ∀ s,
  observers_registered s →
  is_ok (attach_events oid evs s) = true
  ↔ Forall (λ e, e ∈ registered_events s) evs.
Proof.
  induction evs as [|e evs IH]; intros s Hinv; cbn.
  - split; [constructor|done].
  - destruct (attach_event_cases oid e s)
      as [(Hnone & Hreg & [x Hx])|(Hsome & os & Hos)].
    + rewrite Hx; cbn. split; [done|]. intros Hall.
      by apply Forall_cons in Hall as [? _].
    + rewrite Hos; cbn.
      rewrite IH by (by apply set_observers_insert_registered).
      cbn. rewrite Forall_cons. split; [|tauto].
      intros Hall. split; [|done].
      destruct Hsome as [Hsome|Hsome]; [by apply Hinv|done].
Qed.

Lemma attach_events_unregistered_raises oid e evs : ∀ s,
  e ∈ evs → e ∉ registered_events s → observers s !! e = None →
  raises (attach_events oid evs s).
Proof.
  induction evs as [|e0 evs IH]; intros s Hin Hreg Hnone.
  - by apply elem_of_nil in Hin.
  - cbn. destruct (attach_event_cases oid e0 s)
      as [(_ & _ & [x Hx])|(Hsome & os & Hos)].
    + rewrite Hx. by eexists.
    + rewrite Hos; cbn. destruct (decide (e0 = e)) as [->|Hne].
      * exfalso. destruct Hsome as [[? Hs]|Hs]; [congruence|done].
      * apply IH; cbn; [|done|by rewrite lookup_insert_ne].
        apply elem_of_cons in Hin as [->|Hin]; done.
Qed.

Lemma detach_events_registered oid evs : ∀ s s',
  observers_registered s → detach_events oid evs s = Ok s' →
  observers_registered s' ∧ registered_events s' = registered_events s.
Proof.
  induction evs as [|e evs IH]; intros s s' Hinv Hd; cbn in Hd.
  - by inversion Hd; subst.
  - destruct (observers s !! e) as [os|] eqn:Hlook; [|done].
    apply IH in Hd as [Hinv' Hreg'].
    + split; [done|]. by rewrite Hreg'.
    + apply set_observers_insert_registered; [left; eauto|done].
Qed.

Lemma attach_events_registered oid evs : ∀ s s',
  observers_registered s → attach_events oid evs s = Ok s' →
  observers_registered s' ∧ registered_events s' = registered_events s.
Proof.
  induction evs as [|e evs IH]; intros s s' Hinv Ha; cbn in Ha.
  - by inversion Ha; subst.
  - destruct (attach_event_cases oid e s)
      as [(_ & _ & [x Hx])|(Hsome & os & Hos)].
    + by rewrite Hx in Ha.
    + rewrite Hos in Ha; cbn in Ha. apply IH in Ha as [Hinv' Hreg'].
      * split; [done|]. by rewrite Hreg'.
      * by apply set_observers_insert_registered.
Qed.

Lemma init_observers evs s0 :
  observers (foldl (λ s e, register_event e s) s0 evs) = observers s0.
Proof.
  revert s0. induction evs as [|e evs IH]; intros s0; cbn; [done|].
  by rewrite IH.
Qed.

Lemma reachable_observers_registered s :
  reachable s → observers_registered s.
Proof.
  induction 1 as [evs|e s _ IH|o s s' _ IH Ha|o s s' _ IH Hd].
  - intros e. unfold init. rewrite init_observers; cbn.
    rewrite lookup_empty. by intros [? ?].
  - intros e'. cbn. intros Hs%IH. set_solver.
  - by apply attach_events_registered in Ha as [? _].
  - by apply detach_events_registered in Hd as [? _].
Qed.

(** C9: on an observable built by [__init__] and changed only through its
    methods, [attach_observer] returns exactly when every event name of the
    observer has been registered by [register_event]; and on any observable,
    an event name that is neither registered nor a key of the observer map
    makes [attach_observer] raise. *)
Theorem attach_observer_requires_registration (s : Observable)
    (o : EventObserver) :
  (reachable s →
   (is_ok (attach_observer o s) = true
    ↔ Forall (λ e, e ∈ registered_events s) (events o))) ∧
  (∀ e, e ∈ events o → e ∉ registered_events s →
        observers s !! e = None → raises (attach_observer o s)).
Proof.
  split.
  - intros Hreach. apply attach_events_ok_iff.
    by apply reachable_observers_registered.
  - intros e. apply attach_events_unregistered_raises.
Qed.

Lemma attach_observer_requires_registration_witness :
  is_ok (attach_observer {| observer_id := 7; events := ["before_traffic_start"] |}
           (init ["before_traffic_start"; "before_requests_start"])) = true ∧
  raises (attach_observer {| observer_id := 7; events := ["on_thread_completion"] |}
            (init ["before_traffic_start"; "before_requests_start"])).
Proof.
  split.
  - apply (proj1 (attach_observer_requires_registration
                    (init ["before_traffic_start"; "before_requests_start"])
                    {| observer_id := 7; events := ["before_traffic_start"] |})).
    + apply reach_init.
    + cbn. apply Forall_cons. split; [|constructor]. vm_compute. set_solver.
  - apply (proj2 (attach_observer_requires_registration
                    (init ["before_traffic_start"; "before_requests_start"])
                    {| observer_id := 7; events := ["on_thread_completion"] |})
                 "on_thread_completion").
    + cbn. set_solver.
    + vm_compute. set_solver.
    + reflexivity.
Defined.

End observable_facts.

Section request_facts.
Import Py Request.

Lemma concluded_count_le l : (concluded_count l ≤ length l)%nat.
Proof. apply length_filter. Qed.















End request_facts.
Section transmission_facts.
Import Py Transmission.

Lemma Qc_div_nonneg (p b : Qc) : 0 ≤ p → 0 < b → 0 ≤ p / b * ns_per_s.
Proof.
  intros Hp Hb. unfold ns_per_s. qc_to_q.
  assert (0 < / this b)%Q by (by apply Qinv_lt_0_compat).
  unfold Qdiv. nra.
Qed.

Lemma Qc_div_zero (p b : Qc) : 0 ≤ p → 0 < b → p / b * ns_per_s ≤ 0 → p = 0.
Proof.
  intros Hp Hb Hle. unfold ns_per_s in *. qc_to_q.
  assert (0 < / this b)%Q as Hinv by (by apply Qinv_lt_0_compat).
  unfold Qdiv in *.
  destruct (Qlt_le_dec 0 (this p)) as [Hpos|Hneg]; [|lra].
  pose proof (Qmult_lt_0_compat _ _ Hpos Hinv). lra.
Qed.

Lemma calculate_transmission_time_ok now t t' time :
  calculate_transmission_time now t = Ok (t', time) →
  total_latency t' = total_latency t ∧
  remaining_payload_size t' = remaining_payload_size t ∧
  (same_equipment t = true → time = 0) ∧
  (same_equipment t = false → ∀ bw, current_bw t = Fin bw →
     time = remaining_payload_size t / bw * ns_per_s + total_latency t).
Proof.
  unfold calculate_transmission_time. intros H.
  apply bind_ok in H as (x & Hx & [= <- <-]). cbn.
  split; [done|]. split; [done|].
  destruct (same_equipment t).
  - injection Hx as <-. done.
  - split; [done|]. intros _ bw Hbw. rewrite Hbw in Hx.
    unfold div in Hx. destruct (decide (bw = 0)); [done|].
    cbn in Hx. by injection Hx as <-.
Qed.

Lemma calculate_transmission_time_returns now t :
  current_bw t ≠ Fin 0 → is_ok (calculate_transmission_time now t) = true.
Proof.
  unfold calculate_transmission_time. intros Hbw.
  destruct (same_equipment t); [done|].
  destruct (current_bw t) as [bw|]; [|done].
  unfold div. destruct (decide (bw = 0)) as [->|]; done.
Qed.

Lemma transmit_payload_ok d now t t' time :
  transmit_payload d now t = Ok (t', time) →
  -(1) < moved_payload d t ∧
  total_latency t' = total_latency t ∧
  remaining_payload_size t'
    = (if bool_decide (moved_payload d t < 1) then 0 else moved_payload d t) ∧
  time_of t' time t.
Proof.
  unfold transmit_payload. fold (moved_payload d t).
  set (p := moved_payload d t). intros Ht. unfold time_of.
  destruct (bool_decide_reflect (-(1) < p)) as [H1|H1];
    destruct (bool_decide_reflect (p < 1)) as [H2|H2]; cbn [andb] in Ht;
    try (destruct (bool_decide_reflect (p < 0)) as [H3|H3]; [done|]).
  all: apply calculate_transmission_time_ok in Ht
         as (E1 & E2 & E3 & E4); cbn in E1, E2, E3, E4.
  all: try (exfalso; qc_lra).
  all: rewrite E1, E2; done.
Qed.

Lemma transmit_payload_raises d now t :
  moved_payload d t ≤ -(1) → raises (transmit_payload d now t).
Proof.
  unfold transmit_payload. fold (moved_payload d t).
  set (p := moved_payload d t). intros Hp.
  rewrite (bool_decide_eq_false_2 (-(1) < p)) by (intros ?; qc_lra).
  rewrite (bool_decide_eq_true_2 (p < 0)) by qc_lra.
  by eexists.
Qed.

Lemma transmit_payload_returns d now t :
  current_bw t ≠ Fin 0 → -(1) < moved_payload d t →
  is_ok (transmit_payload d now t) = true.
Proof.
  unfold transmit_payload. fold (moved_payload d t).
  set (p := moved_payload d t). intros Hbw Hp.
  rewrite (bool_decide_eq_true_2 (-(1) < p)) by done.
  destruct (bool_decide_reflect (p < 1)) as [H2|H2]; cbn [andb].
  - by apply calculate_transmission_time_returns.
  - rewrite (bool_decide_eq_false_2 (p < 0)) by (intros ?; qc_lra).
    by apply calculate_transmission_time_returns.
Qed.

(** C2 (as the code has it): [transmit] spends the duration on the residual
    latency first.  A duration within a positive residual latency only lowers
    the latency and leaves the payload as it is.  Otherwise the part of the
    duration beyond the latency lowers the payload by
    [current_bw * duration / 1e9] for a finite bandwidth and empties it for
    an infinite one; a result strictly between -1 and 1 byte becomes 0, a
    result of -1 byte or less raises.  In the network loop a transmission
    inside one host finishes at once; one between two hosts, at a positive
    finite bandwidth with latency and payload not negative, finishes exactly
    when its residual latency and its remaining payload are both at most
    0. *)
Theorem transmit_latency_first_then_payload (t : Transmission)
    (duration now : Qc) :
  let lat := total_latency t in
  let rest := if bool_decide (0 < lat) then duration - lat else duration in
  let payload :=
    match current_bw t with
    | Fin bw => remaining_payload_size t - bw * (rest / ns_per_s)
    | PInf => 0
    end in
  (0 < lat → duration ≤ lat →
   ∀ t' time, transmit duration now t = Ok (t', time) →
     total_latency t' = lat - duration ∧
     remaining_payload_size t' = remaining_payload_size t) ∧
  (lat ≤ 0 ∨ lat < duration →
   (payload ≤ -(1) → raises (transmit duration now t)) ∧
   (∀ t' time, transmit duration now t = Ok (t', time) →
      total_latency t' = (if bool_decide (0 < lat) then 0 else lat) ∧
      remaining_payload_size t'
        = (if bool_decide (payload < 1) then 0 else payload))) ∧
  (current_bw t ≠ Fin 0 → (lat ≤ 0 ∨ lat < duration → -(1) < payload) →
   is_ok (transmit duration now t) = true) ∧
  (∀ t' duration' finished,
     transmit_active_transmission duration now t
       = Ok (t', duration', finished) →
     (same_equipment t = true → finished = true) ∧
     (same_equipment t = false →
      ∀ bw, current_bw t = Fin bw → 0 < bw →
            0 ≤ lat → 0 ≤ remaining_payload_size t →
            (finished = true
             ↔ total_latency t' ≤ 0 ∧ remaining_payload_size t' ≤ 0))).
Proof.
  intros lat rest payload.
  assert (payload = moved_payload rest t) as Hpay by done.
  clearbody payload.
  split; [|split; [|split]].
  - intros Hlat Hd t' time Ht. unfold transmit in Ht. fold lat in Ht.
    rewrite (bool_decide_eq_true_2 (0 < lat)) in Ht by done.
    rewrite (bool_decide_eq_false_2 (lat < duration)) in Ht
      by (intros ?; qc_lra).
    by apply calculate_transmission_time_ok in Ht as (E1 & E2 & _).
  - intros Hcase. unfold transmit. fold lat. subst rest.
    destruct (decide (0 < lat)) as [Hlat|Hlat];
      [rewrite !(bool_decide_eq_true_2 (0 < lat)) in * by done
      |rewrite !(bool_decide_eq_false_2 (0 < lat)) in * by done].
    + rewrite (bool_decide_eq_true_2 (lat < duration))
        by (destruct Hcase; [exfalso; qc_lra|done]).
      split.
      * intros Hp. apply transmit_payload_raises.
        rewrite Hpay in Hp. exact Hp.
      * intros t' time (_ & E1 & E2 & _)%transmit_payload_ok.
        rewrite Hpay. split; [exact E1|exact E2].
    + split.
      * intros Hp. apply transmit_payload_raises.
        rewrite Hpay in Hp. exact Hp.
      * intros t' time (_ & E1 & E2 & _)%transmit_payload_ok.
        rewrite Hpay. split; [exact E1|exact E2].
  - intros Hbw Hp. unfold transmit. fold lat. subst rest.
    destruct (decide (0 < lat)) as [Hlat|Hlat];
      [rewrite !(bool_decide_eq_true_2 (0 < lat)) in * by done
      |rewrite !(bool_decide_eq_false_2 (0 < lat)) in * by done].
    + destruct (bool_decide_reflect (lat < duration)) as [Hd|Hd].
      * apply transmit_payload_returns; [done|].
        rewrite Hpay in Hp. apply Hp. by right.
      * by apply calculate_transmission_time_returns.
    + apply transmit_payload_returns; [done|].
      rewrite Hpay in Hp. apply Hp. left. by apply Qcnot_lt_le.
  - intros t' duration' finished Ha. unfold transmit_active_transmission in Ha.
    apply bind_ok in Ha as ([t1 time] & Ht & Ha).
    destruct (bool_decide_reflect (time < 0)) as [Hneg|Hneg]; [done|].
    injection Ha as <- _ <-.
    assert (time_of t1 time t ∧
            (0 ≤ lat → 0 ≤ remaining_payload_size t →
             0 ≤ total_latency t1 ∧ 0 ≤ remaining_payload_size t1))
      as [[Hsame Hdiff] Hsign].
    { unfold transmit in Ht. fold lat in Ht.
      destruct (bool_decide_reflect (0 < lat)) as [Hlat|Hlat];
        [destruct (bool_decide_reflect (lat < duration)) as [Hd|Hd]|].
      - apply transmit_payload_ok in Ht as (H1 & E1 & E2 & Htime).
        split; [exact Htime|]. intros _ _. rewrite E1, E2. cbn.
        split; [done|]. case_bool_decide; [done|qc_lra].
      - apply calculate_transmission_time_ok in Ht as (E1 & E2 & E3 & E4).
        cbn in E1, E2, E3, E4. split.
        + split; [done|]. intros Hs bw Hbw. rewrite E1, E2. by apply E4.
        + intros _ Hp. rewrite E1, E2. split; [qc_lra|done].
      - apply transmit_payload_ok in Ht as (H1 & E1 & E2 & Htime).
        split; [exact Htime|]. intros Hl _. rewrite E1, E2.
        split; [done|]. case_bool_decide; [done|qc_lra]. }
    split.
    + intros ->%Hsame. by apply bool_decide_eq_true_2.
    + intros Hs bw Hbw Hpos Hl Hp.
      destruct (Hsign Hl Hp) as [Hl1 Hp1].
      rewrite (Hdiff Hs bw Hbw). rewrite bool_decide_eq_true.
      pose proof (Qc_div_nonneg _ _ Hp1 Hpos) as Hq.
      split.
      * intros Hle.
        assert (remaining_payload_size t1 / bw * ns_per_s ≤ 0) as Hz
          by qc_lra.
        apply Qc_div_zero in Hz; [|done..]. rewrite Hz. split; qc_lra.
      * intros [Hl0 Hp0].
        assert (remaining_payload_size t1 = 0) as -> by qc_lra.
        unfold ns_per_s. qc_to_q. unfold Qdiv. lra.
Qed.


Lemma transmit_latency_first_then_payload_witness :
  is_ok (transmit (Z2Qc 20) 0
           {| total_latency := Z2Qc 10; remaining_payload_size := Z2Qc 100;
              current_bw := Fin (Z2Qc 1000); same_equipment := false;
              transmission_time := None;
              transmission_exact_time := None |}) = true.
Proof.
  apply (proj1 (proj2 (proj2 (transmit_latency_first_then_payload
    {| total_latency := Z2Qc 10; remaining_payload_size := Z2Qc 100;
       current_bw := Fin (Z2Qc 1000); same_equipment := false;
       transmission_time := None; transmission_exact_time := None |}
    (Z2Qc 20) 0)))).
  - by intros [= ?].
  - intros _. apply (bool_decide_unpack _). by vm_compute.
Defined.

(** C2, as stated, fails on a transmission inside one host: with 10 ns of
    residual latency and 100 bytes to send, a step of 5 ns finishes it, yet
    5 ns of latency and the whole payload are left. *)
Lemma transmit_same_host_finishes_early :
  ∃ t' duration',
    transmit_active_transmission (Z2Qc 5) 0
      {| total_latency := Z2Qc 10; remaining_payload_size := Z2Qc 100;
         current_bw := PInf; same_equipment := true;
         transmission_time := None; transmission_exact_time := None |}
    = Ok (t', duration', true) ∧
    ¬ (total_latency t' ≤ 0 ∧ remaining_payload_size t' ≤ 0).
Proof.
  eexists _, _. split; [reflexivity|].
  intros [H _]. revert H. apply (bool_decide_unpack _). by vm_compute.
Qed.

End transmission_facts.
Section load_generator_facts.
Import Py LoadGenerator.

(** C3 (as the code has it): in [_exec_time_estimation], when the duration
    to the next event is infinite the driver raises if the previous event
    was THREAD GEN, and otherwise does not raise and goes on with THREAD GEN
    as the next event; a finite duration leads to RUN THREADS. *)
Theorem exec_time_estimation_infinite_duration (lg : LoadGenerator)
    (threads : list ActiveThread) (prediction : event) (time duration : ext)
    (sooner : bool) :
  estimate lg threads = Ok (prediction, (time, duration, sooner)) →
  (duration = PInf → previous_event lg = Some THREAD_GEN →
   raises (_exec_time_estimation lg threads)) ∧
  (duration = PInf → previous_event lg ≠ Some THREAD_GEN →
   ∃ lg', _exec_time_estimation lg threads = Ok lg' ∧
          next_event lg' = THREAD_GEN ∧
          previous_event lg' = Some EXEC_TIME_EST) ∧
  (duration ≠ PInf →
   ∃ lg', _exec_time_estimation lg threads = Ok lg' ∧
          next_event lg' = RUN_THREADS ∧
          duration_of_next_event lg' = Some duration).
Proof.
  intros He. unfold _exec_time_estimation. rewrite He. cbn.
  split; [|split].
  - intros -> Hprev. cbn. rewrite decide_False by (intros H; by apply H).
    by eexists.
  - intros -> Hprev. cbn. rewrite decide_True by done. cbn. by eexists.
  - intros Hd. destruct duration as [d|]; [|done]. cbn. by eexists.
Qed.

Lemma exec_time_estimation_infinite_duration_witness :
  raises (_exec_time_estimation (idle_after THREAD_GEN) []) ∧
  ∃ lg', _exec_time_estimation (idle_after RUN_THREADS) [] = Ok lg' ∧
         next_event lg' = THREAD_GEN ∧
         previous_event lg' = Some EXEC_TIME_EST.
Proof.
  split.
  - apply (proj1 (exec_time_estimation_infinite_duration
                    (idle_after THREAD_GEN) [] REQUEST PInf PInf false
                    eq_refl)); reflexivity.
  - apply (proj1 (proj2 (exec_time_estimation_infinite_duration
                    (idle_after RUN_THREADS) [] REQUEST PInf PInf false
                    eq_refl))); [reflexivity|]. intros [= ?].
Defined.

(** C3, as stated, fails: with an infinite duration and RUN THREADS as the
    previous event the driver does not raise, and with THREAD GEN as the
    previous event it does. *)
Lemma exec_time_estimation_raises_after_thread_gen :
  estimate (idle_after RUN_THREADS) [] = Ok (REQUEST, (PInf, PInf, false)) ∧
  previous_event (idle_after RUN_THREADS) ≠ Some THREAD_GEN ∧
  is_ok (_exec_time_estimation (idle_after RUN_THREADS) []) = true ∧
  estimate (idle_after THREAD_GEN) [] = Ok (REQUEST, (PInf, PInf, false)) ∧
  previous_event (idle_after THREAD_GEN) = Some THREAD_GEN ∧
  is_ok (_exec_time_estimation (idle_after THREAD_GEN) []) = false.
Proof. repeat split; try reflexivity. intros [= ?]. Qed.

End load_generator_facts.
Section run_queue_facts.
Import Py RunQueue RunQueueExamples.

Lemma same_queue_refl s : same_queue s s.
Proof. by split. Qed.

Lemma same_queue_sym s s' : same_queue s s' → same_queue s' s.
Proof. intros []. by split. Qed.

Lemma same_queue_trans s1 s2 s3 :
  same_queue s1 s2 → same_queue s2 s3 → same_queue s1 s3.
Proof.
  intros [] []. split; first [congruence | intros k; congruence].
Qed.

Lemma same_queue_set_remaining v s :
  same_queue s (set_remaining_millicores v s).
Proof. split; first [done | by intros [|[|[|[|?]]]]]. Qed.

Lemma well_formed_same s s' : same_queue s s' → well_formed s → well_formed s'.
Proof.
  intros [Hm Hd Ha Hmem Ht] [Hwd Hn Hu]. split.
  - intros tid k Hk. rewrite <- Hmem, <- Hd. by apply Hwd.
  - intros k. rewrite <- Hmem. apply Hn.
  - pose proof (Hmem 3%nat) as H3. pose proof (Hmem 2%nat) as H2.
    cbn in H2, H3. by rewrite <- H2, <- H3.
Qed.

Lemma same_queue_lookup s s' tid th :
  same_queue s s' → threads s !! tid = Some th →
  ∃ th', threads s' !! tid = Some th' ∧ static_of th' = static_of th.
Proof.
  intros [_ _ _ _ Ht] Hl.
  assert ((static_of <$> threads s') !! tid = Some (static_of th)) as H.
  { rewrite <- Ht. by rewrite list_lookup_fmap, Hl. }
  rewrite list_lookup_fmap in H. destruct (threads s' !! tid) as [th'|]; [|done].
  exists th'. split; [done|]. cbn in H. congruence.
Qed.

Lemma update_sum_members h d k s :
  ThreadSet.members (update_sum h d k s) = ThreadSet.members s.
Proof. unfold update_sum. by destruct (decide _). Qed.

Lemma update_sum_sum h d k s :
  ThreadSet.sum_cpu_requests (update_sum h d k s)
  = ThreadSet.sum_cpu_requests s + (if decide (k ∈ h) then - d else 0).
Proof. unfold update_sum. destruct (decide _); cbn; ring. Qed.

(** The effect of the setter of the share. *)
Lemma set_cpu_requests_share_ok tid v s t :
  set_cpu_requests_share tid v s = Ok t →
  ∃ th holders,
    threads s !! tid = Some th ∧
    (ReplicaThread.cpu_requests_share th - v = 0 ∧ holders = ∅ ∨
     ReplicaThread.cpu_requests_share th - v ≠ 0 ∧
     thread_set_dict s !! tid = Some holders) ∧
    same_queue s t ∧
    remaining_millicores t = remaining_millicores s ∧
    (∀ tid', share_of t tid'
             = if decide (tid' = tid) then Some v else share_of s tid') ∧
    (∀ k, (k < 5)%nat →
       ThreadSet.sum_cpu_requests (thread_set k t)
       = ThreadSet.sum_cpu_requests (thread_set k s)
         + (if decide (k ∈ holders)
            then v - ReplicaThread.cpu_requests_share th else 0)).
Proof.
  unfold set_cpu_requests_share. intros H.
  apply bind_ok in H as (th & Hth%get_ok & H).
  destruct (bool_decide (Z2Qc 1000 < v)); [done|].
  apply bind_ok in H as (m & _ & H).
  apply bind_ok in H as (holders & Hh & H).
  injection H as <-. exists th, holders. split; [done|]. split.
  { destruct (decide _) as [Hd|Hd].
    - left. by injection Hh as <-.
    - right. split; [done|].
      destruct (thread_set_dict s !! tid); [|done]. by injection Hh as ->. }
  split; [|split; [done|split]].
  - split; cbn; try done.
    + intros [|[|[|[|?]]]]; cbn; by rewrite update_sum_members.
    + rewrite list_fmap_insert. cbn. symmetry. apply list_insert_id.
      by rewrite list_lookup_fmap, Hth.
  - intros tid'. unfold share_of. cbn. destruct (decide (tid' = tid)) as [->|Hne].
    + rewrite list_lookup_insert_eq; [done|]. by eapply lookup_lt_Some.
    + by rewrite list_lookup_insert_ne.
  - intros k Hk.
    assert (∀ x : ThreadSet.ThreadSet,
      ThreadSet.sum_cpu_requests
        (update_sum holders (ReplicaThread.cpu_requests_share th - v) k x)
      = ThreadSet.sum_cpu_requests x
        + (if decide (k ∈ holders)
           then v - ReplicaThread.cpu_requests_share th else 0)) as E.
    { intros x. rewrite update_sum_sum. destruct (decide (k ∈ holders)); ring. }
    destruct k as [|[|[|[|[|?]]]]]; cbn; try apply E. lia.
Qed.


Lemma set_cpu_requests_share_sums tid v s t :
  well_formed s → set_cpu_requests_share tid v s = Ok t →
  ∃ old, share_of s tid = Some old ∧
    ∀ k, (k < 5)%nat →
      ThreadSet.sum_cpu_requests (thread_set k t)
      = ThreadSet.sum_cpu_requests (thread_set k s)
        + (if decide (tid ∈ ThreadSet.members (thread_set k s))
           then v - old else 0).
Proof.
  intros Hwf (th & holders & Hth & Hh & _ & _ & _ & Hs)%set_cpu_requests_share_ok.
  exists (ReplicaThread.cpu_requests_share th). split.
  { unfold share_of. by rewrite Hth. }
  intros k Hk. rewrite (Hs k Hk). f_equal.
  destruct Hh as [[Hd ->]|[Hd Hdict]].
  - rewrite decide_False by set_solver.
    destruct (decide _); [|done]. symmetry. qc_lra.
  - destruct (decide (k ∈ holders)) as [Hin|Hin].
    + rewrite decide_True; [done|]. apply (wf_dict _ Hwf); eauto.
    + rewrite decide_False; [done|].
      intros (sets & Hsets & Hks)%(wf_dict _ Hwf); [|done]. congruence.
Qed.

Lemma sum_shares_update s t tid v old l :
  (∀ tid', share_of t tid'
           = if decide (tid' = tid) then Some v else share_of s tid') →
  share_of s tid = Some old → NoDup l →
  sum_shares t l
  = sum_shares s l + (if decide (tid ∈ l) then v - old else 0).
Proof.
  intros Hsh Hold. unfold sum_shares.
  induction 1 as [|x l Hx Hnd IH]; cbn [foldr].
  - rewrite decide_False by apply not_elem_of_nil. ring.
  - rewrite IH, Hsh. destruct (decide (x = tid)) as [->|Hne].
    + rewrite (decide_True (P := tid ∈ tid :: l)) by (by left).
      rewrite (decide_False (P := tid ∈ l)) by done.
      rewrite Hold. cbn [default from_option id]. unfold id. ring.
    + destruct (decide (tid ∈ l)) as [Hin|Hin].
      * rewrite (decide_True (P := tid ∈ x :: l)) by (by right). ring.
      * rewrite (decide_False (P := tid ∈ x :: l)); [ring|].
        intros [->|?]%elem_of_cons; done.
Qed.

Lemma set_cpu_requests_share_offset tid v s t k :
  well_formed s → (k < 5)%nat → set_cpu_requests_share tid v s = Ok t →
  offset k t = offset k s.
Proof.
  intros Hwf Hk Hset.
  destruct (set_cpu_requests_share_sums _ _ _ _ Hwf Hset) as (old & Hold & Hs).
  destruct (set_cpu_requests_share_ok _ _ _ _ Hset)
    as (_ & _ & _ & _ & Hsame & _ & Hsh & _).
  unfold offset. rewrite (Hs k Hk), <- (same_members _ _ Hsame k).
  rewrite (sum_shares_update s t tid v old) by (done || apply Hwf).
  ring.
Qed.



Lemma assign_cpu_requests_share_ok tid c s t :
  assign_cpu_requests_share tid c s = Ok t →
  ∃ c', c = Some c' ∧
        set_cpu_requests_share tid (clamp (max_cpu_requests s) c') s = Ok t.
Proof.
  unfold assign_cpu_requests_share, clamp. destruct c as [c'|]; [|done].
  intros H. exists c'. split; [done|].
  apply bind_ok in H as (th & _ & H).
  destruct (ReplicaThread.on_rq th); [|done].
  by destruct (bool_decide _).
Qed.


Lemma cpu_request_per_thread_same tid s s' r :
  same_queue s s' →
  cpu_request_per_thread tid s = Ok r → cpu_request_per_thread tid s' = Ok r.
Proof.
  unfold cpu_request_per_thread. intros Hsame H.
  apply bind_ok in H as (th & Hth%get_ok & H).
  destruct (same_queue_lookup _ _ _ _ Hsame Hth) as (th' & Hth' & Hstat).
  apply get_ok in Hth'. rewrite Hth'. cbn.
  rewrite <- (same_max _ _ Hsame).
  assert (ReplicaThread.process th' = ReplicaThread.process th) as ->; [|done].
  unfold static_of in Hstat. congruence.
Qed.


Lemma shares_set_facts tids s t :
  well_formed s → shares_set tids s t →
  same_queue s t ∧
  (∀ k, (k < 5)%nat → offset k t = offset k s) ∧
  (∀ tid, tid ∉ tids → share_of t tid = share_of s tid).
Proof.
  intros Hwf Hss. induction Hss as [s|v s t Hss IH|tid v s s1 t Hin Hset Hss IH].
  - split; [apply same_queue_refl|done].
  - destruct IH as (H1 & H2 & H3).
    { eapply well_formed_same; [apply same_queue_set_remaining|done]. }
    split; [|split].
    + eapply same_queue_trans; [apply same_queue_set_remaining|exact H1].
    + intros k Hk. rewrite (H2 k Hk).
      by destruct k as [|[|[|[|?]]]].
    + intros tid Htid. by rewrite (H3 tid Htid).
  - destruct (set_cpu_requests_share_ok _ _ _ _ Hset)
      as (_ & _ & _ & _ & Hsame & _ & Hsh & _).
    destruct IH as (H1 & H2 & H3).
    { by eapply well_formed_same. }
    split; [|split].
    + by eapply same_queue_trans.
    + intros k Hk. rewrite (H2 k Hk).
      by eapply set_cpu_requests_share_offset.
    + intros x Hx. rewrite (H3 x Hx), Hsh.
      rewrite decide_False; [done|]. by intros ->.
Qed.

Lemma shares_set_trans tids s1 s2 s3 :
  shares_set tids s1 s2 → shares_set tids s2 s3 → shares_set tids s1 s3.
Proof.
  induction 1; intros H23; [done| |].
  - eapply shares_set_remaining. eauto.
  - eapply shares_set_step; eauto.
Qed.

Lemma shares_set_mono tids tids' s t :
  tids ⊆ tids' → shares_set tids s t → shares_set tids' s t.
Proof.
  intros Hsub. induction 1.
  - constructor.
  - by eapply shares_set_remaining.
  - eapply shares_set_step; [by apply Hsub|done..].
Qed.

Lemma assign_cpu_requests_share_shares_set tid c s t :
  assign_cpu_requests_share tid c s = Ok t → shares_set [tid] s t.
Proof.
  intros (c' & _ & Hset)%assign_cpu_requests_share_ok.
  eapply shares_set_step; [by left|exact Hset|constructor].
Qed.

Lemma assign_requests_shares_set tids : ∀ s t,
  assign_requests tids s = Ok t → shares_set tids s t.
Proof.
  induction tids as [|tid tids IH]; intros s t H; cbn in H.
  - assert (s = t) as -> by congruence. constructor.
  - apply bind_ok in H as (r & _ & H).
    apply bind_ok in H as (s1 & Ha%assign_cpu_requests_share_shares_set & H).
    eapply shares_set_trans.
    + eapply shares_set_mono; [|exact Ha]. set_solver.
    + eapply shares_set_mono; [|by apply IH]. set_solver.
Qed.

Lemma share_remaining_shares_set tids : ∀ s t,
  share_remaining tids s = Ok t → shares_set tids s t.
Proof.
  induction tids as [|tid tids IH]; intros s t H;
    cbn [share_remaining] in H.
  - assert (s = t) as -> by congruence. constructor.
  - apply bind_ok in H as (r & _ & H). destruct r as [req|]; [|done].
    apply bind_ok in H as (ratio & _ & H).
    apply bind_ok in H as (th & _ & H).
    apply bind_ok in H as (s1 & Ha%assign_cpu_requests_share_shares_set & H).
    eapply shares_set_trans.
    + eapply shares_set_mono; [|exact Ha]. set_solver.
    + eapply shares_set_mono; [|by apply IH]. set_solver.
Qed.



Lemma assign_cpu_requests_share_same tid c s t :
  assign_cpu_requests_share tid c s = Ok t → same_queue s t.
Proof.
  intros (c' & _ & Hset)%assign_cpu_requests_share_ok.
  by destruct (set_cpu_requests_share_ok _ _ _ _ Hset)
    as (_ & _ & _ & _ & Hsame & _).
Qed.


Lemma requested_same s s' tid :
  same_queue s s' → requested s tid → requested s' tid.
Proof.
  intros Hsame (k & Hk & Hin). exists k. split; [done|].
  by rewrite <- (same_members _ _ Hsame).
Qed.













Lemma shares_set_same tids s t :
  well_formed s → shares_set tids s t → same_queue s t.
Proof. intros Hwf Hss. by destruct (shares_set_facts _ _ _ Hwf Hss). Qed.


Lemma share_of_set_remaining v s tid :
  share_of (set_remaining_millicores v s) tid = share_of s tid.
Proof. done. Qed.





Lemma min_le_r x y : Py.min x y ≤ y.
Proof.
  unfold Py.min. destruct (bool_decide (y < x)) eqn:E.
  - apply Qcle_refl.
  - apply bool_decide_eq_false in E. by apply Qcnot_lt_le.
Qed.

Lemma cpu_request_per_thread_le tid s c :
  cpu_request_per_thread tid s = Ok (Some c) → c ≤ max_cpu_requests s.
Proof.
  unfold cpu_request_per_thread. intros H.
  apply bind_ok in H as (th & _ & H).
  unfold Process.get_cpu_request_per_thread in H.
  destruct (decide _); [done|].
  apply bind_ok in H as (x & _ & [= <-]). apply min_le_r.
Qed.

Lemma clamp_le m c : c ≤ m → clamp m c = c.
Proof. intros H. unfold clamp. by rewrite bool_decide_eq_true_2. Qed.

Lemma request_of_same s s' tid r :
  same_queue s s' → cpu_request_per_thread tid s = Ok (Some r) →
  request_of s' tid = r.
Proof.
  intros Hsame H. unfold request_of.
  by rewrite (cpu_request_per_thread_same _ _ _ _ Hsame H).
Qed.

Lemma request_of_same_queue s s' tid :
  same_queue s s' → request_of s' tid = request_of s tid.
Proof.
  intros Hsame. unfold request_of.
  destruct (cpu_request_per_thread tid s) as [r|e] eqn:E.
  - by rewrite (cpu_request_per_thread_same _ _ _ _ Hsame E).
  - destruct (cpu_request_per_thread tid s') as [r'|e'] eqn:E'; [|done].
    by rewrite (cpu_request_per_thread_same _ _ _ _
                  (same_queue_sym _ _ Hsame) E') in E.
Qed.

Lemma assign_requests_result tids : ∀ s t,
  well_formed s → assign_requests tids s = Ok t →
  ∀ tid, share_of t tid
         = if decide (tid ∈ tids) then Some (request_of s tid)
           else share_of s tid.
Proof.
  induction tids as [|x tids IH]; intros s t Hwf H tid;
    cbn [assign_requests] in H.
  - assert (s = t) as <- by congruence.
    rewrite decide_False; [done|]. apply not_elem_of_nil.
  - apply bind_ok in H as (r & Hr & H).
    apply bind_ok in H as (s1 & Ha & H).
    pose proof (assign_cpu_requests_share_same _ _ _ _ Ha) as Hs1.
    apply assign_cpu_requests_share_ok in Ha as (c & -> & Hset).
    rewrite clamp_le in Hset by (by eapply cpu_request_per_thread_le).
    destruct (set_cpu_requests_share_ok _ _ _ _ Hset)
      as (_ & _ & _ & _ & _ & _ & Hsh & _).
    rewrite (IH s1 t (well_formed_same _ _ Hs1 Hwf) H tid), Hsh.
    destruct (decide (tid ∈ tids)) as [Hin|Hin].
    + rewrite decide_True by (by right).
      by rewrite (request_of_same_queue _ _ _ Hs1).
    + destruct (decide (tid = x)) as [->|Hne].
      * rewrite decide_True by (by left).
        unfold request_of. by rewrite Hr.
      * rewrite decide_False; [done|].
        intros [?|?]%elem_of_cons; done.
Qed.





Lemma burstable_pair_well_formed : well_formed burstable_pair.
Proof.
  split.
  - intros tid k Hk.
    assert (Hd : ∀ sets, thread_set_dict burstable_pair !! tid = Some sets
              ↔ (tid = 0%nat ∧ sets = {[2%nat; 3%nat]})
                ∨ (tid = 1%nat ∧ sets = {[2%nat; 4%nat]})).
    { intros sets. unfold burstable_pair; cbn [thread_set_dict].
      rewrite lookup_insert_Some, lookup_singleton_Some. naive_solver. }
    setoid_rewrite Hd.
    destruct k as [|[|[|[|[|]]]]]; try lia;
      cbn [thread_set burstable_pair best_effort_active_threads guaranteed_active_threads
           burstable_active_threads burstable_unlimited_active_threads
           burstable_limited_active_threads set_of ThreadSet.members];
      rewrite ?elem_of_cons, ?elem_of_nil.
    all: split; [intros H|intros (sets & [[-> ->]|[-> ->]] & H)].
    all: try (exfalso; set_solver).
    all: try naive_solver set_solver.
  - intros k. destruct k as [|[|[|[|?]]]]; cbn; repeat constructor; set_solver.
  - cbn. set_solver.
Qed.




End run_queue_facts.
Section cpu_facts.
Import Py CPU.
Variable dequeue_task_by_thread : nat → nat → CPU → result CPU.
Variable enqueue_task : nat → nat → CPU → result CPU.

Lemma get_the_other_core_in_pair_same core_id cpu other :
  get_the_other_core_in_pair core_id false cpu = Ok (Some other) →
  get_the_other_core_in_pair core_id true cpu = Ok (Some other).
Proof.
  unfold get_the_other_core_in_pair. destruct (Nat.even core_id); [|done].
  destruct (get _ _) as [pair|]; [|done]. cbn.
  by destruct (decide _).
Qed.




End cpu_facts.

Section least_fit_facts.
Import Py Host LeastFit.

Lemma least_fit_score_ok available capacity requested weight s :
  least_fit_score available capacity requested weight = Ok s ↔
  capacity ≠ 0 ∧
  s = weight * Z2Qc 100 + weighted weight requested capacity available.
Proof.
  unfold least_fit_score, weighted, div, Py.min.
  destruct (decide (capacity = 0)) as [E|E]; cbn.
  - split; [done|]. by intros [? _].
  - split.
    + intros [= <-]. split; [done|].
      destruct (bool_decide (capacity < requested)); field; done.
    + intros [_ ->]. f_equal.
      destruct (bool_decide (capacity < requested)); field; done.
Qed.

Lemma Qc_inv_pos (w : Qc) : 0 < w → 0 < / w.
Proof.
  intros Hw. qc_to_q. by apply Qinv_lt_0_compat.
Qed.

Lemma Qc_scaled_le (a b w : Qc) :
  0 < w → (Z2Qc 100 + a / w ≤ Z2Qc 100 + b / w ↔ a ≤ b).
Proof.
  intros Hw. pose proof (Qc_inv_pos w Hw) as Hi. unfold Qcdiv.
  split; intros H.
  - apply Qcnot_lt_le. intros Hlt.
    assert (b * / w < a * / w) by (by apply Qcmult_lt_compat_r).
    qc_lra.
  - assert (a * / w ≤ b * / w).
    { apply Qcmult_le_compat_r; [done|]. by apply Qclt_le_weak. }
    qc_lra.
Qed.

Lemma Qc_scaled_eq (a b w : Qc) :
  0 < w → (Z2Qc 100 + a / w = Z2Qc 100 + b / w ↔ a = b).
Proof.
  intros Hw. split; [|by intros ->]. intros H.
  apply Qcle_antisym; apply (Qc_scaled_le _ _ w Hw); rewrite H;
    apply Qcle_refl.
Qed.

Lemma calculate_host_score_ok options host r s :
  sum_of_weights options ≠ 0 →
  _calculate_host_score_for_placing_replica options host r = Ok s ↔
  scorable host ∧
  s = Z2Qc 100 + weighted_score options host r / sum_of_weights options.
Proof.
  intros Hw. unfold _calculate_host_score_for_placing_replica, scorable.
  split.
  - intros H.
    apply bind_ok in H as (s1 & (C1 & ->)%least_fit_score_ok & H).
    apply bind_ok in H as (s2 & (C2 & ->)%least_fit_score_ok & H).
    apply bind_ok in H as (s3 & (C3 & ->)%least_fit_score_ok & H).
    apply bind_ok in H as (s4 & (C4 & ->)%least_fit_score_ok & H).
    apply bind_ok in H as (s5 & (C5 & ->)%least_fit_score_ok & H).
    unfold div in H. destruct (decide _) as [|Hne]; [done|].
    injection H as <-. split; [done|].
    unfold weighted_score, sum_of_weights in *. field. done.
  - intros ((C1 & C2 & C3 & C4 & C5) & ->).
    repeat (apply bind_ok; eexists; split;
            [by apply least_fit_score_ok|]).
    unfold div. rewrite decide_False.
    + f_equal. unfold weighted_score, sum_of_weights in *. field. done.
    + intros E. apply Hw. rewrite <- E. unfold sum_of_weights. ring.
Qed.


Lemma qualifies_dec r anti host :
  qualifies r anti host ∨ ¬ qualifies r anti host.
Proof.
  unfold qualifies. destruct (decide (name host ∈ anti)) as [Hin|Hin].
  - right. by intros [? _].
  - destruct (is_replica_placeable_on_host_from_resource_perspective host r).
    + by left.
    + right. by intros [_ ?].
Qed.

Lemma consider_skip options r anti seen state host :
  best_of options r anti seen state → ¬ qualifies r anti host →
  best_of options r anti (seen ++ [host]) state.
Proof.
  intros Hb Hq. unfold best_of in *. destruct (state.2) as [best|].
  - destruct Hb as (s & E & Hs & Hin & Hqb & Hall). exists s.
    split; [done|split; [done|split; [|split; [done|]]]].
    + apply elem_of_app. by left.
    + intros h [Hh|Hh%list_elem_of_singleton]%elem_of_app Hqh.
      * by apply Hall.
      * by subst h.
  - destruct Hb as [E Hall]. split; [done|].
    intros h [Hh|Hh%list_elem_of_singleton]%elem_of_app.
    + by apply Hall.
    + by subst h.
Qed.

Lemma consider_inv options r anti seen state host state' :
  best_of options r anti seen state →
  consider options r anti state host = Ok state' →
  best_of options r anti (seen ++ [host]) state'.
Proof.
  intros Hb H. destruct state as [lowest least]. unfold consider in H.
  destruct (decide (name host ∈ anti)) as [Ha|Ha].
  { injection H as <-. apply consider_skip; [done|]. by intros [? _]. }
  destruct (is_replica_placeable_on_host_from_resource_perspective host r)
    eqn:Hp.
  2:{ injection H as <-. apply consider_skip; [done|].
      intros [_ ?]. congruence. }
  assert (Hq : qualifies r anti host) by done.
  apply bind_ok in H as (sx & Hsx & H).
  assert (Hlast : host ∈ seen ++ [host]).
  { apply elem_of_app. right. by apply list_elem_of_singleton. }
  unfold best_of in Hb. cbn [fst snd] in Hb.
  destruct least as [best|].
  - destruct Hb as (s & -> & Hs & Hin & Hqb & Hall).
    cbn [ext_ltb ext_eqb] in H.
    destruct (decide (sx < s)) as [Hlt|Hge].
    + rewrite bool_decide_eq_true_2 in H by done. injection H as <-.
      exists sx. cbn [fst snd].
      split; [done|split; [done|split; [done|split; [done|]]]].
      intros h [Hh|Hh%list_elem_of_singleton]%elem_of_app Hqh.
      * destruct (Hall h Hh Hqh) as (s' & Hs' & Hle & _).
        exists s'. split; [done|].
        assert (sx < s') by (by eapply Qclt_le_trans).
        split; [by apply Qclt_le_weak|].
        intros ->. by apply Qclt_not_eq in H.
      * subst h. exists sx. split; [done|]. split; [apply Qcle_refl|lia].
    + rewrite bool_decide_eq_false_2 in H by done.
      apply Qcnot_lt_le in Hge.
      destruct (decide (sx = s)) as [->|Hne].
      * rewrite bool_decide_eq_true_2 in H by done.
        destruct (decide (length (replicas host) < length (replicas best))%nat)
          as [Hr|Hr].
        -- rewrite bool_decide_eq_true_2 in H by done. injection H as <-.
           exists s. cbn [fst snd].
           split; [done|split; [done|split; [done|split; [done|]]]].
           intros h [Hh|Hh%list_elem_of_singleton]%elem_of_app Hqh.
           ++ destruct (Hall h Hh Hqh) as (s' & Hs' & Hle & Htie).
              exists s'. split; [done|]. split; [done|].
              intros E. specialize (Htie E). lia.
           ++ subst h. exists s. split; [done|].
              split; [apply Qcle_refl|lia].
        -- rewrite bool_decide_eq_false_2 in H by done. injection H as <-.
           exists s. cbn [fst snd].
           split; [done|split; [done|split; [|split; [done|]]]].
           { apply elem_of_app. by left. }
           intros h [Hh|Hh%list_elem_of_singleton]%elem_of_app Hqh.
           ++ by apply Hall.
           ++ subst h. exists s. split; [done|].
              split; [apply Qcle_refl|lia].
      * rewrite bool_decide_eq_false_2 in H by done. injection H as <-.
        exists s. cbn [fst snd].
        split; [done|split; [done|split; [|split; [done|]]]].
        { apply elem_of_app. by left. }
        intros h [Hh|Hh%list_elem_of_singleton]%elem_of_app Hqh.
        -- by apply Hall.
        -- subst h. exists sx. split; [done|]. split; [done|].
           intros E. by destruct Hne.
  - destruct Hb as [-> Hall]. cbn [ext_ltb] in H. injection H as <-.
    exists sx. cbn [fst snd].
    split; [done|split; [done|split; [done|split; [done|]]]].
    intros h [Hh|Hh%list_elem_of_singleton]%elem_of_app Hqh.
    + by destruct (Hall h Hh).
    + subst h. exists sx. split; [done|]. split; [apply Qcle_refl|lia].
Qed.

Lemma consider_all_inv options r anti hosts : ∀ seen state state',
  best_of options r anti seen state →
  consider_all options r anti state hosts = Ok state' →
  best_of options r anti (seen ++ hosts) state'.
Proof.
  induction hosts as [|host hosts IH]; intros seen state state' Hb H;
    cbn [consider_all] in H.
  - injection H as <-. by rewrite app_nil_r.
  - apply bind_ok in H as (st1 & H1 & H).
    rewrite (cons_middle host seen hosts), app_assoc.
    eapply IH; [|exact H]. by eapply consider_inv.
Qed.

Lemma consider_returns options r anti seen state host :
  sum_of_weights options ≠ 0 →
  best_of options r anti seen state →
  (qualifies r anti host → scorable host) →
  ∃ state', consider options r anti state host = Ok state'.
Proof.
  intros Hw Hb Hsc. destruct state as [lowest least]. unfold consider.
  destruct (decide (name host ∈ anti)) as [Ha|Ha]; [by eexists|].
  destruct (is_replica_placeable_on_host_from_resource_perspective host r)
    eqn:Hp; [|by eexists].
  assert (Hs : _calculate_host_score_for_placing_replica options host r
               = Ok (Z2Qc 100 + weighted_score options host r
                                / sum_of_weights options)).
  { apply calculate_host_score_ok; [done|]. split; [|done]. by apply Hsc. }
  rewrite Hs. cbn [mbind result_bind bind].
  destruct (ext_ltb _ lowest); [by eexists|].
  destruct (ext_eqb _ lowest) eqn:He; [|by eexists].
  unfold best_of in Hb. cbn [fst snd] in Hb.
  destruct least as [best|].
  - destruct (bool_decide _); by eexists.
  - destruct Hb as [-> _]. done.
Qed.

Lemma consider_all_returns options r anti hosts : ∀ seen state,
  sum_of_weights options ≠ 0 →
  best_of options r anti seen state →
  (∀ host, host ∈ hosts → qualifies r anti host → scorable host) →
  ∃ state', consider_all options r anti state hosts = Ok state'.
Proof.
  induction hosts as [|host hosts IH]; intros seen state Hw Hb Hsc;
    cbn [consider_all].
  - by eexists.
  - destruct (consider_returns options r anti seen state host Hw Hb)
      as [st1 H1]; [apply Hsc; by left|].
    rewrite H1. cbn [mbind result_bind bind].
    apply (IH (seen ++ [host])); [done|by eapply consider_inv|].
    intros h Hh. apply Hsc. by right.
Qed.


(** C7 (as the code has it): with a positive sum of weights, the host that
    [reschedule] gives a replica is one of the affinity hosts that is not
    excluded by an anti-affinity rule and can take the CPU, memory and block
    I/O requests; among these it has the lowest weighted score
    [w * 100 * (min(requested, capacity) / capacity - available / capacity)]
    summed over the five resources, and at equal scores it has no more
    replicas than the others.  When no host qualifies, [reschedule] raises
    [ResourceNotAvailableError]; when one does and no capacity is 0, it
    returns. *)
Theorem least_fit_selects_lowest_score (options : LeastFitOptions)
    (r : MicroserviceReplica) (affinity_hosts : list Host)
    (antiaffinity_hosts_names : gset string) :
  0 < sum_of_weights options →
  (∀ host,
     reschedule options r affinity_hosts antiaffinity_hosts_names = Ok host →
     host ∈ affinity_hosts ∧ qualifies r antiaffinity_hosts_names host ∧
     ∀ host', host' ∈ affinity_hosts →
       qualifies r antiaffinity_hosts_names host' →
       weighted_score options host r ≤ weighted_score options host' r ∧
       (weighted_score options host r = weighted_score options host' r →
        (length (replicas host) ≤ length (replicas host'))%nat)) ∧
  ((∀ host, host ∈ affinity_hosts →
      ¬ qualifies r antiaffinity_hosts_names host) →
   reschedule options r affinity_hosts antiaffinity_hosts_names
   = Err (ResourceNotAvailableError
            "Available hosts are not enough to place replica")) ∧
  ((∃ host, host ∈ affinity_hosts
            ∧ qualifies r antiaffinity_hosts_names host) →
   (∀ host, host ∈ affinity_hosts →
      qualifies r antiaffinity_hosts_names host → scorable host) →
   is_ok (reschedule options r affinity_hosts antiaffinity_hosts_names)
   = true).
Proof.
  intros Hw.
  assert (Hw0 : sum_of_weights options ≠ 0).
  { intros E. rewrite E in Hw. by apply Qclt_not_eq in Hw. }
  assert (Hstart : best_of options r antiaffinity_hosts_names []
                     (PInf, None)).
  { split; [done|]. intros h Hh. by apply elem_of_nil in Hh. }
  split; [|split].
  - intros host H. unfold reschedule in H.
    apply bind_ok in H as ([lowest least] & Hall & H).
    destruct least as [best|]; [|done]. injection H as ->.
    pose proof (consider_all_inv _ _ _ _ _ _ _ Hstart Hall) as Hb.
    unfold best_of in Hb. cbn [fst snd app] in Hb.
    destruct Hb as (s & _ & Hs & Hin & Hq & Hbest).
    split; [done|split; [done|]].
    intros host' Hin' Hq'.
    destruct (Hbest host' Hin' Hq') as (s' & Hs' & Hle & Htie).
    apply calculate_host_score_ok in Hs as [_ ->]; [|done].
    apply calculate_host_score_ok in Hs' as [_ ->]; [|done].
    split.
    + by apply (Qc_scaled_le _ _ _ Hw).
    + intros E. apply Htie. by rewrite E.
  - intros Hnone. unfold reschedule.
    destruct (consider_all_returns options r antiaffinity_hosts_names
                affinity_hosts [] (PInf, None) Hw0 Hstart)
      as [[lowest least] Hall].
    { intros h Hh Hq. by destruct (Hnone h Hh). }
    rewrite Hall. cbn [mbind result_bind bind].
    pose proof (consider_all_inv _ _ _ _ _ _ _ Hstart Hall) as Hb.
    unfold best_of in Hb. cbn [fst snd app] in Hb.
    destruct least as [best|]; [|done].
    destruct Hb as (s & _ & _ & Hin & Hq & _). by destruct (Hnone best Hin).
  - intros (host & Hin & Hq) Hsc. unfold reschedule.
    destruct (consider_all_returns options r antiaffinity_hosts_names
                affinity_hosts [] (PInf, None) Hw0 Hstart Hsc)
      as [[lowest least] Hall].
    rewrite Hall. cbn [mbind result_bind bind].
    pose proof (consider_all_inv _ _ _ _ _ _ _ Hstart Hall) as Hb.
    unfold best_of in Hb. cbn [fst snd app] in Hb.
    destruct least as [best|]; [done|].
    destruct Hb as [_ Hnone]. by destruct (Hnone host Hin).
Qed.

End least_fit_facts.

Lemma least_fit_selects_lowest_score_witness :
  LeastFit.qualifies LeastFitExamples.wide_replica ∅
    LeastFitExamples.narrow_host
  ∧ LeastFit.weighted_score LeastFitExamples.ingress_only
      LeastFitExamples.narrow_host LeastFitExamples.wide_replica
    ≤ LeastFit.weighted_score LeastFitExamples.ingress_only
        LeastFitExamples.wide_host LeastFitExamples.wide_replica.
Proof.
  destruct (proj1 (least_fit_selects_lowest_score
    LeastFitExamples.ingress_only LeastFitExamples.wide_replica
    [LeastFitExamples.wide_host; LeastFitExamples.narrow_host] ∅
    ltac:(by vm_compute)) LeastFitExamples.narrow_host
    ltac:(by vm_compute)) as (_ & Hq & Hmin).
  split; [exact Hq|].
  apply Hmin.
  - by left.
  - split; [apply not_elem_of_empty|by vm_compute].
Defined.

(** C7, as stated, fails when a request exceeds a capacity: the replica asks
    for an ingress bandwidth of 30, and with the weight on the ingress
    bandwidth only the host of bandwidth 20 has the lower stated score
    (50 against 200); both requests are cut to the bandwidth, the scores
    tie, and the host of bandwidth 10, with fewer replicas, is chosen. *)
Lemma least_fit_cuts_request_at_capacity :
  LeastFit.reschedule LeastFitExamples.ingress_only
    LeastFitExamples.wide_replica
    [LeastFitExamples.wide_host; LeastFitExamples.narrow_host] ∅
  = Py.Ok LeastFitExamples.narrow_host
  ∧ LeastFit.qualifies LeastFitExamples.wide_replica ∅
      LeastFitExamples.wide_host
  ∧ LeastFit.stated_score LeastFitExamples.ingress_only
      LeastFitExamples.wide_host LeastFitExamples.wide_replica
    < LeastFit.stated_score LeastFitExamples.ingress_only
        LeastFitExamples.narrow_host LeastFitExamples.wide_replica.
Proof.
  split; [by vm_compute|]. split.
  - split; [apply not_elem_of_empty|by vm_compute].
  - by vm_compute.
Qed.

(** ** [Resource]: reserving and releasing *)

Section resource_invariants.
Import Py Resource.

Lemma reserve_ok r amount r' :
  reserve r amount = Ok r' ↔
  0 ≤ amount ∧ amount ≤ get_available r ∧
  r' = {| type := type r; name := name r; throttleable := throttleable r;
          unit_of_measure := unit_of_measure r; capacity := capacity r;
          reserved := reserved r + amount |}.
Proof.
  unfold reserve, is_there_enough_resources_to_reserve.
  destruct (decide (amount ≤ get_available r)) as [Ha|Ha].
  - rewrite (bool_decide_eq_true_2 _ Ha).
    destruct (decide (0 ≤ amount)) as [Hp|Hp].
    + rewrite (bool_decide_eq_true_2 _ Hp). split.
      * by intros [= <-].
      * by intros (_ & _ & ->).
    + rewrite (bool_decide_eq_false_2 _ Hp). split; [done|]. by intros [? _].
  - rewrite (bool_decide_eq_false_2 _ Ha). split; [done|].
    by intros (_ & ? & _).
Qed.

Lemma release_ok r amount r' :
  release r amount = Ok r' ↔
  amount ≤ reserved r ∧
  r' = {| type := type r; name := name r; throttleable := throttleable r;
          unit_of_measure := unit_of_measure r; capacity := capacity r;
          reserved := reserved r - amount |}.
Proof.
  unfold release.
  destruct (decide (reserved r < amount)) as [Hlt|Hge].
  - rewrite (bool_decide_eq_true_2 _ Hlt).
    assert (reserved r - amount < 0) as Hneg by qc_lra.
    rewrite (bool_decide_eq_true_2 _ Hneg).
    destruct (throttleable r); cbn; (split; [done|]);
      intros [Hle _]; by apply Qcle_not_lt in Hle.
  - rewrite (bool_decide_eq_false_2 _ Hge). cbn [andb].
    apply Qcnot_lt_le in Hge.
    assert (¬ reserved r - amount < 0) as Hnn by (intros ?; qc_lra).
    rewrite (bool_decide_eq_false_2 _ Hnn). split.
    + by intros [= <-].
    + by intros [_ ->].
Qed.

(** [reserve] never takes more than what is available: it keeps the
    reserved amount between 0 and the capacity, and lowers what is
    available by the amount. *)
Theorem reserve_keeps_bounds (r r' : Resource) (amount : Qc) :
  0 ≤ reserved r → reserve r amount = Ok r' →
  0 ≤ reserved r' ∧ reserved r' ≤ capacity r' ∧ capacity r' = capacity r
  ∧ get_available r' = get_available r - amount.
Proof.
  intros Hr (Ha & Hav & ->)%reserve_ok. unfold get_available in *. cbn.
  repeat split; try done; qc_lra.
Qed.

(** [release] returns exactly when the amount is at most what is reserved,
    whether the resource is throttleable or not; the reserved amount stays
    at 0 or above. *)
Theorem release_returns_iff (r : Resource) (amount : Qc) :
  (is_ok (release r amount) = true ↔ amount ≤ reserved r) ∧
  (∀ r', release r amount = Ok r' →
         reserved r' = reserved r - amount ∧ 0 ≤ reserved r').
Proof.
  split.
  - split.
    + destruct (release r amount) as [r'|] eqn:E; [|done].
      intros _. by apply release_ok in E as [? _].
    + intros Hle.
      by rewrite (proj2 (release_ok r amount _) (conj Hle eq_refl)).
  - intros r' (Hle & ->)%release_ok. cbn. split; [done|]. qc_lra.
Qed.

Lemma release_undoes_reserve r r' amount :
  0 ≤ reserved r → reserve r amount = Ok r' → release r' amount = Ok r.
Proof.
  intros Hr (Ha & Hav & ->)%reserve_ok. apply release_ok. cbn. split.
  - qc_lra.
  - destruct r; cbn. f_equal. ring.
Qed.

(** Releasing what was just reserved returns and gives back the
    resource. *)
Theorem release_reserve (r r' : Resource) (amount : Qc) :
  0 ≤ reserved r → reserve r amount = Ok r' → release r' amount = Ok r.
Proof.
  intros Hr (Ha & Hav & ->)%reserve_ok.
  apply release_ok. cbn [reserved]. split.
  - qc_lra.
  - destruct r; cbn. f_equal. ring.
Qed.

Lemma reserve_keeps_bounds_witness :
  0 ≤ reserved ResourceExamples.core_taken ∧
  reserved ResourceExamples.core_taken ≤ capacity ResourceExamples.core_taken ∧
  capacity ResourceExamples.core_taken = capacity ResourceExamples.core_free ∧
  get_available ResourceExamples.core_taken
  = get_available ResourceExamples.core_free - Z2Qc 250.
Proof.
  apply (reserve_keeps_bounds ResourceExamples.core_free
           ResourceExamples.core_taken (Z2Qc 250)).
  - by vm_compute.
  - apply reserve_ok. split; [by vm_compute|]. split; [by vm_compute|].
    unfold ResourceExamples.core_taken. cbn. f_equal.
Defined.

Lemma release_returns_iff_witness :
  is_ok (release ResourceExamples.core_taken (Z2Qc 250)) = true ∧
  is_ok (release ResourceExamples.core_taken (Z2Qc 251)) = false.
Proof.
  destruct (release_returns_iff ResourceExamples.core_taken (Z2Qc 250))
    as [[_ H] _].
  destruct (release_returns_iff ResourceExamples.core_taken (Z2Qc 251))
    as [[H' _] _].
  split.
  - apply H. by vm_compute.
  - destruct (release ResourceExamples.core_taken (Z2Qc 251)); [|done].
    exfalso. by specialize (H' eq_refl).
Defined.

Lemma release_reserve_witness :
  release ResourceExamples.core_taken (Z2Qc 250)
  = Ok ResourceExamples.core_free.
Proof.
  apply (release_reserve ResourceExamples.core_free
           ResourceExamples.core_taken (Z2Qc 250)).
  - by vm_compute.
  - apply reserve_ok. split; [by vm_compute|]. split; [by vm_compute|].
    unfold ResourceExamples.core_taken. cbn. f_equal.
Defined.

End resource_invariants.

(** ** [Nic] and [CPU]: bandwidth requests and CPU shares *)

Section nic_facts.
Import Py Nic.

(** [Nic.get_available] is never negative and never above the bandwidth;
    when more is requested than the bandwidth it is the whole bandwidth. *)
Theorem nic_get_available_bounds (n : Nic) :
  0 ≤ bandwidth n → 0 ≤ bandwidth_requests_total n →
  0 ≤ get_available n ∧ get_available n ≤ bandwidth n ∧
  (bandwidth n < bandwidth_requests_total n → get_available n = bandwidth n).
Proof.
  intros Hb Ht. unfold get_available.
  destruct (decide (bandwidth n < bandwidth_requests_total n)) as [H|H].
  - rewrite (bool_decide_eq_true_2 _ H). repeat split; first [done|apply Qcle_refl].
  - rewrite (bool_decide_eq_false_2 _ H). apply Qcnot_lt_le in H.
    repeat split; try done; qc_lra.
Qed.

Lemma dismiss_bw_undoes_request_bw (n : Nic) (q : Qc) :
  0 ≤ bandwidth_requests_total n → dismiss_bw q (request_bw q n) = Ok n.
Proof.
  intros Ht. unfold dismiss_bw, request_bw. cbn.
  rewrite bool_decide_eq_false_2 by (intros ?; qc_lra).
  destruct n; cbn. do 2 f_equal. ring.
Qed.


Lemma nic_get_available_bounds_witness :
  0 ≤ get_available HostExamples.nic_quarter ∧
  get_available HostExamples.nic_quarter ≤ bandwidth HostExamples.nic_quarter.
Proof.
  destruct (nic_get_available_bounds HostExamples.nic_quarter)
    as (H0 & H1 & _); [by vm_compute|by vm_compute|].
  by split.
Defined.


End nic_facts.

Section cpu_reserve_facts.
Import Py Host.

Lemma reserve_all_ok amount cores : ∀ cores',
  reserve_all amount cores = Ok cores' →
  Forall2 (λ c c', Resource.reserve c amount = Ok c') cores cores'.
Proof.
  induction cores as [|c cores IH]; intros cores' H; cbn in H.
  - injection H as <-. constructor.
  - apply bind_ok in H as (c' & Hc & H).
    apply bind_ok in H as (cs & Hcs & [= <-]).
    constructor; [done|by apply IH].
Qed.

Lemma release_all_reserve_all amount cores : ∀ cores',
  Forall (λ c, 0 ≤ Resource.reserved c) cores →
  reserve_all amount cores = Ok cores' →
  release_all amount cores' = Ok cores.
Proof.
  induction cores as [|c cores IH]; intros cores' Hnn H; cbn in H.
  - by injection H as <-.
  - apply bind_ok in H as (c' & Hc & H).
    apply bind_ok in H as (cs & Hcs & [= <-]).
    apply Forall_cons in Hnn as [Hc0 Hnn]. cbn.
    rewrite (release_undoes_reserve c c' amount Hc0 Hc). cbn.
    by rewrite (IH cs Hnn Hcs).
Qed.

Lemma foldl_available_shift (cores : list Resource.Resource) : ∀ acc,
  foldl (λ available core, available + Resource.get_available core) acc cores
  = acc + foldl (λ available core, available + Resource.get_available core)
            0 cores.
Proof.
  induction cores as [|c cores IH]; intros acc; cbn; [ring|].
  rewrite IH, (IH (0 + _)). ring.
Qed.

Lemma reserve_all_available amount cores : ∀ cores',
  reserve_all amount cores = Ok cores' →
  length cores' = length cores ∧
  foldl (λ available core, available + Resource.get_available core) 0 cores'
  = foldl (λ available core, available + Resource.get_available core) 0 cores
    - Z2Qc (Z.of_nat (length cores)) * amount.
Proof.
  induction cores as [|c cores IH]; intros cores' H; cbn [reserve_all] in H.
  - injection H as <-. split; [done|]. cbn [foldl length].
    change (Z2Qc (Z.of_nat 0)) with (Q2Qc 0). ring.
  - apply bind_ok in H as (c' & Hc & H).
    apply bind_ok in H as (cs & Hcs & [= <-]).
    destruct (IH cs Hcs) as [Hlen Hsum].
    split; [cbn; by rewrite Hlen|].
    cbn [foldl]. rewrite foldl_available_shift, Hsum.
    rewrite (foldl_available_shift cores (0 + _)).
    apply reserve_ok in Hc as (_ & _ & ->). unfold Resource.get_available.
    cbn [Resource.capacity Resource.reserved length].
    rewrite Nat2Z.inj_succ.
    assert (Z2Qc (Z.succ (Z.of_nat (length cores)))
            = Z2Qc (Z.of_nat (length cores)) + 1) as ->.
    { unfold Z2Qc. apply Qc_is_canon. cbn.
      rewrite !Qred_correct. unfold Z.succ. rewrite inject_Z_plus.
      reflexivity. }
    ring.
Qed.

(** [CPU.reserve] takes the amount divided by the number of cores and
    rounded, on every core: what is available on the host goes down by that
    many times the number of cores, which need not be the amount.  With no
    core it divides by zero. *)
Theorem cpu_reserve_per_core (h : Host) (amount : Qc) :
  (cpu h = [] → cpu_reserve amount (cpu h) = Err ZeroDivisionError) ∧
  (∀ cores', cpu_reserve amount (cpu h) = Ok cores' →
     ∃ per_core,
       cpu_requests_per_core amount (cpu h) = Ok per_core ∧
       Forall2 (λ c c', Resource.reserve c per_core = Ok c') (cpu h) cores' ∧
       cpu_get_available (set_cpu cores' h)
       = cpu_get_available h
         - Z2Qc (Z.of_nat (length (cpu h))) * per_core).
Proof.
  split.
  - intros ->. reflexivity.
  - intros cores' H. unfold cpu_reserve in H.
    apply bind_ok in H as (per_core & Hp & H). exists per_core.
    split; [done|]. split; [by apply reserve_all_ok|].
    unfold cpu_get_available. cbn [cpu set_cpu].
    by apply reserve_all_available.
Qed.

Lemma release_all_available amount cores : ∀ cores',
  release_all amount cores = Ok cores' →
  length cores' = length cores ∧
  foldl (λ available core, available + Resource.get_available core) 0 cores'
  = foldl (λ available core, available + Resource.get_available core) 0 cores
    + Z2Qc (Z.of_nat (length cores)) * amount.
Proof.
  induction cores as [|c cores IH]; intros cores' H; cbn [release_all] in H.
  - injection H as <-. split; [done|]. cbn [foldl length].
    change (Z2Qc (Z.of_nat 0)) with (Q2Qc 0). ring.
  - apply bind_ok in H as (c' & Hc & H).
    apply bind_ok in H as (cs & Hcs & [= <-]).
    destruct (IH cs Hcs) as [Hlen Hsum].
    split; [cbn; by rewrite Hlen|].
    cbn [foldl]. rewrite foldl_available_shift, Hsum.
    rewrite (foldl_available_shift cores (0 + _)).
    apply release_ok in Hc as (_ & ->). unfold Resource.get_available.
    cbn [Resource.capacity Resource.reserved length].
    rewrite Nat2Z.inj_succ.
    assert (Z2Qc (Z.succ (Z.of_nat (length cores)))
            = Z2Qc (Z.of_nat (length cores)) + 1) as ->.
    { unfold Z2Qc. apply Qc_is_canon. cbn.
      rewrite !Qred_correct. unfold Z.succ. rewrite inject_Z_plus.
      reflexivity. }
    ring.
Qed.


(** [CPU.release] of the amount that [CPU.reserve] has just taken returns
    and gives back the cores. *)
Theorem cpu_release_reserve (cores cores' : list Resource.Resource)
    (amount : Qc) :
  Forall (λ c, 0 ≤ Resource.reserved c) cores →
  cpu_reserve amount cores = Ok cores' →
  cpu_release amount cores' = Ok cores.
Proof.
  intros Hnn H. unfold cpu_reserve in H.
  apply bind_ok in H as (per_core & Hp & H).
  destruct (reserve_all_available _ _ _ H) as [Hlen _].
  unfold cpu_release, cpu_requests_per_core in *. rewrite Hlen.
  apply bind_ok in Hp as (share & Hs & [= <-]). rewrite Hs. cbn.
  by apply release_all_reserve_all.
Qed.

Lemma cpu_reserve_per_core_witness :
  cpu_reserve (Z2Qc 500) (cpu HostExamples.no_core) = Err ZeroDivisionError.
Proof.
  apply (proj1 (cpu_reserve_per_core HostExamples.no_core (Z2Qc 500))).
  reflexivity.
Defined.

Lemma cpu_release_reserve_witness :
  cpu_release (Z2Qc 500) HostExamples.cores_taken
  = Ok HostExamples.cores_free.
Proof.
  apply (cpu_release_reserve HostExamples.cores_free
           HostExamples.cores_taken (Z2Qc 500)).
  - repeat constructor; by vm_compute.
  - apply (bool_decide_unpack _). by vm_compute.
Defined.

End cpu_reserve_facts.

(** ** [Observable]: who is notified *)

Section observable_subscriptions.
Import Py Observable.

Lemma subscribers_set_observers s e e' os :
  subscribers e' (set_observers s (<[e := os]> (observers s)))
  = if decide (e' = e) then os else subscribers e' s.
Proof.
  unfold subscribers, set_observers. cbn.
  destruct (decide (e' = e)) as [->|Hne].
  - by rewrite lookup_insert_eq.
  - by rewrite lookup_insert_ne.
Qed.

Lemma attach_event_ok oid e s s' :
  attach_event oid e s = Ok s' →
  s' = set_observers s (<[e := {[oid]} ∪ subscribers e s]> (observers s)).
Proof.
  unfold attach_event, subscribers. intros H.
  destruct (observers s !! e) as [os|] eqn:Hlook; cbn in H.
  - rewrite Hlook in H. by injection H as <-.
  - destruct (decide (e ∈ registered_events s)); [|done]. cbn in H.
    rewrite lookup_insert_eq in H. injection H as <-.
    unfold set_observers. cbn. by rewrite insert_insert_eq.
Qed.

Lemma attach_events_subscribers oid evs : ∀ s s',
  attach_events oid evs s = Ok s' →
  notify_observers_on_event s' = notify_observers_on_event s ∧
  ∀ e, subscribers e s'
       = (if decide (e ∈ evs) then {[oid]} ∪ subscribers e s
          else subscribers e s)
       ∧ (is_Some (observers s' !! e)
          ↔ is_Some (observers s !! e) ∨ e ∈ evs).
Proof.
  induction evs as [|e0 evs IH]; intros s s' H; cbn [attach_events] in H.
  - injection H as <-. split; [done|]. intros e.
    rewrite decide_False by apply not_elem_of_nil. split; [done|].
    split; [by left|]. intros [?|?%elem_of_nil]; done.
  - apply bind_ok in H as (s1 & H1%attach_event_ok & H).
    destruct (IH s1 s' H) as [Hflag Hall]. subst s1.
    split; [by rewrite Hflag|]. intros e.
    destruct (Hall e) as [Hsub Hkey].
    rewrite subscribers_set_observers in Hsub. split.
    + rewrite Hsub.
      destruct (decide (e = e0)) as [->|Hne].
      * rewrite (decide_True (P := e0 ∈ e0 :: evs)) by (by left).
        destruct (decide (e0 ∈ evs)); set_solver.
      * destruct (decide (e ∈ evs)) as [Hin|Hin].
        -- by rewrite decide_True by (by right).
        -- rewrite decide_False; [done|].
           intros [?|?]%elem_of_cons; done.
    + rewrite Hkey. unfold set_observers. cbn.
      destruct (decide (e = e0)) as [->|Hne].
      * rewrite lookup_insert_eq. split; [intros _; right; by left|eauto].
      * rewrite lookup_insert_ne by done. rewrite elem_of_cons. tauto.
Qed.

Lemma detach_events_subscribers oid evs : ∀ s s',
  detach_events oid evs s = Ok s' →
  ∀ e, subscribers e s'
       = (if decide (e ∈ evs) then subscribers e s ∖ {[oid]}
          else subscribers e s).
Proof.
  induction evs as [|e0 evs IH]; intros s s' H e; cbn [detach_events] in H.
  - injection H as <-. rewrite decide_False; [done|apply not_elem_of_nil].
  - destruct (observers s !! e0) as [os|] eqn:Hlook; [|done].
    rewrite (IH _ _ H e), subscribers_set_observers.
    assert (subscribers e0 s = os) as Hos.
    { unfold subscribers. by rewrite Hlook. }
    destruct (decide (e = e0)) as [->|Hne].
    + rewrite (decide_True (P := e0 ∈ e0 :: evs)) by (by left).
      rewrite Hos. destruct (decide (e0 ∈ evs)); set_solver.
    + destruct (decide (e ∈ evs)) as [Hin|Hin].
      * by rewrite decide_True by (by right).
      * rewrite decide_False; [done|]. intros [?|?]%elem_of_cons; done.
Qed.

Lemma detach_events_returns oid evs : ∀ s,
  (∀ e, e ∈ evs → is_Some (observers s !! e)) →
  ∃ s', detach_events oid evs s = Ok s'.
Proof.
  induction evs as [|e0 evs IH]; intros s Hkeys; cbn [detach_events].
  - by eexists.
  - destruct (Hkeys e0) as [os Hos]; [by left|]. rewrite Hos.
    apply IH. intros e He. unfold set_observers. cbn.
    destruct (decide (e = e0)) as [->|Hne].
    + rewrite lookup_insert_eq. eauto.
    + rewrite lookup_insert_ne by done. apply Hkeys. by right.
Qed.

Lemma detach_events_missing oid evs : ∀ s e,
  e ∈ evs → observers s !! e = None →
  detach_events oid evs s = Err KeyError.
Proof.
  induction evs as [|e0 evs IH]; intros s e Hin Hnone.
  - by apply elem_of_nil in Hin.
  - cbn [detach_events]. destruct (decide (e0 = e)) as [->|Hne].
    + by rewrite Hnone.
    + destruct (observers s !! e0) as [os|]; [|done].
      apply (IH _ e).
      * apply elem_of_cons in Hin as [->|?]; done.
      * unfold set_observers. cbn. by rewrite lookup_insert_ne.
Qed.

(** An observer that [attach_observer] has attached is notified of each of
    its events, and no observer of any event is lost. *)
Theorem attach_observer_subscribes (o : EventObserver) (s s' : Observable) :
  notify_observers_on_event s = true →
  attach_observer o s = Ok s' →
  (∀ e, e ∈ events o → observer_id o ∈ notify_observers e s') ∧
  (∀ e, notify_observers e s ⊆ notify_observers e s').
Proof.
  intros Hflag H. unfold attach_observer in H.
  destruct (attach_events_subscribers _ _ _ _ H) as [Hflag' Hall].
  assert (Hn : ∀ e t, notify_observers_on_event t = true →
                      notify_observers e t = subscribers e t).
  { intros e t Ht. unfold notify_observers, subscribers. rewrite Ht.
    by destruct (observers t !! e). }
  split.
  - intros e He. rewrite Hn by congruence.
    destruct (Hall e) as [-> _]. rewrite decide_True by done. set_solver.
  - intros e. rewrite !Hn by congruence. destruct (Hall e) as [-> _].
    destruct (decide (e ∈ events o)); set_solver.
Qed.

(** [detach_observer] raises [KeyError] when an event of the observer is no
    key of the observer map; when it returns, the observer is observer of
    none of its events any more and every other observer stays. *)
Theorem detach_observer_unsubscribes (o : EventObserver) (s : Observable) :
  (∀ e, e ∈ events o → observers s !! e = None →
        detach_observer o s = Err KeyError) ∧
  (∀ s', detach_observer o s = Ok s' →
     ∀ e, (e ∈ events o → observer_id o ∉ subscribers e s') ∧
          (∀ other, other ≠ observer_id o →
             other ∈ subscribers e s' ↔ other ∈ subscribers e s)).
Proof.
  split.
  - intros e. apply detach_events_missing.
  - intros s' H e. unfold detach_observer in H.
    rewrite (detach_events_subscribers _ _ _ _ H e). split.
    + intros He. rewrite decide_True by done. set_solver.
    + intros other Hne. destruct (decide (e ∈ events o)); set_solver.
Qed.

(** After [attach_observer], [detach_observer] of the same observer returns
    and leaves each event with the observers it had, less that one. *)
Theorem detach_attach_observer (o : EventObserver) (s s1 : Observable) :
  attach_observer o s = Ok s1 →
  ∃ s2, detach_observer o s1 = Ok s2 ∧
        ∀ e, subscribers e s2
             = if decide (e ∈ events o)
               then subscribers e s ∖ {[observer_id o]}
               else subscribers e s.
Proof.
  intros H. unfold attach_observer in H.
  destruct (attach_events_subscribers _ _ _ _ H) as [_ Hall].
  destruct (detach_events_returns (observer_id o) (events o) s1) as [s2 H2].
  { intros e He. apply (Hall e). by right. }
  exists s2. split; [done|]. intros e.
  rewrite (detach_events_subscribers _ _ _ _ H2 e).
  destruct (Hall e) as [-> _].
  destruct (decide (e ∈ events o)); set_solver.
Qed.

(** Attaching an observer a second time changes nothing. *)
Theorem attach_observer_twice (o : EventObserver) (s s1 : Observable) :
  attach_observer o s = Ok s1 →
  ∃ s2, attach_observer o s1 = Ok s2 ∧
        ∀ e, subscribers e s2 = subscribers e s1.
Proof.
  intros H. unfold attach_observer in *.
  destruct (attach_events_subscribers _ _ _ _ H) as [_ Hall].
  assert (∃ s2, attach_events (observer_id o) (events o) s1 = Ok s2)
    as [s2 H2].
  { clear H. assert (Hkeys : ∀ e, e ∈ events o → is_Some (observers s1 !! e)).
    { intros e He. apply (Hall e). by right. }
    clear Hall. revert s1 Hkeys.
    induction (events o) as [|e0 evs IH]; intros s1 Hkeys;
      cbn [attach_events]; [by eexists|].
    destruct (attach_event_cases (observer_id o) e0 s1)
      as [(Hnone & _ & _)|(_ & os & Hos)].
    - destruct (Hkeys e0) as [? ?]; [by left|congruence].
    - rewrite Hos. cbn. apply IH. intros e He. unfold set_observers. cbn.
      destruct (decide (e = e0)) as [->|Hne].
      + rewrite lookup_insert_eq. eauto.
      + rewrite lookup_insert_ne by done. apply Hkeys. by right. }
  exists s2. split; [done|]. intros e.
  destruct (attach_events_subscribers _ _ _ _ H2) as [_ Hall2].
  destruct (Hall2 e) as [-> _]. destruct (Hall e) as [-> _].
  destruct (decide (e ∈ events o)); set_solver.
Qed.

End observable_subscriptions.

Section observable_subscriptions_witnesses.
Import Py Observable ObservableExamples.

Lemma attach_logger : attach_observer logger traffic = Ok traffic_logged.
Proof. by vm_compute. Qed.

Lemma attach_observer_subscribes_witness :
  observer_id logger ∈ notify_observers "before_traffic_start" traffic_logged.
Proof.
  apply (proj1 (attach_observer_subscribes logger traffic traffic_logged
                  eq_refl attach_logger)).
  by left.
Defined.

Lemma detach_observer_unsubscribes_witness :
  detach_observer logger traffic = Err KeyError.
Proof.
  apply (proj1 (detach_observer_unsubscribes logger traffic)
           "before_traffic_start").
  - by left.
  - reflexivity.
Defined.

Lemma detach_attach_observer_witness :
  ∃ s2, detach_observer logger traffic_logged = Ok s2 ∧
        ∀ e, subscribers e s2
             = if decide (e ∈ events logger)
               then subscribers e traffic ∖ {[observer_id logger]}
               else subscribers e traffic.
Proof.
  exact (detach_attach_observer logger traffic traffic_logged attach_logger).
Defined.

Lemma attach_observer_twice_witness :
  ∃ s2, attach_observer logger traffic_logged = Ok s2 ∧
        ∀ e, subscribers e s2 = subscribers e traffic_logged.
Proof.
  exact (attach_observer_twice logger traffic traffic_logged attach_logger).
Defined.

End observable_subscriptions_witnesses.

(** ** [Microservice] and [Process]: kinds and the request of a thread *)

Section microservice_kinds.
Import Py.

Lemma microservice_kinds (ms : Microservice.Microservice) :
  (Nat.b2n (Microservice.is_best_effort ms)
   + Nat.b2n (Microservice.is_guaranteed ms)
   + Nat.b2n (Microservice.is_unlimited_burstable ms)
   + Nat.b2n (Microservice.is_limited_burstable ms) = 1)%nat ∧
  Microservice.is_burstable ms
  = Microservice.is_unlimited_burstable ms
    || (Microservice.is_limited_burstable ms
        && bool_decide (Microservice.cpu_requests ms ≠ -(1))).
Proof.
  unfold Microservice.is_best_effort, Microservice.is_guaranteed,
    Microservice.is_unlimited_burstable, Microservice.is_limited_burstable,
    Microservice.is_burstable.
  destruct (decide (Microservice.cpu_limits ms = Microservice.cpu_requests ms))
    as [E|E];
  destruct (decide (Microservice.cpu_requests ms = -(1))) as [E1|E1];
  destruct (decide (Microservice.cpu_limits ms = -(1))) as [E2|E2];
  repeat first
    [ rewrite (bool_decide_eq_true_2 _ E) | rewrite (bool_decide_eq_false_2 _ E)
    | rewrite (bool_decide_eq_true_2 _ E1)
    | rewrite (bool_decide_eq_false_2 _ E1)
    | rewrite (bool_decide_eq_true_2 _ E2)
    | rewrite (bool_decide_eq_false_2 _ E2)
    | rewrite (bool_decide_eq_true_2 (_ ≠ _)) by done
    | rewrite (bool_decide_eq_false_2 (_ ≠ _)) by (by intros H; apply H) ];
  cbn; try done; exfalso; congruence.
Qed.

(** A microservice is of exactly one of the four kinds that
    [get_cpu_request_per_thread] tells apart: best effort, guaranteed,
    unlimited burstable or limited burstable.  [is_burstable] holds exactly
    when it is unlimited burstable, or limited burstable with a request. *)
Theorem microservice_one_kind (ms : Microservice.Microservice) :
  (Microservice.is_best_effort ms = true ∨ Microservice.is_guaranteed ms = true
   ∨ Microservice.is_unlimited_burstable ms = true
   ∨ Microservice.is_limited_burstable ms = true) ∧
  (Nat.b2n (Microservice.is_best_effort ms)
   + Nat.b2n (Microservice.is_guaranteed ms)
   + Nat.b2n (Microservice.is_unlimited_burstable ms)
   + Nat.b2n (Microservice.is_limited_burstable ms) = 1)%nat ∧
  Microservice.is_burstable ms
  = Microservice.is_unlimited_burstable ms
    || (Microservice.is_limited_burstable ms
        && bool_decide (Microservice.cpu_requests ms ≠ -(1))).
Proof.
  destruct (microservice_kinds ms) as [Hone Hb]. split; [|by split].
  destruct (Microservice.is_best_effort ms),
    (Microservice.is_guaranteed ms),
    (Microservice.is_unlimited_burstable ms),
    (Microservice.is_limited_burstable ms); cbn in Hone; try lia; tauto.
Qed.

Lemma Z2Qc_of_nat_nonzero (n : nat) : n ≠ 0%nat → Z2Qc (Z.of_nat n) ≠ 0.
Proof.
  intros Hn E. apply (f_equal this) in E. unfold Z2Qc in E. cbn [this Q2Qc] in E.
  apply Qred_eq_iff in E. unfold Qeq, inject_Z in E. cbn in E. lia.
Qed.

(** [get_cpu_request_per_thread] never raises: it returns [None] for a
    process without active threads and otherwise a request of at most
    [max_cpu_requests]. *)
Theorem get_cpu_request_per_thread_returns (max_cpu_requests : Qc)
    (p : Process.Process) :
  (Process.active_threads_count p = 0%nat →
   Process.get_cpu_request_per_thread max_cpu_requests p = Ok None) ∧
  (Process.active_threads_count p ≠ 0%nat →
   ∃ v, Process.get_cpu_request_per_thread max_cpu_requests p = Ok (Some v)
        ∧ v ≤ max_cpu_requests).
Proof.
  unfold Process.get_cpu_request_per_thread. split.
  - intros E. by rewrite decide_True.
  - intros Hn. rewrite decide_False by done.
    pose proof (Z2Qc_of_nat_nonzero _ Hn) as Hc.
    destruct (microservice_kinds (Process.microservice p)) as [Hone _].
    unfold div. rewrite !(decide_False (P := _ = 0)) by done.
    destruct (Microservice.is_unlimited_burstable (Process.microservice p)),
      (Microservice.is_guaranteed (Process.microservice p)),
      (Microservice.is_limited_burstable (Process.microservice p)),
      (Microservice.is_best_effort (Process.microservice p));
      cbn in Hone; try lia; cbn; eexists; (split; [reflexivity|]);
      unfold Py.min; case_bool_decide; try apply Qcle_refl;
      by apply Qcnot_lt_le.
Qed.

Lemma get_cpu_request_per_thread_returns_witness :
  ∃ v, Process.get_cpu_request_per_thread (Z2Qc 1000)
         ProcessExamples.guaranteed_two_threads = Ok (Some v)
       ∧ v ≤ Z2Qc 1000.
Proof.
  apply (proj2 (get_cpu_request_per_thread_returns (Z2Qc 1000)
                  ProcessExamples.guaranteed_two_threads)).
  cbn. lia.
Defined.

End microservice_kinds.

(** ** [ThreadSet] and [RunQueue]: the sets of active threads *)

Section thread_sets.
Import Py RunQueue.

Lemma thread_set_set_thread_set k k' s rq :
  (k < 5)%nat → (k' < 5)%nat →
  thread_set k' (set_thread_set k s rq)
  = if decide (k' = k) then s else thread_set k' rq.
Proof.
  intros Hk Hk'.
  destruct k as [|[|[|[|[|?]]]]]; try lia;
    destruct k' as [|[|[|[|[|?]]]]]; try lia; reflexivity.
Qed.

Lemma elem_of_set_add tid t l : t ∈ set_add tid l ↔ t = tid ∨ t ∈ l.
Proof.
  unfold set_add. destruct (decide (tid ∈ l)) as [Hin|Hin].
  - split; [by right|]. by intros [->|?].
  - rewrite elem_of_app, list_elem_of_singleton. tauto.
Qed.

Lemma NoDup_set_add tid l : NoDup l → NoDup (set_add tid l).
Proof.
  intros Hnd. unfold set_add. destruct (decide (tid ∈ l)) as [Hin|Hin];
    [done|].
  apply NoDup_app. split; [done|]. split; [|apply NoDup_singleton].
  intros x Hx ->%list_elem_of_singleton. done.
Qed.

Lemma remove_first_last (tid : nat) l :
  tid ∉ l → remove_first tid (l ++ [tid]) = Some l.
Proof.
  induction l as [|x l IH]; intros Hin; cbn.
  - by rewrite decide_True.
  - apply not_elem_of_cons in Hin as [Hne Hin].
    rewrite decide_False by done. by rewrite IH.
Qed.

Lemma sum_shares_same s s' l :
  threads s' = threads s → sum_shares s' l = sum_shares s l.
Proof.
  intros E. unfold sum_shares, share_of. by rewrite E.
Qed.

Lemma sum_shares_last s l tid th :
  threads s !! tid = Some th →
  sum_shares s (l ++ [tid])
  = sum_shares s l + ReplicaThread.cpu_requests_share th.
Proof.
  intros Hth. unfold sum_shares. induction l as [|x l IH]; cbn [foldr app].
  - unfold share_of. rewrite Hth. cbn. ring.
  - rewrite IH. ring.
Qed.

(** What [ThreadSet.add] leaves. *)
Lemma thread_set_add_ok k tid rq rq' :
  (k < 5)%nat → thread_set_add k tid rq = Ok rq' →
  ∃ th, threads rq !! tid = Some th ∧ threads rq' = threads rq ∧
    thread_set_dict rq'
    = <[tid := {[k]} ∪ default ∅ (thread_set_dict rq !! tid)]>
        (thread_set_dict rq) ∧
    ∀ k', (k' < 5)%nat →
      thread_set k' rq'
      = if decide (k' = k) then
          {| ThreadSet.members :=
               set_add tid (ThreadSet.members (thread_set k rq));
             ThreadSet.sum_cpu_requests :=
               ThreadSet.sum_cpu_requests (thread_set k rq)
               + ReplicaThread.cpu_requests_share th |}
        else thread_set k' rq.
Proof.
  intros Hk H. unfold thread_set_add in H.
  apply bind_ok in H as (th & Hth%get_ok & [= <-]). exists th.
  split; [done|]. split; [done|]. split; [done|].
  intros k' Hk'.
  change (thread_set k' (set_thread_set_dict ?d ?r)) with (thread_set k' r).
  by rewrite thread_set_set_thread_set.
Qed.

Lemma thread_set_add_returns k tid rq th :
  threads rq !! tid = Some th → is_ok (thread_set_add k tid rq) = true.
Proof.
  intros Hth%get_ok. unfold thread_set_add. by rewrite Hth.
Qed.

Lemma thread_set_add_well_formed k tid rq rq' :
  (k < 5)%nat → well_formed rq →
  (k = 3%nat → tid ∈ ThreadSet.members (thread_set 2 rq)) →
  thread_set_add k tid rq = Ok rq' → well_formed rq'.
Proof.
  intros Hk Hwf H3 H.
  destruct (thread_set_add_ok _ _ _ _ Hk H) as (th & Hth & Hthr & Hd & Hs).
  split.
  - intros t k' Hk'. rewrite (Hs k' Hk'), Hd.
    destruct (decide (t = tid)) as [->|Hne].
    + rewrite lookup_insert_eq.
      assert (tid ∈ ThreadSet.members (thread_set k' rq)
              ↔ k' ∈ default ∅ (thread_set_dict rq !! tid)) as Hold.
      { rewrite (wf_dict _ Hwf tid k' Hk').
        destruct (thread_set_dict rq !! tid) as [sets|]; cbn.
        - split; [by intros (? & [= <-] & ?)|eauto].
        - split; [by intros (? & ? & ?)|set_solver]. }
      destruct (decide (k' = k)) as [->|Hkk]; cbn.
      * rewrite elem_of_set_add. split; [|by left].
        intros _. eexists. split; [done|]. set_solver.
      * rewrite Hold. split.
        -- intros Hin. eexists. split; [done|]. set_solver.
        -- intros (? & [= <-] & Hin). set_solver.
    + rewrite lookup_insert_ne by done.
      destruct (decide (k' = k)) as [->|Hkk]; cbn.
      * rewrite elem_of_set_add, <- (wf_dict _ Hwf t k Hk). tauto.
      * apply (wf_dict _ Hwf t k' Hk').
  - intros k'. destruct (decide (k' < 5)%nat) as [Hk'|Hk'].
    + rewrite (Hs k' Hk'). destruct (decide (k' = k)) as [->|?]; cbn.
      * apply NoDup_set_add, (wf_nodup _ Hwf).
      * apply (wf_nodup _ Hwf).
    + assert (thread_set k' rq' = thread_set 4 rq') as ->.
      { by destruct k' as [|[|[|[|[|?]]]]]; try lia. }
      rewrite (Hs 4%nat) by lia. destruct (decide (4%nat = k)) as [<-|?]; cbn.
      * apply NoDup_set_add, (wf_nodup _ Hwf 4%nat).
      * apply (wf_nodup _ Hwf 4%nat).
  - change (ThreadSet.members (thread_set 3 rq')
            ⊆ ThreadSet.members (thread_set 2 rq')).
    rewrite (Hs 3%nat), (Hs 2%nat) by lia.
    pose proof (wf_unlimited _ Hwf) as Hsub.
    change (ThreadSet.members (thread_set 3 rq)
            ⊆ ThreadSet.members (thread_set 2 rq)) in Hsub.
    intros t. destruct (decide (3%nat = k)) as [E3|E3];
      destruct (decide (2%nat = k)) as [E2|E2]; try lia; cbn.
    + rewrite elem_of_set_add.
      intros [->|Ht]; [apply H3; lia|]. apply Hsub. by rewrite E3.
    + rewrite elem_of_set_add. intros Ht. right. rewrite <- E2.
      by apply Hsub.
    + apply Hsub.
Qed.

Lemma thread_set_add_offset k tid rq rq' :
  (k < 5)%nat → tid ∉ ThreadSet.members (thread_set k rq) →
  thread_set_add k tid rq = Ok rq' →
  ∀ k', (k' < 5)%nat → offset k' rq' = offset k' rq.
Proof.
  intros Hk Hin H k' Hk'.
  destruct (thread_set_add_ok _ _ _ _ Hk H) as (th & Hth & Hthr & Hd & Hs).
  unfold offset. rewrite (Hs k' Hk'), (sum_shares_same rq rq') by done.
  destruct (decide (k' = k)) as [->|?]; [|done].
  cbn [ThreadSet.members ThreadSet.sum_cpu_requests].
  unfold set_add. rewrite decide_False by done.
  rewrite (sum_shares_last _ _ _ th) by done. ring.
Qed.




(** [categorize_thread_into_sets] keeps the sets well formed. *)
Theorem categorize_keeps_well_formed (tid : nat) (rq rq' : RunQueue) :
  well_formed rq → categorize_thread_into_sets tid rq = Ok rq' →
  well_formed rq'.
Proof.
  intros Hwf H. unfold categorize_thread_into_sets in H.
  apply bind_ok in H as (th & Hth & H).
  destruct (Microservice.is_best_effort _).
  { eapply (thread_set_add_well_formed 0); [lia|done|lia|done]. }
  destruct (Microservice.is_guaranteed _).
  { eapply (thread_set_add_well_formed 1); [lia|done|lia|done]. }
  destruct (Microservice.is_burstable _); [|done].
  apply bind_ok in H as (rq1 & H1 & H).
  assert (Hwf1 : well_formed rq1).
  { eapply (thread_set_add_well_formed 2); [lia|done|lia|done]. }
  assert (Hin : tid ∈ ThreadSet.members (thread_set 2 rq1)).
  { destruct (thread_set_add_ok 2 _ _ _ ltac:(lia) H1) as (th1 & _ & _ & _ & Hs).
    rewrite (Hs 2%nat) by lia. cbn. apply elem_of_set_add. by left. }
  destruct (Microservice.is_unlimited_burstable _).
  - by eapply (thread_set_add_well_formed 3); [lia|done| |done].
  - eapply (thread_set_add_well_formed 4); [lia|done|lia|done].
Qed.

(** When every cached sum is the sum of the shares of its set, it still is
    after [categorize_thread_into_sets] has added a thread that was in no
    set. *)
Theorem categorize_keeps_sums_exact (tid : nat) (rq rq' : RunQueue) :
  sums_exact rq → uncategorized tid rq →
  categorize_thread_into_sets tid rq = Ok rq' → sums_exact rq'.
Proof.
  intros Hex Hun H k Hk. rewrite <- (Hex k Hk).
  unfold categorize_thread_into_sets in H.
  apply bind_ok in H as (th & Hth & H).
  destruct (Microservice.is_best_effort _).
  { eapply (thread_set_add_offset 0); [lia|apply Hun; lia|done|done]. }
  destruct (Microservice.is_guaranteed _).
  { eapply (thread_set_add_offset 1); [lia|apply Hun; lia|done|done]. }
  destruct (Microservice.is_burstable _); [|done].
  apply bind_ok in H as (rq1 & H1 & H).
  assert (Hun1 : ∀ k', (k' = 3 ∨ k' = 4)%nat →
            tid ∉ ThreadSet.members (thread_set k' rq1)).
  { intros k' Hk'.
    destruct (thread_set_add_ok 2 _ _ _ ltac:(lia) H1) as (th1 & _ & _ & _ & Hs).
    rewrite (Hs k') by lia. rewrite decide_False by lia. apply Hun. lia. }
  transitivity (offset k rq1).
  - destruct (Microservice.is_unlimited_burstable _).
    + eapply (thread_set_add_offset 3); [lia|apply Hun1; lia|done|done].
    + eapply (thread_set_add_offset 4); [lia|apply Hun1; lia|done|done].
  - eapply (thread_set_add_offset 2); [lia|apply Hun; lia|done|done].
Qed.




End thread_sets.

Section thread_sets_witnesses.
Import Py RunQueue ThreadSetExamples.

Lemma uncategorized_pair_well_formed : well_formed uncategorized_pair.
Proof.
  split.
  - intros tid k Hk. split.
    + destruct k as [|[|[|[|?]]]]; cbn; by intros ?%elem_of_nil.
    + intros (sets & H & _). cbn in H. by rewrite lookup_empty in H.
  - intros k. destruct k as [|[|[|[|?]]]]; cbn; constructor.
  - cbn. set_solver.
Qed.

Lemma uncategorized_pair_sums_exact : sums_exact uncategorized_pair.
Proof.
  intros k Hk. destruct k as [|[|[|[|[|?]]]]]; try lia;
    apply (bool_decide_unpack _); by vm_compute.
Qed.

Lemma uncategorized_pair_uncategorized tid : uncategorized tid uncategorized_pair.
Proof.
  intros k Hk. destruct k as [|[|[|[|?]]]]; cbn; apply not_elem_of_nil.
Qed.

Lemma categorize_first :
  categorize_thread_into_sets 0 uncategorized_pair = Ok first_categorized.
Proof. by vm_compute. Qed.

Lemma categorize_keeps_well_formed_witness :
  well_formed uncategorized_pair ∧ well_formed first_categorized.
Proof.
  split; [exact uncategorized_pair_well_formed|].
  exact (categorize_keeps_well_formed 0 uncategorized_pair first_categorized
           uncategorized_pair_well_formed categorize_first).
Defined.

Lemma categorize_keeps_sums_exact_witness :
  sums_exact uncategorized_pair ∧ sums_exact first_categorized.
Proof.
  split; [exact uncategorized_pair_sums_exact|].
  exact (categorize_keeps_sums_exact 0 uncategorized_pair first_categorized
           uncategorized_pair_sums_exact
           (uncategorized_pair_uncategorized 0) categorize_first).
Defined.


End thread_sets_witnesses.

(** ** [RunQueue]: shares and cached sums *)

Section run_queue_shares.
Import Py RunQueue.

Lemma same_queue_requested s s' tid :
  same_queue s s' → (requested s tid ↔ requested s' tid).
Proof.
  intros Hs. split; apply requested_same; [done|by apply same_queue_sym].
Qed.



Lemma assign_fair_share_result f tids : ∀ s t,
  assign_fair_share f tids s = Ok t →
  ∀ tid, share_of t tid
         = if decide (tid ∈ tids) then Some (clamp (max_cpu_requests s) f)
           else share_of s tid.
Proof.
  induction tids as [|x tids IH]; intros s t H tid;
    cbn [assign_fair_share] in H.
  - assert (s = t) as <- by congruence.
    rewrite decide_False; [done|]. apply not_elem_of_nil.
  - apply bind_ok in H as (s1 & Ha & H).
    pose proof (assign_cpu_requests_share_same _ _ _ _ Ha) as Hs1.
    apply assign_cpu_requests_share_ok in Ha as (c & [= <-] & Hset).
    destruct (set_cpu_requests_share_ok _ _ _ _ Hset)
      as (_ & _ & _ & _ & _ & _ & Hsh & _).
    rewrite (IH s1 t H tid), Hsh, <- (same_max _ _ Hs1).
    destruct (decide (tid ∈ tids)) as [Hin|Hin].
    + by rewrite decide_True by (by right).
    + destruct (decide (tid = x)) as [->|Hne].
      * by rewrite decide_True by (by left).
      * rewrite decide_False; [done|]. intros [?|?]%elem_of_cons; done.
Qed.

(** The stages of [recalculate_cpu_requests_shares]: the shares after the
    loops over the guaranteed and the burstable threads ([a2]), after the
    loop over the burstable unlimited ones ([a3]), and at the end. *)
Lemma recalculate_stages rq rq' :
  well_formed rq → active_threads rq ≠ [] →
  recalculate_cpu_requests_shares rq = Ok rq' →
  ∃ a2 a3,
    (∀ tid, tid ∈ ThreadSet.members (guaranteed_active_threads rq)
            ∨ tid ∈ ThreadSet.members (burstable_active_threads rq) →
            share_of a2 tid = Some (request_of rq tid)) ∧
    (∀ tid, tid ∉ ThreadSet.members (guaranteed_active_threads rq) →
            tid ∉ ThreadSet.members (burstable_active_threads rq) →
            share_of a2 tid = share_of rq tid) ∧
    (∀ tid, tid ∉ ThreadSet.members (burstable_unlimited_active_threads rq) →
            share_of a3 tid = share_of a2 tid) ∧
    ((∀ tid, share_of rq' tid = share_of a3 tid) ∨
     (∃ fair,
        ∀ tid, share_of rq' tid
               = if decide (tid ∈ ThreadSet.members
                                    (best_effort_active_threads rq))
                 then Some (clamp (max_cpu_requests rq) fair)
                 else share_of a3 tid)).
Proof.
  intros Hwf Hact H. unfold recalculate_cpu_requests_shares in H.
  rewrite decide_False in H by (by destruct (active_threads rq)).
  cbn zeta in H.
  set (s0 := set_remaining_millicores (max_cpu_requests rq) rq) in *.
  assert (Hs0 : same_queue rq s0) by apply same_queue_set_remaining.
  assert (Hwf0 : well_formed s0) by (by eapply well_formed_same).
  apply bind_ok in H as (a1 & Ha1 & H).
  apply bind_ok in H as (a2 & Ha2 & H).
  apply bind_ok in H as (a3 & Ha3 & H).
  set (GL := ThreadSet.members (thread_set 1 rq)).
  set (BL := ThreadSet.members (thread_set 2 rq)).
  set (UL := ThreadSet.members (thread_set 3 rq)).
  set (EL := ThreadSet.members (thread_set 0 rq)).
  change (ThreadSet.members (guaranteed_active_threads s0)) with GL in Ha1.
  pose proof (assign_requests_shares_set _ _ _ Ha1) as C1.
  pose proof (shares_set_same _ _ _ Hwf0 C1) as Hq1.
  assert (Hwf1 : well_formed a1) by (by eapply well_formed_same).
  assert (HBL : ThreadSet.members (burstable_active_threads a1) = BL).
  { symmetry.
    apply (same_members _ _ (same_queue_trans _ _ _ Hs0 Hq1) 2%nat). }
  rewrite HBL in Ha2.
  pose proof (assign_requests_shares_set _ _ _ Ha2) as C2.
  pose proof (shares_set_same _ _ _ Hwf1 C2) as Hq2.
  assert (Hqa2 : same_queue rq a2).
  { exact (same_queue_trans _ _ _ Hs0 (same_queue_trans _ _ _ Hq1 Hq2)). }
  assert (Hwf2 : well_formed a2) by (by eapply well_formed_same).
  set (s3 := set_remaining_millicores _ a2) in *.
  assert (Hq3 : same_queue a2 s3) by apply same_queue_set_remaining.
  assert (Hqs3 : same_queue rq s3) by (by eapply same_queue_trans).
  assert (Hwf3 : well_formed s3) by (by eapply well_formed_same).
  assert (HULs : ThreadSet.members (burstable_unlimited_active_threads s3)
                 = UL).
  { symmetry. apply (same_members _ _ Hqs3 3%nat). }
  rewrite HULs in Ha3.
  pose proof (share_remaining_shares_set _ _ _ Ha3) as C3.
  destruct (shares_set_facts _ _ _ Hwf3 C3) as (Hq4 & _ & Hframe3).
  assert (Hqa3 : same_queue rq a3) by (by eapply same_queue_trans).
  set (s5 := set_remaining_millicores _ a3) in *.
  assert (Hq5 : same_queue a3 s5) by apply same_queue_set_remaining.
  assert (Hqs5 : same_queue rq s5) by (by eapply same_queue_trans).
  assert (HELs : ThreadSet.members (best_effort_active_threads s5) = EL).
  { symmetry. apply (same_members _ _ Hqs5 0%nat). }
  rewrite HELs in H.
  exists a2, a3. split; [|split; [|split]].
  - intros tid Htid.
    rewrite (assign_requests_result _ _ _ Hwf1 Ha2 tid).
    destruct (decide (tid ∈ BL)) as [Hb|Hb].
    + by rewrite (request_of_same_queue _ _ _
                    (same_queue_trans _ _ _ Hs0 Hq1)).
    + rewrite (assign_requests_result _ _ _ Hwf0 Ha1 tid).
      destruct Htid as [Hg|?]; [|done]. rewrite decide_True by done.
      by rewrite (request_of_same_queue _ _ _ Hs0).
  - intros tid Hg Hb.
    rewrite (assign_requests_result _ _ _ Hwf1 Ha2 tid).
    rewrite decide_False by done.
    rewrite (assign_requests_result _ _ _ Hwf0 Ha1 tid).
    by rewrite decide_False by done.
  - intros tid Htid. by rewrite (Hframe3 tid Htid).
  - destruct (_ && _).
    + right. apply bind_ok in H as (fair & _ & H).
      apply bind_ok in H as (a5 & Ha5 & H).
      assert (rq' = set_remaining_millicores
                      (remaining_millicores a5
                       - fair * Z2Qc (Z.of_nat (length EL))) a5) as ->
        by congruence.
      exists fair. intros tid. rewrite share_of_set_remaining.
      rewrite (assign_fair_share_result _ _ _ _ Ha5 tid).
      change (max_cpu_requests s5) with (max_cpu_requests a3).
      by rewrite <- (same_max _ _ Hqa3).
    + left. assert (rq' = s5) as -> by congruence. done.
Qed.

(** After [recalculate_cpu_requests_shares], a guaranteed or burstable
    thread that is neither burstable unlimited nor best effort has the
    request per thread of its process as its share. *)
Theorem recalculate_gives_requests (rq rq' : RunQueue) (tid : nat) :
  well_formed rq → active_threads rq ≠ [] →
  recalculate_cpu_requests_shares rq = Ok rq' →
  tid ∈ ThreadSet.members (guaranteed_active_threads rq)
  ∨ tid ∈ ThreadSet.members (burstable_active_threads rq) →
  tid ∉ ThreadSet.members (burstable_unlimited_active_threads rq) →
  tid ∉ ThreadSet.members (best_effort_active_threads rq) →
  share_of rq' tid = Some (request_of rq tid).
Proof.
  intros Hwf Hact H Hin Hnu Hne.
  destruct (recalculate_stages _ _ Hwf Hact H)
    as (a2 & a3 & H2 & _ & H3 & [Hend|[fair Hend]]);
    rewrite (Hend tid), ?decide_False by done;
    by rewrite (H3 tid Hnu), (H2 tid Hin).
Qed.

(** [recalculate_cpu_requests_shares] treats the best effort threads
    alike: either it leaves the share of each of them as it was, or it
    gives them all one share, at most the maximum of the core. *)
Theorem recalculate_best_effort_alike (rq rq' : RunQueue) :
  well_formed rq → active_threads rq ≠ [] →
  (∀ tid, tid ∈ ThreadSet.members (best_effort_active_threads rq) →
          ¬ requested rq tid) →
  recalculate_cpu_requests_shares rq = Ok rq' →
  (∀ tid, tid ∈ ThreadSet.members (best_effort_active_threads rq) →
          share_of rq' tid = share_of rq tid) ∨
  (∃ v, v ≤ max_cpu_requests rq ∧
        ∀ tid, tid ∈ ThreadSet.members (best_effort_active_threads rq) →
               share_of rq' tid = Some v).
Proof.
  intros Hwf Hact Hbe H.
  destruct (recalculate_stages _ _ Hwf Hact H)
    as (a2 & a3 & _ & H2 & H3 & [Hend|[fair Hend]]).
  - left. intros tid Htid. rewrite (Hend tid), (H3 tid), (H2 tid); [done|..].
    + intros Hg. apply (Hbe tid Htid). exists 1%nat. split; [lia|done].
    + intros Hg. apply (Hbe tid Htid). exists 2%nat. split; [lia|done].
    + intros Hg. apply (Hbe tid Htid). exists 3%nat. split; [lia|done].
  - right. exists (clamp (max_cpu_requests rq) fair). split.
    + unfold clamp. case_bool_decide; [done|apply Qcle_refl].
    + intros tid Htid. by rewrite (Hend tid), decide_True.
Qed.

End run_queue_shares.

Section run_queue_shares_witnesses.
Import Py RunQueue RunQueueExamples RunQueueMoreExamples.


Lemma guaranteed_and_best_effort_well_formed :
  well_formed guaranteed_and_best_effort.
Proof.
  split.
  - intros tid k Hk.
    assert (Hd : ∀ sets,
      thread_set_dict guaranteed_and_best_effort !! tid = Some sets
      ↔ (tid = 0%nat ∧ sets = {[1%nat]}) ∨ (tid = 1%nat ∧ sets = {[0%nat]})
        ∨ (tid = 2%nat ∧ sets = {[0%nat]})).
    { intros sets. unfold guaranteed_and_best_effort; cbn [thread_set_dict].
      rewrite !lookup_insert_Some, lookup_singleton_Some. naive_solver. }
    setoid_rewrite Hd.
    destruct k as [|[|[|[|[|]]]]]; try lia;
      cbn [thread_set guaranteed_and_best_effort best_effort_active_threads
           guaranteed_active_threads burstable_active_threads
           burstable_unlimited_active_threads
           burstable_limited_active_threads set_of ThreadSet.members];
      rewrite ?elem_of_cons, ?elem_of_nil.
    all: split; [intros H|intros (sets & [[-> ->]|[[-> ->]|[-> ->]]] & H)].
    all: try (exfalso; set_solver).
    all: try naive_solver set_solver.
  - intros k. destruct k as [|[|[|[|?]]]]; cbn; repeat constructor; set_solver.
  - cbn. set_solver.
Qed.



Lemma recalculate_gives_requests_witness :
  share_of burstable_pair_shared 1 = Some (request_of burstable_pair 1).
Proof.
  apply (recalculate_gives_requests burstable_pair burstable_pair_shared 1).
  - exact burstable_pair_well_formed.
  - discriminate.
  - by vm_compute.
  - right. cbn. set_solver.
  - cbn. set_solver.
  - cbn. set_solver.
Defined.

Lemma recalculate_best_effort_alike_witness :
  (∀ tid,
     tid ∈ ThreadSet.members
             (best_effort_active_threads guaranteed_and_best_effort) →
     share_of guaranteed_and_best_effort_shared tid
     = share_of guaranteed_and_best_effort tid) ∨
  (∃ v, v ≤ max_cpu_requests guaranteed_and_best_effort ∧
        ∀ tid,
          tid ∈ ThreadSet.members
                  (best_effort_active_threads guaranteed_and_best_effort) →
          share_of guaranteed_and_best_effort_shared tid = Some v).
Proof.
  apply (recalculate_best_effort_alike guaranteed_and_best_effort
           guaranteed_and_best_effort_shared).
  - exact guaranteed_and_best_effort_well_formed.
  - discriminate.
  - intros tid Htid (k & Hk & Hin).
    destruct k as [|[|[|[|?]]]]; try lia; cbn in Htid, Hin; set_solver.
  - by vm_compute.
Defined.

End run_queue_shares_witnesses.

(** ** [Cluster]: the next event and the threads that end before it *)

Section next_event_facts.
Import Py LoadGenerator.

Lemma ext_ltb_irrefl x : ext_ltb x x = false.
Proof.
  destruct x as [a|]; cbn; [|done].
  apply bool_decide_eq_false_2. intros H%Qclt_not_eq. by apply H.
Qed.

(** [y <= x] and [z <= y] give [z <= x], on the extended numbers. *)
Lemma ext_not_ltb_trans x y z :
  ext_ltb x y = false → ext_ltb y z = false → ext_ltb x z = false.
Proof.
  destruct x as [a|], y as [b|], z as [c|]; cbn; try done.
  rewrite !bool_decide_eq_false. intros H1%Qcnot_lt_le H2%Qcnot_lt_le.
  apply Qcle_not_lt. by eapply Qcle_trans.
Qed.

Lemma ext_ltb_asym x y : ext_ltb x y = true → ext_ltb y x = false.
Proof.
  destruct x as [a|], y as [b|]; cbn; try done.
  rewrite bool_decide_eq_true, bool_decide_eq_false.
  intros H. apply Qcle_not_lt. by apply Qclt_le_weak.
Qed.

Lemma ends_sooner_loop_earliest now threads : ∀ t d f t' d' f',
  ends_sooner_loop now threads (t, d, f) = Ok (t', d', f') →
  ext_ltb t t' = false ∧
  (∀ th, th ∈ threads → on_runqueue th = true →
         ext_ltb (Fin (exec_time_on_rq th + now)) t' = false) ∧
  ((t' = t ∧ d' = d ∧ f' = f) ∨
   (∃ th, th ∈ threads ∧ on_runqueue th = true ∧
          t' = Fin (exec_time_on_rq th + now) ∧
          d' = Fin (exec_time_on_rq th) ∧ f' = false ∧
          ext_ltb t' t = true)).
Proof.
  induction threads as [|th threads IH]; intros t d f t' d' f' H;
    cbn [ends_sooner_loop] in H.
  - injection H as <- <- <-.
    split; [apply ext_ltb_irrefl|]. split; [|by left].
    intros th Hth. by apply elem_of_nil in Hth.
  - destruct (on_runqueue th) eqn:Hon.
    + destruct (ext_ltb t (Fin now)); [done|].
      destruct (ext_ltb (Fin (exec_time_on_rq th + now)) t) eqn:Hlt.
      * destruct (IH _ _ _ _ _ _ H) as (Hle & Hall & Hcase).
        split; [|split].
        -- destruct Hcase as [(-> & _ & _)|(th' & _ & _ & _ & _ & _ & Hlt')].
           ++ by apply ext_ltb_asym.
           ++ eapply ext_not_ltb_trans; [|exact Hle]. by apply ext_ltb_asym.
        -- intros x [->|Hx]%elem_of_cons Hx'; [done|by apply Hall].
        -- right.
           destruct Hcase as [(-> & -> & ->)|(th' & Hin & Hon' & -> & -> & -> & Hlt')].
           ++ exists th. split; [by left|]. done.
           ++ exists th'. split; [by right|].
              split; [done|]. split; [done|]. split; [done|]. split; [done|].
              destruct t as [a|]; [|done]. cbn in *.
              rewrite bool_decide_eq_true in *. by eapply Qclt_trans.
      * destruct (IH _ _ _ _ _ _ H) as (Hle & Hall & Hcase).
        split; [done|]. split.
        -- intros x [->|Hx]%elem_of_cons Hx'; [|by apply Hall].
           by eapply ext_not_ltb_trans.
        -- destruct Hcase as [?|(th' & Hin & Hrest)]; [by left|].
           right. exists th'. split; [by right|done].
    + destruct (IH _ _ _ _ _ _ H) as (Hle & Hall & Hcase).
      split; [done|]. split.
      * intros x [->|Hx]%elem_of_cons Hx'; [congruence|by apply Hall].
      * destruct Hcase as [?|(th' & Hin & Hrest)]; [by left|].
        right. exists th'. split; [by right|done].
Qed.

(** What [is_there_a_thread_that_ends_sooner] returns is the earlier of the
    time of the next event and the earliest end of a thread on a run queue,
    with the duration from now to it; and the flag says that there are
    active threads of which none ends before the next event. *)
Theorem ends_sooner_is_earliest (now : Qc) (threads : list ActiveThread)
    (time_of_next_event t' d : ext) (flag : bool) :
  is_there_a_thread_that_ends_sooner now threads time_of_next_event
  = Ok (t', d, flag) →
  d = ext_sub t' now ∧
  ext_ltb time_of_next_event t' = false ∧
  (∀ th, th ∈ threads → on_runqueue th = true →
         ext_ltb (Fin (exec_time_on_rq th + now)) t' = false) ∧
  (t' = time_of_next_event
   ∨ ∃ th, th ∈ threads ∧ on_runqueue th = true
           ∧ t' = Fin (exec_time_on_rq th + now)) ∧
  (flag = true ↔ threads ≠ [] ∧ t' = time_of_next_event).
Proof.
  intros H. unfold is_there_a_thread_that_ends_sooner in H.
  apply bind_ok in H as ([[t1 d1] f1] & Hloop & H).
  destruct (ends_sooner_loop_earliest _ _ _ _ _ _ _ _ Hloop)
    as (Hle & Hall & Hcase).
  injection H as <- <- <-.
  split; [|split; [done|split; [done|split]]].
  - destruct Hcase as [(-> & -> & ->)|(th & _ & _ & -> & -> & -> & _)].
    + by destruct (negb _).
    + cbn. f_equal. ring.
  - destruct Hcase as [(-> & _)|(th & Hin & Hon & -> & _)];
      [by left|right; eauto].
  - destruct Hcase as [(-> & -> & ->)|(th & Hin & Hon & -> & -> & -> & Hlt)].
    + rewrite negb_true_iff, bool_decide_eq_false.
      destruct threads; cbn; split; try done; try tauto.
    + split; [done|]. intros [_ E]. rewrite <- E in Hlt.
      by rewrite ext_ltb_irrefl in Hlt.
Qed.

Lemma ends_sooner_loop_returns now threads : ∀ t d f,
  ext_ltb t (Fin now) = false →
  Forall (λ th, 0 ≤ exec_time_on_rq th) threads →
  is_ok (ends_sooner_loop now threads (t, d, f)) = true.
Proof.
  induction threads as [|th threads IH]; intros t d f Ht Hall; [done|].
  apply Forall_cons in Hall as [Hth Hall]. cbn [ends_sooner_loop].
  destruct (on_runqueue th); [|by apply IH]. rewrite Ht.
  destruct (ext_ltb (Fin (exec_time_on_rq th + now)) t); [|by apply IH].
  apply IH; [|done]. cbn. apply bool_decide_eq_false_2.
  intros Hlt. qc_lra.
Qed.

Lemma ends_sooner_loop_raises now threads : ∀ t d f,
  ext_ltb t (Fin now) = true →
  (∃ th, th ∈ threads ∧ on_runqueue th = true) →
  is_ok (ends_sooner_loop now threads (t, d, f)) = false.
Proof.
  induction threads as [|th threads IH]; intros t d f Ht (x & Hx & Hon).
  - by apply elem_of_nil in Hx.
  - cbn [ends_sooner_loop]. destruct (on_runqueue th) eqn:Hth.
    + by rewrite Ht.
    + apply IH; [done|]. exists x. split; [|done].
      apply elem_of_cons in Hx as [->|?]; [congruence|done].
Qed.

(** [is_there_a_thread_that_ends_sooner] returns when the next event is not
    before the current time and no thread has a negative time left; it
    raises when the next event is before the current time and a thread is
    on a run queue. *)
Theorem ends_sooner_returns (now : Qc) (threads : list ActiveThread)
    (time_of_next_event : ext) :
  (ext_ltb time_of_next_event (Fin now) = false →
   Forall (λ th, 0 ≤ exec_time_on_rq th) threads →
   is_ok (is_there_a_thread_that_ends_sooner now threads time_of_next_event)
   = true) ∧
  (ext_ltb time_of_next_event (Fin now) = true →
   (∃ th, th ∈ threads ∧ on_runqueue th = true) →
   is_ok (is_there_a_thread_that_ends_sooner now threads time_of_next_event)
   = false).
Proof.
  unfold is_there_a_thread_that_ends_sooner. split.
  - intros Ht Hall.
    pose proof (ends_sooner_loop_returns now threads time_of_next_event
      (ext_sub time_of_next_event now)
      (negb (bool_decide (length threads = 0%nat))) Ht Hall) as H.
    destruct (ends_sooner_loop _ _ _) as [[[? ?] ?]|]; done.
  - intros Ht Hex.
    pose proof (ends_sooner_loop_raises now threads time_of_next_event
      (ext_sub time_of_next_event now)
      (negb (bool_decide (length threads = 0%nat))) Ht Hex) as H.
    destruct (ends_sooner_loop _ _ _) as [[[? ?] ?]|]; done.
Qed.

Lemma ends_sooner_is_earliest_witness :
  Fin (Z2Qc 3) = ext_sub (Fin (Z2Qc 13)) (Z2Qc 10) ∧
  ext_ltb (Fin (Z2Qc 20)) (Fin (Z2Qc 13)) = false.
Proof.
  destruct (ends_sooner_is_earliest (Z2Qc 10) ClusterExamples.two_running
              (Fin (Z2Qc 20)) (Fin (Z2Qc 13)) (Fin (Z2Qc 3)) false)
    as (Hd & Hle & _).
  - apply (bool_decide_unpack _). by vm_compute.
  - by split.
Defined.

Lemma ends_sooner_returns_witness :
  is_ok (is_there_a_thread_that_ends_sooner (Z2Qc 10)
           ClusterExamples.two_running (Fin (Z2Qc 20))) = true ∧
  is_ok (is_there_a_thread_that_ends_sooner (Z2Qc 10)
           ClusterExamples.two_running (Fin (Z2Qc 9))) = false.
Proof.
  split.
  - apply (proj1 (ends_sooner_returns (Z2Qc 10) ClusterExamples.two_running
                    (Fin (Z2Qc 20)))).
    + by vm_compute.
    + repeat constructor; by vm_compute.
  - apply (proj2 (ends_sooner_returns (Z2Qc 10) ClusterExamples.two_running
                    (Fin (Z2Qc 9)))).
    + by vm_compute.
    + eexists. split; [by left|done].
Defined.

End next_event_facts.

(** ** [Transmission]: what a step leaves *)

Section transmission_bounds.
Import Py Transmission.

Lemma Qc_mult_nonneg (a b : Qc) : 0 ≤ a → 0 ≤ b → 0 ≤ a * b.
Proof. intros Ha Hb. qc_to_q. by apply Qmult_le_0_compat. Qed.

Lemma moved_payload_le (rest : Qc) (t : Transmission) :
  0 ≤ rest → (∀ bw, current_bw t = Fin bw → 0 ≤ bw) →
  0 ≤ remaining_payload_size t →
  moved_payload rest t ≤ remaining_payload_size t.
Proof.
  intros Hr Hbw Hp. unfold moved_payload.
  destruct (current_bw t) as [bw|]; [|done].
  specialize (Hbw bw eq_refl).
  assert (0 ≤ bw * (rest / ns_per_s)).
  { apply Qc_mult_nonneg; [done|]. unfold Qcdiv.
    apply Qc_mult_nonneg; [done|].
    apply Qclt_le_weak, Qc_inv_pos. unfold ns_per_s.
    apply (bool_decide_unpack _). by vm_compute. }
  qc_lra.
Qed.

(** A step of [transmit] that returns lowers neither the residual latency
    nor the remaining payload below 0 and raises neither of them. *)
Theorem transmit_keeps_bounds (t t' : Transmission) (duration now time : Qc) :
  0 ≤ duration → 0 ≤ total_latency t → 0 ≤ remaining_payload_size t →
  (∀ bw, current_bw t = Fin bw → 0 ≤ bw) →
  transmit duration now t = Ok (t', time) →
  0 ≤ total_latency t' ∧ total_latency t' ≤ total_latency t ∧
  0 ≤ remaining_payload_size t' ∧
  remaining_payload_size t' ≤ remaining_payload_size t.
Proof.
  intros Hd Hl Hp Hbw H. unfold transmit in H.
  assert (Hsnap : ∀ rest u, 0 ≤ rest →
    current_bw u = current_bw t →
    remaining_payload_size u = remaining_payload_size t →
    transmit_payload rest now u = Ok (t', time) →
    total_latency t' = total_latency u ∧ 0 ≤ remaining_payload_size t' ∧
    remaining_payload_size t' ≤ remaining_payload_size t).
  { intros rest u Hrest Ebw Ep (Hm & El & Epay & _)%transmit_payload_ok.
    split; [done|]. rewrite Epay.
    assert (moved_payload rest u ≤ remaining_payload_size t).
    { rewrite <- Ep. apply moved_payload_le; [done| |by rewrite Ep].
      intros bw. rewrite Ebw. apply Hbw. }
    case_bool_decide; [done|]. split; [|done].
    apply Qcnot_lt_le in H1. qc_lra. }
  destruct (decide (0 < total_latency t)) as [Hpos|Hpos].
  - rewrite (bool_decide_eq_true_2 _ Hpos) in H.
    destruct (decide (total_latency t < duration)) as [Hlt|Hge].
    + rewrite (bool_decide_eq_true_2 _ Hlt) in H.
      apply Hsnap in H as (El & H1 & H2); [|qc_lra|done..].
      cbn in El. rewrite El. split; [apply Qcle_refl|done].
    + rewrite (bool_decide_eq_false_2 _ Hge) in H.
      apply calculate_transmission_time_ok in H as (El & Ep & _).
      cbn in El, Ep. rewrite El, Ep. apply Qcnot_lt_le in Hge.
      repeat split; first [done|apply Qcle_refl|qc_lra].
  - rewrite (bool_decide_eq_false_2 _ Hpos) in H.
    apply Hsnap in H as (El & H1 & H2); [|done..].
    rewrite El. repeat split; first [done|apply Qcle_refl].
Qed.

Lemma transmit_keeps_bounds_witness :
  0 ≤ total_latency (TransmissionExamples.sending_step.1) ∧
  total_latency (TransmissionExamples.sending_step.1)
  ≤ total_latency TransmissionExamples.sending ∧
  0 ≤ remaining_payload_size (TransmissionExamples.sending_step.1) ∧
  remaining_payload_size (TransmissionExamples.sending_step.1)
  ≤ remaining_payload_size TransmissionExamples.sending.
Proof.
  apply (transmit_keeps_bounds TransmissionExamples.sending
           (TransmissionExamples.sending_step.1) (Z2Qc 20) 0
           (TransmissionExamples.sending_step.2)).
  - by vm_compute.
  - by vm_compute.
  - by vm_compute.
  - intros bw [= <-]. by vm_compute.
  - by vm_compute.
Defined.

End transmission_bounds.

(** ** [CPU]: the pairs of cores *)

Section cpu_pairs.
Import Py CPU.

(** The busiest core of a pair is one of the two, and no core of the pair
    has a greater load; when the loads are equal, neither has more active
    threads. *)
Theorem get_busiest_core_has_greatest_load (cpu : CPU) (c s b : nat)
    (core sib : Core) :
  get_the_other_core_in_pair c false cpu = Ok (Some s) →
  cores cpu !! c = Some core → cores cpu !! s = Some sib →
  get_busiest_core_in_pair_by_core_id c cpu = Ok b →
  ∃ busiest, (b = c ∧ busiest = core ∨ b = s ∧ busiest = sib) ∧
             load core ≤ load busiest ∧ load sib ≤ load busiest ∧
             (load core = load sib →
              (length (active_threads core) ≤ length (active_threads busiest))%nat
              ∧ (length (active_threads sib)
                 ≤ length (active_threads busiest))%nat).
Proof.
  intros Ho Hc%get_ok Hs%get_ok H.
  unfold get_busiest_core_in_pair_by_core_id in H.
  rewrite Ho in H. cbn in H. rewrite Hc, Hs in H. cbn in H.
  destruct (decide (load sib < load core)) as [H1|H1].
  { rewrite (bool_decide_eq_true_2 _ H1) in H. injection H as <-.
    exists core. split; [by left|]. split; [apply Qcle_refl|].
    split; [by apply Qclt_le_weak|]. intros E. rewrite E in H1.
    by apply Qclt_not_eq in H1. }
  rewrite (bool_decide_eq_false_2 _ H1) in H. apply Qcnot_lt_le in H1.
  destruct (decide (load core < load sib)) as [H2|H2].
  { rewrite (bool_decide_eq_true_2 _ H2) in H. injection H as <-.
    exists sib. split; [by right|]. split; [done|].
    split; [apply Qcle_refl|]. intros E. rewrite E in H2.
    by apply Qclt_not_eq in H2. }
  rewrite (bool_decide_eq_false_2 _ H2) in H. apply Qcnot_lt_le in H2.
  case_bool_decide; injection H as <-.
  - exists core. split; [by left|]. split; [apply Qcle_refl|].
    split; [done|]. intros _. lia.
  - exists sib. split; [by right|]. split; [done|].
    split; [apply Qcle_refl|]. intros _. lia.
Qed.


Lemma half_even m : (2 * m / 2 = m)%nat.
Proof. symmetry. apply (Nat.div_unique (2 * m) 2 m 0); lia. Qed.

Lemma half_odd m : ((2 * m + 1) / 2 = m)%nat.
Proof. symmetry. apply (Nat.div_unique (2 * m + 1) 2 m 1); lia. Qed.

Lemma even_odd_double m : Nat.even (2 * m + 1) = false.
Proof.
  destruct (Nat.even (2 * m + 1)) eqn:E; [|done].
  apply Nat.even_spec in E as [k Hk]. lia.
Qed.

Lemma core_pairs_lookup (n i : nat) :
  foldl (λ pairs core_id,
           if Nat.even core_id then pairs ++ [[core_id]]
           else alter (λ pair, pair ++ [core_id]) (pair_id core_id) pairs)
        [] (seq 0 n) !! i
  = if decide (2 * i + 1 < n)%nat then Some [2 * i; 2 * i + 1]%nat
    else if decide (2 * i < n)%nat then Some [2 * i]%nat else None.
Proof.
  revert i. induction n as [|n IH]; intros i.
  - cbn. by rewrite !decide_False by lia.
  - rewrite seq_S, foldl_app. cbn [foldl Nat.add].
    set (pairs := foldl _ [] (seq 0 n)) in *.
    destruct (Nat.even n) eqn:Hev.
    + apply Nat.even_spec in Hev as [m ->].
      assert (Hlen : length pairs = m).
      { apply Nat.le_antisymm.
        - apply lookup_ge_None. rewrite IH.
          by rewrite !decide_False by lia.
        - destruct (decide (m ≤ length pairs)%nat) as [|Hlt]; [done|].
          assert (is_Some (pairs !! (length pairs))) as [x Hx].
          { rewrite IH. destruct (decide _); [eauto|].
            rewrite decide_True by lia. eauto. }
          apply lookup_lt_Some in Hx. lia. }
      destruct (decide (i < m)%nat) as [Hi|Hi].
      * rewrite lookup_app_l by lia. rewrite IH.
        destruct (decide (2 * i + 1 < 2 * m)%nat);
          destruct (decide (2 * i + 1 < S (2 * m))%nat); try lia; done.
      * rewrite lookup_app_r by lia. rewrite Hlen.
        destruct (decide (i = m)) as [->|Hne].
        -- rewrite Nat.sub_diag. cbn.
           rewrite decide_False by lia. by rewrite decide_True by lia.
        -- rewrite !decide_False by lia.
           destruct (i - m)%nat as [|j] eqn:E; [lia|]. done.
    + assert (∃ m, n = 2 * m + 1)%nat as [m ->].
      { apply Nat.odd_spec. unfold Nat.odd. by rewrite Hev. }
      unfold pair_id. rewrite half_odd.
      destruct (decide (i = m)) as [->|Hne].
      * rewrite list_lookup_alter, IH.
        rewrite (decide_False (P := (2 * m + 1 < 2 * m + 1)%nat)) by lia.
        rewrite (decide_True (P := (2 * m < 2 * m + 1)%nat)) by lia.
        destruct (decide (2 * m + 1 < S (2 * m + 1))%nat); [|lia].
        destruct (decide (m = m)); [reflexivity|done].
      * rewrite list_lookup_alter_ne by done. rewrite IH.
        destruct (decide (2 * i + 1 < 2 * m + 1)%nat);
          destruct (decide (2 * i + 1 < S (2 * m + 1))%nat); try lia;
          [done|].
        destruct (decide (2 * i < 2 * m + 1)%nat);
          destruct (decide (2 * i < S (2 * m + 1))%nat); try lia; done.
Qed.

Lemma get_the_other_core_in_pair_cases (cpu : CPU) (c : nat) :
  (c < length (cores cpu))%nat →
  get_the_other_core_in_pair c false cpu
  = Ok (if Nat.even c
        then if decide (c + 1 < length (cores cpu))%nat
             then Some (c + 1)%nat else None
        else Some (c - 1)%nat).
Proof.
  intros Hc. unfold get_the_other_core_in_pair.
  destruct (Nat.even c) eqn:Hev; [|done].
  apply Nat.even_spec in Hev as [m ->].
  unfold get, get_core_pairs. rewrite half_even, core_pairs_lookup.
  destruct (decide (2 * m + 1 < length (cores cpu))%nat).
  - cbn. by rewrite decide_False by done.
  - rewrite decide_True by lia. cbn. by rewrite decide_True by done.
Qed.

(** The cores of a CPU pair up as (0, 1), (2, 3), ...: the other core of a
    core is its neighbour in that pair, the last core of an odd number of
    cores has none, and the other core of the other core is the core
    itself. *)
Theorem get_the_other_core_in_pair_involutive (cpu : CPU) (c : nat) :
  (c < length (cores cpu))%nat →
  (get_the_other_core_in_pair c false cpu = Ok None
   ↔ Nat.even c = true ∧ (c + 1)%nat = length (cores cpu)) ∧
  (∀ s, get_the_other_core_in_pair c false cpu = Ok (Some s) →
        (s < length (cores cpu))%nat ∧ s ≠ c ∧ pair_id s = pair_id c ∧
        get_the_other_core_in_pair s false cpu = Ok (Some c)).
Proof.
  intros Hc. rewrite (get_the_other_core_in_pair_cases cpu c Hc). split.
  - destruct (Nat.even c); [|split; [done|by intros [? _]]].
    destruct (decide _); split; try done; try (intros [_ ?]; lia).
    intros _. split; [done|lia].
  - intros s Hs.
    destruct (Nat.even c) eqn:Hev.
    + destruct (decide _) as [Hlt|]; [|done]. injection Hs as <-.
      apply Nat.even_spec in Hev as [m ->].
      split; [done|]. split; [lia|]. split.
      * unfold pair_id. by rewrite half_odd, half_even.
      * rewrite get_the_other_core_in_pair_cases by done.
        rewrite even_odd_double. do 2 f_equal. lia.
    + injection Hs as <-.
      assert (∃ m, c = 2 * m + 1)%nat as [m ->].
      { apply Nat.odd_spec. unfold Nat.odd. by rewrite Hev. }
      replace (2 * m + 1 - 1)%nat with (2 * m)%nat by lia.
      split; [lia|]. split; [lia|]. split.
      * unfold pair_id. by rewrite half_odd, half_even.
      * rewrite get_the_other_core_in_pair_cases by lia.
        replace (Nat.even (2 * m)) with true.
        -- by rewrite decide_True by lia.
        -- symmetry. apply Nat.even_spec. by exists m.
Qed.

Lemma get_busiest_core_has_greatest_load_witness :
  get_busiest_core_in_pair_by_core_id 1 CPUExamples.one_busy_pair = Ok 0%nat ∧
  ∃ busiest core sib,
    cores CPUExamples.one_busy_pair !! 1%nat = Some core ∧
    cores CPUExamples.one_busy_pair !! 0%nat = Some sib ∧
    busiest = sib ∧ load core ≤ load busiest ∧ load sib ≤ load busiest.
Proof.
  split; [reflexivity|].
  destruct (get_busiest_core_has_greatest_load CPUExamples.one_busy_pair
              1 0 0
              {| load := 0; active_threads := [];
                 lightest_threads_in_rq := [] |}
              {| load := Z2Qc 2048; active_threads := [0; 1]%nat;
                 lightest_threads_in_rq :=
                   [(Z2Qc 1024, [(Z2Qc 0, [0; 1]%nat)])] |})
    as (busiest & [[? _]|[_ ->]] & H1 & H2 & _);
    [reflexivity|reflexivity|reflexivity|reflexivity|done|].
  eexists _, _, _. split; [reflexivity|]. split; [reflexivity|].
  split; [reflexivity|]. by split.
Defined.

Lemma get_the_other_core_in_pair_involutive_witness :
  get_the_other_core_in_pair 0 false CPUExamples.one_busy_pair
  = Ok (Some 1%nat) ∧
  get_the_other_core_in_pair 1 false CPUExamples.one_busy_pair
  = Ok (Some 0%nat).
Proof.
  split; [reflexivity|].
  apply (proj2 (get_the_other_core_in_pair_involutive
                  CPUExamples.one_busy_pair 0 ltac:(cbn; lia)) 1%nat).
  reflexivity.
Defined.

End cpu_pairs.

(** ** [LeastFit]: the score of one resource *)

Section least_fit_score_facts.
Import Py LeastFit.

Lemma Qc_ratio_bounds (x c : Qc) :
  0 < c → 0 ≤ x → x ≤ c → 0 ≤ x / c ∧ x / c ≤ 1.
Proof.
  intros Hc H0 H1. pose proof (Qc_inv_pos c Hc) as Hi. unfold Qcdiv. split.
  - apply Qc_mult_nonneg; [done|by apply Qclt_le_weak].
  - assert (x * / c ≤ c * / c) as H.
    { apply Qcmult_le_compat_r; [done|by apply Qclt_le_weak]. }
    rewrite Qcmult_inv_r in H; [done|].
    intros E. rewrite E in Hc. by apply Qclt_not_eq in Hc.
Qed.

(** For a request that fits, the score of a resource lies between 0 (the
    resource is free and nothing is requested) and 100 times the weight (the
    request takes all that is left), and a host with more of the resource
    available scores lower. *)
Theorem least_fit_score_range (available capacity requested weight s : Qc) :
  0 < capacity → 0 ≤ requested → requested ≤ available →
  available ≤ capacity → 0 ≤ weight →
  least_fit_score available capacity requested weight = Ok s →
  0 ≤ s ∧ s ≤ Z2Qc 100 * weight ∧
  (∀ available' s', available ≤ available' →
     least_fit_score available' capacity requested weight = Ok s' →
     s' ≤ s).
Proof.
  intros Hc Hq Hqa Hac Hw (Hne & ->)%least_fit_score_ok.
  unfold weighted, Py.min.
  rewrite (bool_decide_eq_false_2 (capacity < requested))
    by (apply Qcle_not_lt; by eapply Qcle_trans).
  assert (Hx : ∀ a, requested / capacity - a / capacity
                    = - ((a - requested) / capacity)).
  { intros a. unfold Qcdiv. ring. }
  destruct (Qc_ratio_bounds (available - requested) capacity Hc)
    as [Hr0 Hr1]; [qc_lra..|].
  assert (H100 : 0 ≤ weight * Z2Qc 100).
  { apply Qc_mult_nonneg; [done|]. by apply (bool_decide_unpack _). }
  split; [|split].
  - rewrite Hx.
    assert (weight * Z2Qc 100 * ((available - requested) / capacity)
            ≤ weight * Z2Qc 100 * 1) as H.
    { rewrite !(Qcmult_comm (weight * Z2Qc 100)).
      by apply Qcmult_le_compat_r. }
    set (r := (available - requested) / capacity) in *.
    set (k := weight * Z2Qc 100) in *.
    replace (k + k * - r) with (k * 1 - k * r) by ring.
    clearbody k r. qc_lra.
  - rewrite Hx.
    assert (0 ≤ weight * Z2Qc 100 * ((available - requested) / capacity))
      as H by (by apply Qc_mult_nonneg).
    set (r := (available - requested) / capacity) in *.
    replace (weight * Z2Qc 100 + weight * Z2Qc 100 * - r)
      with (Z2Qc 100 * weight - weight * Z2Qc 100 * r) by ring.
    set (k := weight * Z2Qc 100 * r) in *. clearbody k. qc_lra.
  - intros a' s' Ha (_ & ->)%least_fit_score_ok. unfold weighted, Py.min.
    rewrite (bool_decide_eq_false_2 (capacity < requested))
      by (apply Qcle_not_lt; by eapply Qcle_trans).
    assert (0 ≤ weight * Z2Qc 100 * ((a' - available) / capacity)) as H.
    { apply Qc_mult_nonneg; [done|]. unfold Qcdiv.
      apply Qc_mult_nonneg; [qc_lra|].
      by apply Qclt_le_weak, Qc_inv_pos. }
    replace (weight * Z2Qc 100
             + weight * Z2Qc 100
               * (requested / capacity - available / capacity))
      with (weight * Z2Qc 100
            + weight * Z2Qc 100 * (requested / capacity - a' / capacity)
            + weight * Z2Qc 100 * ((a' - available) / capacity))
      by (unfold Qcdiv; ring).
    set (k := weight * Z2Qc 100 * ((a' - available) / capacity)) in *.
    set (j := weight * Z2Qc 100
              + weight * Z2Qc 100 * (requested / capacity - a' / capacity)).
    clearbody k j. qc_lra.
Qed.

Lemma least_fit_score_range_witness :
  least_fit_score (Z2Qc 500) (Z2Qc 1000) (Z2Qc 100) 1 = Ok (Z2Qc 60) ∧
  0 ≤ Z2Qc 60 ∧ Z2Qc 60 ≤ Z2Qc 100 * 1.
Proof.
  assert (least_fit_score (Z2Qc 500) (Z2Qc 1000) (Z2Qc 100) 1
          = Ok (Z2Qc 60)) as E.
  { apply (bool_decide_unpack _). by vm_compute. }
  split; [exact E|].
  destruct (least_fit_score_range (Z2Qc 500) (Z2Qc 1000) (Z2Qc 100) 1
              (Z2Qc 60)) as (H0 & H1 & _);
    [by vm_compute..|exact E|].
  by split.
Defined.

End least_fit_score_facts.

(** ** [Microservice.next_replica] and [LoadBalancer]: round robin *)

Section round_robin.
Import Py Calls.

Lemma calls_step {S A : Type} (method : S → result (A * S)) n s a s1 l s2 :
  method s = Ok (a, s1) → calls method n s1 = Ok (l, s2) →
  calls method (Datatypes.S n) s = Ok (a :: l, s2).
Proof. intros H1 H2. cbn [calls]. rewrite H1. cbn. by rewrite H2. Qed.

Lemma calls_next_replica (n : nat) : ∀ ms,
  NextReplica.replicas ms ≠ [] →
  ∃ l ms',
    calls (NextReplica.next_replica true) n ms = Ok (l, ms') ∧
    length l = n ∧
    NextReplica.replicas ms' = NextReplica.replicas ms ∧
    NextReplica.current_replica_id ms'
    = (NextReplica.current_replica_id ms + Z.of_nat n)%Z ∧
    ∀ i, (i < n)%nat →
      l !! i
      = NextReplica.replicas ms
        !! Z.to_nat ((NextReplica.current_replica_id ms + Z.of_nat i)
                     `mod` Z.of_nat (length (NextReplica.replicas ms))).
Proof.
  induction n as [|n IH]; intros ms Hne.
  - exists [], ms. cbn. split; [done|]. split; [done|]. split; [done|].
    split; [lia|]. intros i Hi. lia.
  - assert (Hlen : (0 < length (NextReplica.replicas ms))%nat).
    { destruct (NextReplica.replicas ms); [done|cbn; lia]. }
    set (len := Z.of_nat (length (NextReplica.replicas ms))).
    pose proof (Z.mod_pos_bound (NextReplica.current_replica_id ms) len
                  ltac:(lia)) as Hb.
    destruct (lookup_lt_is_Some_2 (NextReplica.replicas ms)
                (Z.to_nat (NextReplica.current_replica_id ms `mod` len)))
      as [r Hr]; [lia|].
    set (ms1 := {| NextReplica.replicas := NextReplica.replicas ms;
                   NextReplica.current_replica_id :=
                     (NextReplica.current_replica_id ms + 1)%Z |}).
    destruct (IH ms1 Hne) as (l & ms' & Hcalls & Hl & Hrs & Hcur & Hlook).
    exists (r :: l), ms'. split.
    { apply (calls_step _ _ _ _ ms1); [|done].
      unfold NextReplica.next_replica. rewrite decide_False by lia.
      fold len. unfold get. by rewrite Hr. }
    split; [cbn; by rewrite Hl|]. split; [done|]. split.
    + rewrite Hcur. cbn. lia.
    + intros [|i] Hi.
      * rewrite Z.add_0_r. fold len. by rewrite Hr.
      * change ((r :: l) !! S i) with (l !! i). rewrite (Hlook i) by lia.
        cbn. do 3 f_equal. lia.
Qed.

(** [next_replica] hands out the replicas in turn: as many calls as there
    are replicas return, give every replica once, in the order of the list
    from the replica at [current_replica_id] modulo their number, and leave
    the replicas as they are.  A call with [increase_replica_id = False]
    gives the replica that the next call gives and changes nothing; with no
    replica the call divides by zero. *)
Theorem next_replica_round_robin (ms : NextReplica.Microservice) :
  (NextReplica.replicas ms = [] →
   ∀ b, NextReplica.next_replica b ms = Err ZeroDivisionError) ∧
  (NextReplica.replicas ms ≠ [] →
   ∃ ms',
     calls (NextReplica.next_replica true)
       (length (NextReplica.replicas ms)) ms
     = Ok (rotate (Z.to_nat (NextReplica.current_replica_id ms
                             `mod` Z.of_nat (length (NextReplica.replicas ms))))
             (NextReplica.replicas ms), ms') ∧
     NextReplica.replicas ms' = NextReplica.replicas ms ∧
     ∃ r ms1, NextReplica.next_replica true ms = Ok (r, ms1) ∧
              NextReplica.next_replica false ms = Ok (r, ms)).
Proof.
  split.
  - intros E b. unfold NextReplica.next_replica. by rewrite E.
  - intros Hne.
    destruct (calls_next_replica (length (NextReplica.replicas ms)) ms Hne)
      as (l & ms' & Hcalls & Hl & Hrs & _ & Hlook).
    assert (Hlen : (0 < length (NextReplica.replicas ms))%nat).
    { destruct (NextReplica.replicas ms); [done|cbn; lia]. }
    set (len := Z.of_nat (length (NextReplica.replicas ms))) in *.
    pose proof (Z.mod_pos_bound (NextReplica.current_replica_id ms) len
                  ltac:(lia)) as Hb.
    exists ms'. split; [|split; [done|]].
    + rewrite Hcalls. do 2 f_equal. apply list_eq. intros i.
      destruct (decide (i < length (NextReplica.replicas ms))%nat) as [Hi|Hi].
      * rewrite (Hlook i Hi), lookup_rotate_r by done.
        unfold rotate_nat_add. fold len. f_equal. f_equal.
        rewrite Z2Nat.id by lia. by rewrite Zplus_mod_idemp_l.
      * rewrite !lookup_ge_None_2; [done| |]; rewrite ?length_rotate; lia.
    + destruct (lookup_lt_is_Some_2 (NextReplica.replicas ms)
                  (Z.to_nat (NextReplica.current_replica_id ms `mod` len)))
        as [r Hr]; [lia|].
      unfold NextReplica.next_replica. rewrite !decide_False by lia.
      fold len. unfold get. rewrite Hr. cbn. by eexists _, _.
Qed.

Lemma next_replica_round_robin_witness :
  ∃ ms',
    calls (NextReplica.next_replica true) 3 ReplicaExamples.three_replicas
    = Ok ([11; 12; 10]%nat, ms').
Proof.
  destruct (proj2 (next_replica_round_robin ReplicaExamples.three_replicas)
              ltac:(discriminate)) as (ms' & H & _).
  exists ms'. exact H.
Defined.

Lemma calls_next (n : nat) : ∀ lb,
  LoadBalancer.algorithm lb = "round_robin" →
  (LoadBalancer.current_item lb < length (LoadBalancer.items lb))%nat →
  ∃ l lb',
    calls LoadBalancer.next n lb = Ok (l, lb') ∧
    length l = n ∧
    LoadBalancer.items lb' = LoadBalancer.items lb ∧
    LoadBalancer.algorithm lb' = LoadBalancer.algorithm lb ∧
    LoadBalancer.current_item lb'
    = ((LoadBalancer.current_item lb + n)
       `mod` length (LoadBalancer.items lb))%nat ∧
    ∀ i, (i < n)%nat →
      l !! i
      = LoadBalancer.items lb
        !! ((LoadBalancer.current_item lb + i)
            `mod` length (LoadBalancer.items lb))%nat.
Proof.
  induction n as [|n IH]; intros lb Halg Hcur.
  - exists [], lb. cbn. split; [done|]. split; [done|]. split; [done|].
    split; [done|]. split.
    + rewrite Nat.add_0_r. by rewrite Nat.mod_small.
    + intros i Hi. lia.
  - destruct (lookup_lt_is_Some_2 _ _ Hcur) as [item Hitem].
    set (lb1 := {| LoadBalancer.items := LoadBalancer.items lb;
                   LoadBalancer.algorithm := LoadBalancer.algorithm lb;
                   LoadBalancer.current_item :=
                     if decide (LoadBalancer.current_item lb + 1
                                < length (LoadBalancer.items lb))%nat
                     then (LoadBalancer.current_item lb + 1)%nat
                     else 0%nat |}).
    assert (Hcur1 : LoadBalancer.current_item lb1
                    = ((LoadBalancer.current_item lb + 1)
                       `mod` length (LoadBalancer.items lb))%nat).
    { cbn. destruct (decide _) as [Hlt|Hge].
      - by rewrite Nat.mod_small.
      - assert (LoadBalancer.current_item lb + 1
                = length (LoadBalancer.items lb))%nat as -> by lia.
        by rewrite Nat.Div0.mod_same. }
    destruct (IH lb1) as (l & lb' & Hcalls & Hl & Hit & Halg' & Hc & Hlook).
    { done. }
    { rewrite Hcur1. apply Nat.mod_upper_bound. cbn. lia. }
    exists (item :: l), lb'. split.
    { apply (calls_step _ _ _ _ lb1); [|done].
      unfold LoadBalancer.next. rewrite decide_True by done.
      unfold get. by rewrite Hitem. }
    split; [cbn; by rewrite Hl|]. split; [done|]. split; [done|]. split.
    + rewrite Hc, Hcur1. cbn [LoadBalancer.items lb1].
      rewrite Nat.Div0.add_mod_idemp_l. f_equal. lia.
    + intros [|i] Hi.
      * rewrite Nat.add_0_r.
        rewrite Nat.mod_small by done. by rewrite Hitem.
      * change ((item :: l) !! S i) with (l !! i). rewrite (Hlook i) by lia.
        rewrite Hcur1. cbn [LoadBalancer.items lb1].
        rewrite Nat.Div0.add_mod_idemp_l. do 2 f_equal. lia.
Qed.

(** A round robin [LoadBalancer] whose current item is one of its items
    hands out the items in turn: as many calls of [next] as there are items
    return, give every item once, in the order of the list from the current
    item, and leave the load balancer as it was.  With another algorithm,
    or with a current item that is none of the items, [next] raises. *)
Theorem load_balancer_round_robin (lb : LoadBalancer.LoadBalancer) :
  (LoadBalancer.algorithm lb = "round_robin" →
   (LoadBalancer.current_item lb < length (LoadBalancer.items lb))%nat →
   calls LoadBalancer.next (length (LoadBalancer.items lb)) lb
   = Ok (rotate (LoadBalancer.current_item lb) (LoadBalancer.items lb), lb)) ∧
  (LoadBalancer.algorithm lb ≠ "round_robin"
   ∨ (length (LoadBalancer.items lb) ≤ LoadBalancer.current_item lb)%nat →
   is_ok (LoadBalancer.next lb) = false).
Proof.
  split.
  - intros Halg Hcur.
    destruct (calls_next (length (LoadBalancer.items lb)) lb Halg Hcur)
      as (l & lb' & Hcalls & Hl & Hit & Halg' & Hc & Hlook).
    rewrite Hcalls. do 2 f_equal.
    + apply list_eq. intros i.
      destruct (decide (i < length (LoadBalancer.items lb))%nat) as [Hi|Hi].
      * rewrite (Hlook i Hi), lookup_rotate_r by done.
        unfold rotate_nat_add. f_equal.
        rewrite <- Nat2Z.inj_add, <- Nat2Z.inj_mod. by rewrite Nat2Z.id.
      * rewrite !lookup_ge_None_2; [done| |]; rewrite ?length_rotate; lia.
    + destruct lb as [its alg cur], lb' as [its' alg' cur']. cbn in *.
      subst its' alg'. f_equal. rewrite Hc.
      replace (cur + length its)%nat with (cur + 1 * length its)%nat by lia.
      rewrite Nat.Div0.mod_add. by apply Nat.mod_small.
  - intros [Halg|Hcur]; unfold LoadBalancer.next.
    + by rewrite decide_False.
    + destruct (decide _); [|done]. unfold get.
      by rewrite lookup_ge_None_2.
Qed.

Lemma load_balancer_round_robin_witness :
  calls LoadBalancer.next 3 ReplicaExamples.three_items
  = Ok ([11; 12; 10]%nat, ReplicaExamples.three_items).
Proof.
  apply (proj1 (load_balancer_round_robin ReplicaExamples.three_items)).
  - reflexivity.
  - cbn. lia.
Defined.

End round_robin.

(** ** [Host]: placing and evicting a replica *)

Section host_placement.
Import Py Host HostPlacement.

Lemma place_replica_inv time max_cpu_requests replica_id replica share s s1
    share1 :
  place_replica time max_cpu_requests replica_id replica share s
  = Ok (s1, share1) →
  ∃ cores ram' blkio',
    placed_cores replica (host s) = Ok cores ∧
    Resource.reserve (ram (host s)) (memory_requests replica) = Ok ram' ∧
    Resource.reserve (blkio (host s)) (blkio_capacity replica) = Ok blkio' ∧
    host s1
    = {| name := name (host s); cpu := cores; ram := ram'; blkio := blkio';
         nic_ingress :=
           Nic.request_bw (ingress_bw replica) (nic_ingress (host s));
         nic_egress :=
           Nic.request_bw (egress_bw replica) (nic_egress (host s));
         replicas := RunQueue.set_add replica_id (replicas (host s)) |} ∧
    power_on_periods s1
    = if decide (length (RunQueue.set_add replica_id (replicas (host s)))
                 = 1%nat)
      then power_on_periods s ++ [(time, PInf)]
      else power_on_periods s.
Proof.
  unfold place_replica, placed_cores. intros H.
  apply bind_ok in H as ([cores sh] & Hc & H).
  apply bind_ok in H as (ram' & Hram & H).
  apply bind_ok in H as (blkio' & Hblk & H).
  injection H as <- <-. exists cores, ram', blkio'.
  split; [|by repeat split].
  destruct (_ || _).
  { apply bind_ok in Hc as (c & -> & [= <- _]). done. }
  destruct (Microservice.is_limited_burstable _).
  { apply bind_ok in Hc as (c & -> & [= <- _]). done. }
  destruct (Microservice.is_burstable _).
  { apply bind_ok in Hc as (c & -> & [= <- _]). done. }
  by injection Hc as <- _.
Qed.

Lemma power_on_check (time : Qc) (replica_id : nat) (l : list nat)
    (periods : list (Qc * ext)) :
  replica_id ∉ l →
  (if decide (length l = 0%nat) then
     match last (if decide (length (RunQueue.set_add replica_id l) = 1%nat)
                 then periods ++ [(time, PInf)] else periods) with
     | None => Err IndexError
     | Some last_power_on_period =>
         if ext_eqb (last_power_on_period.2) PInf then Ok tt
         else Err (Exception "Last power on period is not infinite! Probably something went wrong (i.e., a bug).")
     end
   else Ok tt) = Ok tt.
Proof.
  intros Hin. destruct l as [|x l]; [|done]. unfold RunQueue.set_add.
  rewrite (decide_False (P := replica_id ∈ [])) by done.
  rewrite (decide_True (P := length [] = 0%nat)) by done.
  rewrite (decide_True (P := length ([] ++ [replica_id]) = 1%nat)) by done.
  by rewrite last_snoc.
Qed.

Lemma set_remove_set_add (replica_id : nat) (l : list nat) :
  replica_id ∉ l →
  RunQueue.set_remove replica_id (RunQueue.set_add replica_id l) = Ok l.
Proof.
  intros Hin. unfold RunQueue.set_remove, RunQueue.set_add.
  rewrite decide_False by done. by rewrite remove_first_last.
Qed.

Lemma evict_replica_after_place time max_cpu_requests replica_id replica
    share s s1 share1 :
  nothing_negative (host s) → replica_id ∉ replicas (host s) →
  place_replica time max_cpu_requests replica_id replica share s
  = Ok (s1, share1) →
  ∀ cores,
    (if bool_decide (cpu_requests replica ≠ -(1))
        && bool_decide (cpu_limits replica ≠ -(1))
     then cpu_release (cpu_requests replica) (cpu (host s1))
     else Ok (cpu (host s1))) = Ok cores →
    evict_replica replica_id replica s1
    = Ok {| host :=
              {| name := name (host s); cpu := cores; ram := ram (host s);
                 blkio := blkio (host s);
                 nic_ingress := nic_ingress (host s);
                 nic_egress := nic_egress (host s);
                 replicas := replicas (host s) |};
            power_on_periods := power_on_periods s1 |}.
Proof.
  intros (Hcpu & Hram & Hblk & Hin & Heg) Hnew H cores Hcores.
  apply place_replica_inv in H
    as (cores1 & ram' & blkio' & Hc & Hr & Hb & Hhost & Hper).
  unfold evict_replica. rewrite Hcores. rewrite Hhost. cbn.
  rewrite set_remove_set_add by done. cbn.
  rewrite (release_undoes_reserve _ _ _ Hram Hr). cbn.
  rewrite (release_undoes_reserve _ _ _ Hblk Hb). cbn.
  rewrite !dismiss_bw_undoes_request_bw by done. cbn.
  rewrite Hper, power_on_check by done. done.
Qed.


Lemma evict_replica_cores replica_id replica s1 s2 :
  evict_replica replica_id replica s1 = Ok s2 →
  (if bool_decide (cpu_requests replica ≠ -(1))
      && bool_decide (cpu_limits replica ≠ -(1))
   then cpu_release (cpu_requests replica) (cpu (host s1))
   else Ok (cpu (host s1))) = Ok (cpu (host s2)).
Proof.
  unfold evict_replica. intros H.
  apply bind_ok in H as (replicas' & _ & H).
  apply bind_ok in H as (cores & Hc & H).
  apply bind_ok in H as (ram' & _ & H).
  apply bind_ok in H as (blkio' & _ & H).
  apply bind_ok in H as (egress & _ & H).
  apply bind_ok in H as (ingress & _ & H).
  apply bind_ok in H as (? & _ & [= <-]). exact Hc.
Qed.

Lemma cpu_reserve_available amount cores cores' :
  cpu_reserve amount cores = Ok cores' →
  ∃ per_core,
    cpu_requests_per_core amount cores = Ok per_core ∧
    length cores' = length cores ∧
    foldl (λ available core, available + Resource.get_available core) 0 cores'
    = foldl (λ available core, available + Resource.get_available core) 0
        cores
      - Z2Qc (Z.of_nat (length cores)) * per_core.
Proof.
  unfold cpu_reserve. intros H. apply bind_ok in H as (per_core & Hp & H).
  exists per_core. split; [done|]. by apply reserve_all_available.
Qed.

(** A burstable replica does not give back the CPU it took.  After placing
    a burstable replica without limit, evicting it returns and leaves the
    cores as reserved as placing made them.  After placing a burstable
    replica with a limit and a request, an eviction that returns releases
    the request where placing reserved the limit. *)
Theorem evict_place_keeps_cpu_of_burstable (time max_cpu_requests share
    share1 : Qc) (replica_id : nat) (replica : MicroserviceReplica)
    (s s1 : HostState) :
  nothing_negative (host s) → replica_id ∉ replicas (host s) →
  place_replica time max_cpu_requests replica_id replica share s
  = Ok (s1, share1) →
  (Microservice.is_unlimited_burstable (microservice_of replica) = true →
   ∃ s2 per_core,
     evict_replica replica_id replica s1 = Ok s2 ∧
     cpu (host s2) = cpu (host s1) ∧
     cpu_requests_per_core (cpu_requests replica) (cpu (host s))
     = Ok per_core ∧
     cpu_get_available (host s2)
     = cpu_get_available (host s)
       - Z2Qc (Z.of_nat (length (cpu (host s)))) * per_core) ∧
  (Microservice.is_limited_burstable (microservice_of replica) = true →
   cpu_requests replica ≠ -(1) →
   ∀ s2, evict_replica replica_id replica s1 = Ok s2 →
     ∃ per_limit per_request,
       cpu_requests_per_core (cpu_limits replica) (cpu (host s))
       = Ok per_limit ∧
       cpu_requests_per_core (cpu_requests replica) (cpu (host s))
       = Ok per_request ∧
       cpu_get_available (host s2)
       = cpu_get_available (host s)
         - Z2Qc (Z.of_nat (length (cpu (host s))))
           * (per_limit - per_request)).
Proof.
  intros Hnn Hnew H.
  pose proof (place_replica_inv _ _ _ _ _ _ _ _ H)
    as (cores1 & ram' & blkio' & Hc & _ & _ & Hhost & _).
  assert (Hcpu1 : cpu (host s1) = cores1) by (by rewrite Hhost).
  unfold placed_cores in Hc.
  unfold Microservice.is_guaranteed, Microservice.is_unlimited_burstable,
    Microservice.is_limited_burstable, microservice_of in *.
  cbn [Microservice.cpu_requests Microservice.cpu_limits] in *.
  split.
  - intros Hub. rewrite Hub, orb_true_r in Hc.
    apply andb_true_iff in Hub as [_ Hlim%bool_decide_eq_true].
    destruct (cpu_reserve_available _ _ _ Hc) as (per_core & Hp & _ & Hav).
    eexists _, per_core. split.
    { eapply evict_replica_after_place; [done..|].
      rewrite (bool_decide_eq_false_2 (cpu_limits replica ≠ -(1)))
        by (by intros ?).
      by rewrite andb_false_r. }
    cbn. split; [done|]. split; [done|].
    unfold cpu_get_available. cbn. by rewrite Hcpu1.
  - intros Hlb Hreq s2 H2.
    apply andb_true_iff in Hlb
      as [Hne%bool_decide_eq_true Hlim%bool_decide_eq_true].
    rewrite (bool_decide_eq_false_2 (cpu_limits replica = cpu_requests replica))
      in Hc by done.
    rewrite (bool_decide_eq_false_2 (cpu_limits replica = -(1))) in Hc by done.
    rewrite andb_false_r in Hc. cbn [orb andb] in Hc.
    rewrite (bool_decide_eq_true_2 _ Hne), (bool_decide_eq_true_2 _ Hlim) in Hc.
    cbn [andb] in Hc.
    destruct (cpu_reserve_available _ _ _ Hc) as (per_limit & Hp & Hlen & Hav).
    apply evict_replica_cores in H2.
    rewrite (bool_decide_eq_true_2 _ Hreq), (bool_decide_eq_true_2 _ Hlim) in H2.
    cbn [andb] in H2. rewrite Hcpu1 in H2. unfold cpu_release in H2.
    apply bind_ok in H2 as (per_request & Hq & H2).
    apply release_all_available in H2 as [_ Hav2].
    exists per_limit, per_request. split; [done|]. split.
    { unfold cpu_requests_per_core in *. by rewrite <- Hlen. }
    unfold cpu_get_available. rewrite Hav2, Hav, Hlen. ring.
Qed.

End host_placement.

Section host_placement_witnesses.
Import Py Host HostPlacement HostPlacementExamples.

Lemma empty_host_nothing_negative : nothing_negative (host empty_host).
Proof.
  split; [repeat constructor; by vm_compute|].
  repeat split; by vm_compute.
Qed.


Lemma evict_place_keeps_cpu_of_burstable_witness :
  ∃ s2 per_core,
    evict_replica 7 unlimited_replica (placed unlimited_replica).1 = Ok s2 ∧
    cpu (host s2) = cpu (host (placed unlimited_replica).1) ∧
    cpu_requests_per_core (cpu_requests unlimited_replica)
      (cpu (host empty_host)) = Ok per_core ∧
    cpu_get_available (host s2)
    = cpu_get_available (host empty_host)
      - Z2Qc (Z.of_nat (length (cpu (host empty_host)))) * per_core.
Proof.
  apply (proj1 (evict_place_keeps_cpu_of_burstable (Z2Qc 5) (Z2Qc 1000) 0
           (placed unlimited_replica).2 7 unlimited_replica empty_host
           (placed unlimited_replica).1 empty_host_nothing_negative
           ltac:(apply not_elem_of_nil) ltac:(by vm_compute))).
  by vm_compute.
Defined.

End host_placement_witnesses.
